(** * Coloring and state engine of NEW_4_Color_Theorem

    A shallow embedding of the theorem engine (TheoremEngine), of the three
    coloring heuristics whose sources are available (GreedyAlgorithm,
    WelshPowellAlgorithm, DSATURAlgorithm), of the bounded undo/redo
    stack (HistoryManager, history.js), of the k-coloring used by the
    auto-color buttons (colorGraphGreedyBacktrack, coloring.js), of the
    matrices that the canvases hand to it (graph.js, regions.js) and of the
    application's own greedy coloring (FourColorApp), followed by the
    properties established about them.

    Two modules that the engine imports are not among the sources:
    BacktrackingAlgorithm, over which the engine is parameterised, and
    StateManager, for which HistoryManager stands (module [StateManager]
    below).

    Conventions of the embedding:
    - a JavaScript number that the code uses as an index, a color or a
      counter is a [Z]; the sentinel [-1] for "uncolored" is kept as the
      code has it; loop counters that only range over [0 .. n-1] are [nat];
    - an array is a [list]; [a[i]] is the lookup [a !! i], where [None]
      stands for JavaScript's [undefined];
    - the object used as the map [assignments] is a [gmap string Z];
    - a thrown exception is the [Throw] case of [result]; the engine's
      methods return the outcome together with the engine afterwards, since
      a throw does not undo the mutations made before it;
    - [structuredClone] is the identity on values: a snapshot is a deep
      copy, so it shares no structure with the live assignment that
      [assignColor] updates in place, and the embedding can be pure. *)

From Stdlib Require Import ZArith String Lia.
From stdpp Require Import base gmap strings list fin_maps sorting.

Local Open Scope string_scope.

(** ** JavaScript outcomes *)

Inductive exn : Type :=
  | TypeError
  | Error (msg : string).

Inductive result (A : Type) : Type :=
  | Ok (a : A)
  | Throw (e : exn).
Arguments Ok {A} a.
Arguments Throw {A} e.

#[global] Instance result_ret : MRet result := λ A a, Ok a.
#[global] Instance result_bind : MBind result := λ A B k r,
  match r with
  | Ok a => k a
  | Throw e => Throw e
  end.

(** [a.slice(0, e)]: a negative [e] counts from the end of the array. *)
Definition slice0 {A : Type} (a : list A) (e : Z) : list A :=
  if (e <? 0)%Z then take (length a - Z.to_nat (- e)) a
  else take (Z.to_nat e) a.

(** [x || d] on an optional number: [undefined] and [0] are falsy. *)
Definition or_default (x : option Z) (d : Z) : Z :=
  match x with
  | Some 0%Z | None => d
  | Some v => v
  end.

(** ** Data model (contracts/types.js) *)

Module Node.
Record t : Type := Build { id : string }.
End Node.

Module Edge.
Record t : Type := Build { source : string; target : string }.
End Edge.

(** [Array<Array<number>>]. *)
Abbreviation AdjacencyMatrix := (list (list Z)).

(** The graph handed to [loadGraph]; [adjacency] may be absent. *)
Record GraphInput : Type := {
  in_nodes : list Node.t;
  in_edges : list Edge.t;
  in_adjacency : option AdjacencyMatrix
}.

(** The graph after [_preprocessGraph], as the algorithms read it. *)
Record Graph : Type := {
  nodes : list Node.t;
  edges : list Edge.t;
  adjacency : AdjacencyMatrix
}.

(** A palette entry: a literal color string, or the template string
    [hsl(${hue}, 70%, 50%)] with [hue = (i * (360 / numColors)) % 360],
    kept as the pair [(i, numColors)] that determines it. *)
Inductive Color : Type :=
  | Hex (code : string)
  | Hsl (i : Z) (numColors : Z).

Record Metadata : Type := {
  md_algorithm : string;
  vertexOrder : list string;
  degreeDistribution : list Z
}.

Record ColorAssignment : Type := {
  assignments : gmap string Z;
  palette : list Color;
  chromatic : Z;
  valid : bool;
  metadata : option Metadata
}.

Record Constraint : Type := {
  nodeId : string;
  colorIndex : option Z;
  forbidden : option (list Z)
}.

Record Options : Type := {
  algorithm : option string;
  maxColors : option Z;
  constraints : option (list Constraint)
}.

(** The set of distinct color indices of a mapping:
    [new Set(Object.values(assignments))]. *)
Definition usedColors (a : gmap string Z) : gset Z := map_img a.

(** ** TheoremEngine._buildAdjacencyMatrix *)

(** [new Map(nodes.map((node, i) => [node.id, i]))]: entries are inserted
    in order, so for a repeated identifier the last position wins. *)
Definition nodeIndexMap (ns : list Node.t) : gmap string nat :=
  foldl (λ m p, <[p.1 := p.2]> m) ∅ (imap (λ i nd, (Node.id nd, i)) ns).

(** [matrix[i][j] = 1]; both indices come out of [nodeIndexMap], hence are
    in range, where the list update agrees with the array assignment. *)
Definition set_cell (i j : nat) (m : AdjacencyMatrix) : AdjacencyMatrix :=
  alter (λ row, <[j := 1%Z]> row) i m.

Definition add_edge (idx : gmap string nat) (m : AdjacencyMatrix) (e : Edge.t)
  : AdjacencyMatrix :=
  match idx !! Edge.source e, idx !! Edge.target e with
  | Some i, Some j => set_cell j i (set_cell i j m)
  | _, _ => m
  end.

Definition _buildAdjacencyMatrix (ns : list Node.t) (es : list Edge.t)
  : AdjacencyMatrix :=
  let n := length ns in
  let matrix := replicate n (replicate n 0%Z) in
  foldl (add_edge (nodeIndexMap ns)) matrix es.

Definition _preprocessGraph (g : GraphInput) : Graph :=
  {| nodes := in_nodes g;
     edges := in_edges g;
     adjacency := match in_adjacency g with
                  | Some a => a
                  | None => _buildAdjacencyMatrix (in_nodes g) (in_edges g)
                  end |}.

(** The AdjacencyModel invariant of the data model: a square matrix over the
    node positions, symmetric in its entries. *)
Definition dims (n : nat) (m : AdjacencyMatrix) : Prop :=
  length m = n ∧ Forall (λ row, length row = n) m.

Definition square (g : Graph) : Prop :=
  dims (length (nodes g)) (adjacency g).

Definition entry (a : AdjacencyMatrix) (i j : nat) : option Z :=
  match a !! i with
  | Some row => row !! j
  | None => None
  end.

Definition adjacent (a : AdjacencyMatrix) (i j : nat) : Prop :=
  entry a i j = Some 1%Z.

Definition symmetric (a : AdjacencyMatrix) : Prop :=
  ∀ i j, entry a i j = entry a j i.

(** ** TheoremEngine.validateColoring, on a loaded graph *)

(** One test of the inner loop body, for the pair of positions [(i, j)]. *)
Definition conflict (ns : list Node.t) (row : list Z) (a : gmap string Z)
    (i j : nat) : bool :=
  bool_decide (row !! j = Some 1%Z) &&
  match ns !! i, ns !! j with
  | Some node1, Some node2 =>
      bool_decide (a !! Node.id node1 = a !! Node.id node2) &&
      bool_decide (a !! Node.id node1 ≠ None)
  | _, _ => false
  end.

(** The outer loop from position [i] on, [fuel] iterations. The row
    [adjacency[i]] is only read when the inner loop runs at least once. *)
Fixpoint validate_from (ns : list Node.t) (adj : AdjacencyMatrix)
    (a : gmap string Z) (i fuel : nat) : result bool :=
  match fuel with
  | O => Ok true
  | S fuel' =>
      let js := seq (S i) (length ns - S i) in
      match js with
      | [] => validate_from ns adj a (S i) fuel'
      | _ :: _ =>
          match adj !! i with
          | None => Throw TypeError
          | Some row =>
              if existsb (conflict ns row a i) js then Ok false
              else validate_from ns adj a (S i) fuel'
          end
      end
  end.

Definition validate (g : Graph) (c : ColorAssignment) : result bool :=
  validate_from (nodes g) (adjacency g) (assignments c) 0 (length (nodes g)).

(** ** The coloring heuristics (algorithms/greedy.js, welsh-powell.js,
    dsatur.js) *)

(** [nodes.findIndex(node => node.id === id)]; [-1] when there is none. *)
Fixpoint findIndex_from (ns : list Node.t) (x : string) (i : Z) : Z :=
  match ns with
  | [] => (-1)%Z
  | nd :: rest =>
      if bool_decide (Node.id nd = x) then i
      else findIndex_from rest x (i + 1)%Z
  end.

Definition findIndex (ns : list Node.t) (x : string) : Z :=
  findIndex_from ns x 0%Z.

(** The body of [constraints.forEach(...)]. *)
Definition apply_constraint (ns : list Node.t) (colors : list Z)
    (c : Constraint) : list Z :=
  let nodeIndex := findIndex ns (nodeId c) in
  match colorIndex c with
  | Some ci =>
      if bool_decide (nodeIndex ≠ (-1)%Z)
      then <[Z.to_nat nodeIndex := ci]> colors
      else colors
  | None => colors
  end.

Definition apply_constraints (ns : list Node.t) (cs : list Constraint)
    (colors : list Z) : list Z :=
  foldl (apply_constraint ns) colors cs.

(** The Set filled by the first loop of [_getAvailableColors] and of
    [_getSaturationDegree], for a row [adjacency[vertex]] that exists:
    positions [i < adjacency.length] with [row[i] === 1] and
    [colors[i] !== -1] contribute [colors[i]] ([None] when [colors[i]] is
    [undefined]). *)
Definition neighborColors (row : list Z) (colors : list Z) (n : nat)
  : gset (option Z) :=
  list_to_set
    ((λ i, colors !! i) <$>
     filter (λ i, row !! i = Some 1%Z ∧ colors !! i ≠ Some (-1)%Z) (seq 0 n)).

(** Reading [adjacency[vertex][i]] for each [i < adjacency.length]: a
    missing row throws as soon as the loop runs once. *)
Definition row_of (adj : AdjacencyMatrix) (vertex : nat)
  : result (list Z) :=
  match adj !! vertex with
  | Some row => Ok row
  | None => if bool_decide (length adj = 0) then Ok [] else Throw TypeError
  end.

(** [for (color = 0; color < maxColors; color++)]. *)
Definition color_range (maxColors : Z) : list Z :=
  Z.of_nat <$> seq 0 (Z.to_nat maxColors).

(** [_getAvailableColors(vertex, colors, adjacency, maxColors)]; the three
    classes carry the same body. *)
Definition _getAvailableColors (vertex : nat) (colors : list Z)
    (adj : AdjacencyMatrix) (maxColors : Z) : result (list Z) :=
  row ← row_of adj vertex;
  let usedColors := neighborColors row colors (length adj) in
  Ok (filter (λ color, Some color ∉ usedColors) (color_range maxColors)).

(** What a coloring loop hands to the output conversion: the color array,
    or the early return taken when a vertex has no available color. *)
Inductive loop_exit : Type :=
  | Exhausted
  | Finished (colors : list Z).

(** The loop "Convert to output format": the mapping and [maxColorUsed]. *)
Definition output_step (ns : list Node.t) (colors : list Z)
    (acc : gmap string Z * Z) (i : nat) : gmap string Z * Z :=
  match colors !! i, ns !! i with
  | Some c, Some nd =>
      if bool_decide (c ≠ (-1)%Z)
      then (<[Node.id nd := c]> acc.1, Z.max acc.2 c)
      else acc
  | _, _ => acc
  end.

Definition to_output (ns : list Node.t) (colors : list Z)
  : gmap string Z * Z :=
  foldl (output_step ns colors) (∅, (-1)%Z) (seq 0 (length ns)).

(** [adjacency[i].reduce((sum, val) => sum + val, 0)]. *)
Definition degree_of (adj : AdjacencyMatrix) (i : nat) : result Z :=
  match adj !! i with
  | Some row => Ok (foldl Z.add 0%Z row)
  | None => Throw TypeError
  end.

Fixpoint degrees_from (adj : AdjacencyMatrix) (idxs : list nat)
  : result (list Z) :=
  match idxs with
  | [] => Ok []
  | i :: rest =>
      d ← degree_of adj i;
      ds ← degrees_from adj rest;
      Ok (d :: ds)
  end.

(** A loop "for each vertex of [order]: if uncolored, give it its first
    available color, or return the invalid assignment". *)
Fixpoint color_in_order (adj : AdjacencyMatrix) (maxColors : Z)
    (order : list nat) (colors : list Z) : result loop_exit :=
  match order with
  | [] => Ok (Finished colors)
  | i :: rest =>
      if bool_decide (colors !! i = Some (-1)%Z) then
        availableColors ← _getAvailableColors i colors adj maxColors;
        match availableColors with
        | [] => Ok Exhausted
        | c :: _ => color_in_order adj maxColors rest (<[i := c]> colors)
        end
      else color_in_order adj maxColors rest colors
  end.

Definition baseColors : list Color :=
  [Hex "#E63946"; Hex "#457B9D"; Hex "#F1C40F"; Hex "#27AE60"].

Definition invalid_result (pal : list Color) : ColorAssignment :=
  {| assignments := ∅; palette := pal; chromatic := 0; valid := false;
     metadata := None |}.

Module GreedyAlgorithm.

Definition _generatePalette (numColors : Z) : list Color :=
  slice0 baseColors (Z.min numColors 4).

Definition compute (graph : Graph) (options : Options)
  : result ColorAssignment :=
  let ns := nodes graph in
  let n := length ns in
  let maxColors := or_default (maxColors options) 4 in
  let colors := replicate n (-1)%Z in
  let colors :=
    match constraints options with
    | Some cs => apply_constraints ns cs colors
    | None => colors
    end in
  out ← color_in_order (adjacency graph) maxColors (seq 0 n) colors;
  match out with
  | Exhausted => Ok (invalid_result (_generatePalette maxColors))
  | Finished colors =>
      let '(assignments, maxColorUsed) := to_output ns colors in
      Ok {| assignments := assignments;
            palette := _generatePalette (maxColorUsed + 1);
            chromatic := maxColorUsed + 1;
            valid := true;
            metadata := None |}
  end.

End GreedyAlgorithm.

Module WelshPowellAlgorithm.

(** Red Cross / emergency mapping colors. *)
Definition emergencyColors : list Color :=
  [Hex "#DC143C"; Hex "#4169E1"; Hex "#FFD700"; Hex "#228B22"].

Definition _generatePalette (numColors : Z) : list Color :=
  slice0 emergencyColors (Z.min numColors 4).

(** [degrees.sort((a, b) => b.degree - a.degree)]: descending by degree;
    [Array.prototype.sort] is stable, so entries of equal degree keep
    their input order. Entries are pairs [(index, degree)]. *)
Fixpoint insert_desc (x : nat * Z) (l : list (nat * Z)) : list (nat * Z) :=
  match l with
  | [] => [x]
  | y :: l' =>
      if (y.2 >? x.2)%Z then y :: insert_desc x l' else x :: y :: l'
  end.

Definition sort_desc (l : list (nat * Z)) : list (nat * Z) :=
  foldr insert_desc [] l.

Definition compute (graph : Graph) (options : Options)
  : result ColorAssignment :=
  let ns := nodes graph in
  let n := length ns in
  let maxColors := or_default (maxColors options) 4 in
  ds ← degrees_from (adjacency graph) (seq 0 n);
  let degrees := sort_desc (zip (seq 0 n) ds) in
  let colors := replicate n (-1)%Z in
  let colors :=
    match constraints options with
    | Some cs => apply_constraints ns cs colors
    | None => colors
    end in
  out ← color_in_order (adjacency graph) maxColors (fst <$> degrees) colors;
  match out with
  | Exhausted => Ok (invalid_result (_generatePalette maxColors))
  | Finished colors =>
      let '(assignments, maxColorUsed) := to_output ns colors in
      Ok {| assignments := assignments;
            palette := _generatePalette (maxColorUsed + 1);
            chromatic := maxColorUsed + 1;
            valid := true;
            metadata := Some
              {| md_algorithm := "Welsh-Powell";
                 vertexOrder :=
                   omap (λ d, Node.id <$> ns !! d.1) degrees;
                 degreeDistribution := snd <$> degrees |} |}
  end.

End WelshPowellAlgorithm.

Module DSATURAlgorithm.

Definition _getSaturationDegree (vertex : nat) (colors : list Z)
    (adj : AdjacencyMatrix) : result Z :=
  row ← row_of adj vertex;
  Ok (Z.of_nat (size (neighborColors row colors (length adj)))).

(** The three variables of the selection loop. *)
Record Selection : Type := {
  maxSat : Z;
  maxDeg : Z;
  chosenVertex : Z
}.

(** One iteration of the selection loop, for position [i]. The array
    [degree] has one entry per node, so [degree[i]] is defined. *)
Definition select_step (adj : AdjacencyMatrix) (colors degree : list Z)
    (best : Selection) (i : nat) : result Selection :=
  if bool_decide (colors !! i = Some (-1)%Z) then
    sat ← _getSaturationDegree i colors adj;
    match degree !! i with
    | Some d =>
        if ((sat >? maxSat best) ||
            ((sat =? maxSat best) && (d >? maxDeg best)))%Z
        then Ok {| maxSat := sat; maxDeg := d; chosenVertex := Z.of_nat i |}
        else Ok best
    | None => Ok best
    end
  else Ok best.

Fixpoint select_from (adj : AdjacencyMatrix) (colors degree : list Z)
    (idxs : list nat) (best : Selection) : result Selection :=
  match idxs with
  | [] => Ok best
  | i :: rest =>
      best' ← select_step adj colors degree best i;
      select_from adj colors degree rest best'
  end.

Definition select (adj : AdjacencyMatrix) (colors degree : list Z)
    (n : nat) : result Selection :=
  select_from adj colors degree (seq 0 n)
    {| maxSat := -1; maxDeg := -1; chosenVertex := -1 |}.

(** What one iteration of [while (colored < n)] does. *)
Inductive step_outcome : Type :=
  | Break
  | NoColor
  | Colored (vertex : nat) (color : Z) (colors' : list Z).

Definition step (adj : AdjacencyMatrix) (maxColors : Z) (degree : list Z)
    (n : nat) (colors : list Z) : result step_outcome :=
  best ← select adj colors degree n;
  if bool_decide (chosenVertex best = (-1)%Z) then Ok Break
  else
    let v := Z.to_nat (chosenVertex best) in
    availableColors ← _getAvailableColors v colors adj maxColors;
    match availableColors with
    | [] => Ok NoColor
    | c :: _ => Ok (Colored v c (<[v := c]> colors))
    end.

(** [while (colored < n) { ...; colored++ }]: [remaining] is
    [n - colored], which each completed iteration lowers by one, so the
    loop runs while it is positive. *)
Fixpoint color_loop (adj : AdjacencyMatrix) (maxColors : Z)
    (degree : list Z) (n : nat) (remaining : nat) (colors : list Z)
  : result loop_exit :=
  match remaining with
  | O => Ok (Finished colors)
  | S remaining' =>
      o ← step adj maxColors degree n colors;
      match o with
      | Break => Ok (Finished colors)
      | NoColor => Ok Exhausted
      | Colored _ _ colors' =>
          color_loop adj maxColors degree n remaining' colors'
      end
  end.

(** [constraints.filter(c => c.colorIndex !== undefined).length], the
    initial value of [colored]. *)
Definition initial_colored (constraints : list Constraint) : Z :=
  Z.of_nat (length (filter (λ c, colorIndex c ≠ None) constraints)).

Definition _generatePalette (numColors : Z) : list Color :=
  if (numColors <=? 4)%Z then slice0 baseColors numColors
  else
    (baseColors ++
     ((λ i, Hsl i numColors) <$>
      ((λ k, 4 + Z.of_nat k)%Z <$> seq 0 (Z.to_nat (numColors - 4)))))%list.

Definition compute (graph : Graph) (options : Options)
  : result ColorAssignment :=
  let ns := nodes graph in
  let n := length ns in
  let maxColors := or_default (maxColors options) 4 in
  let constraints := default [] (constraints options) in
  let colors := apply_constraints ns constraints (replicate n (-1)%Z) in
  degree ← degrees_from (adjacency graph) (seq 0 n);
  let colored := initial_colored constraints in
  out ← color_loop (adjacency graph) maxColors degree n
          (Z.to_nat (Z.of_nat n - colored)) colors;
  match out with
  | Exhausted => Ok (invalid_result (_generatePalette maxColors))
  | Finished colors =>
      let '(assignments, maxColorUsed) := to_output ns colors in
      Ok {| assignments := assignments;
            palette := _generatePalette (maxColorUsed + 1);
            chromatic := maxColorUsed + 1;
            valid := true;
            metadata := None |}
  end.

End DSATURAlgorithm.

(** ** HistoryManager (history.js) *)

(** [a[i]] for a number [i] that may be negative. *)
Definition js_get {A : Type} (a : list A) (i : Z) : option A :=
  if (i <? 0)%Z then None else a !! Z.to_nat i.

Module HistoryManager.

Record t (A : Type) : Type := Build {
  maxSteps : Z;
  stack : list A;
  index : Z
}.
Arguments Build {A} _ _ _.
Arguments maxSteps {A} _.
Arguments stack {A} _.
Arguments index {A} _.

(** [constructor(maxSteps = 50)]. *)
Definition create {A : Type} (maxSteps : option Z) : t A :=
  {| maxSteps := default 50%Z maxSteps; stack := []; index := -1 |}.

Definition push {A : Type} (h : t A) (state : A) : t A :=
  let stack1 := slice0 (stack h) (index h + 1) in
  let stack2 := (stack1 ++ [state])%list in
  let stack3 :=
    if (Z.of_nat (length stack2) >? maxSteps h)%Z then drop 1 stack2
    else stack2 in
  {| maxSteps := maxSteps h;
     stack := stack3;
     index := Z.of_nat (length stack3) - 1 |}.

(** [undo()] and [redo()]: the returned value ([None] for [null] or
    [undefined]) and the manager afterwards. *)
Definition undo {A : Type} (h : t A) : option A * t A :=
  if (index h <=? 0)%Z then (None, h)
  else
    let i := (index h - 1)%Z in
    (js_get (stack h) i,
     {| maxSteps := maxSteps h; stack := stack h; index := i |}).

Definition redo {A : Type} (h : t A) : option A * t A :=
  if (index h >=? Z.of_nat (length (stack h)) - 1)%Z then (None, h)
  else
    let i := (index h + 1)%Z in
    (js_get (stack h) i,
     {| maxSteps := maxSteps h; stack := stack h; index := i |}).

(** The states a manager can be in: the cursor is [-1] on an empty stack
    and a position of the stack otherwise, and the stack holds at most
    [maxSteps] snapshots. *)
Definition wf {A : Type} (h : t A) : Prop :=
  (-1 ≤ index h < Z.of_nat (length (stack h)))%Z ∧
  (Z.of_nat (length (stack h)) ≤ Z.max 0 (maxSteps h))%Z.

End HistoryManager.

(** ** StateManager (./state-manager.js, imported by the engine) *)

Module StateManager.

(** Modelled from the spec: the file state-manager.js is not among the
    sources. Section 4.4 describes the engine's history as a bounded
    linear stack with a cursor whose push truncates the redo branch,
    appends a deep copy and drops the oldest entry past the maximum; that
    is [HistoryManager.push] of history.js, which stands for it here. *)
Definition pushState {A : Type} (h : HistoryManager.t A) (state : A)
  : HistoryManager.t A :=
  HistoryManager.push h state.

(** Modelled from the spec: undo moves the cursor back one position and
    returns the snapshot there, or reports a no-op at position 0 or on an
    empty stack; that is [HistoryManager.undo]. *)
Definition undo {A : Type} (h : HistoryManager.t A)
  : option A * HistoryManager.t A :=
  HistoryManager.undo h.

(** Modelled from the spec: redo moves the cursor forward one position
    and returns that snapshot, or reports a no-op at the tail; that is
    [HistoryManager.redo]. *)
Definition redo {A : Type} (h : HistoryManager.t A)
  : option A * HistoryManager.t A :=
  HistoryManager.redo h.

(** Modelled from the spec: clearing the history leaves an empty stack,
    hence the cursor of a new manager. *)
Definition clear {A : Type} (h : HistoryManager.t A) : HistoryManager.t A :=
  {| HistoryManager.maxSteps := HistoryManager.maxSteps h;
     HistoryManager.stack := [];
     HistoryManager.index := -1 |}.

(** Modelled from the spec: [new StateManager(maxUndoSteps)] is an empty
    history of that capacity. *)
Definition create {A : Type} (maxUndoSteps : Z) : HistoryManager.t A :=
  HistoryManager.create (Some maxUndoSteps).

End StateManager.

(** ** TheoremEngine *)

(** The label of a snapshot, one constructor per template string:
    [`Auto-colored using ${name} algorithm`],
    [`Colored node ${nodeId} with color ${colorIndex}`] and
    ['Reset to uncolored state']. *)
Inductive Action : Type :=
  | AutoColored (name : string)
  | ColoredNode (nodeId : string) (colorIndex : Z)
  | ResetToUncolored.

Record StateSnapshot : Type := {
  coloring : ColorAssignment;
  timestamp : Z;
  action : Action
}.

Record Engine : Type := {
  maxUndoSteps : Z;
  stateManager : HistoryManager.t StateSnapshot;
  currentGraph : option Graph;
  currentColoring : option ColorAssignment
}.

Module TheoremEngine.

(** [constructor(options = {})], with [options.maxUndoSteps]. *)
Definition create (maxUndoSteps_opt : option Z) : Engine :=
  let m := or_default maxUndoSteps_opt 20 in
  {| maxUndoSteps := m;
     stateManager := StateManager.create m;
     currentGraph := None;
     currentColoring := None |}.

Definition _getDefaultPalette : list Color :=
  [Hex "#E63946"; Hex "#457B9D"; Hex "#F1C40F"; Hex "#27AE60"].

Definition loadGraph (e : Engine) (graph : GraphInput) : Engine :=
  {| maxUndoSteps := maxUndoSteps e;
     stateManager := StateManager.clear (stateManager e);
     currentGraph := Some (_preprocessGraph graph);
     currentColoring :=
       Some {| assignments := ∅; palette := []; chromatic := 0;
               valid := false; metadata := None |} |}.

(** [validateColoring(coloring = null)]. *)
Definition validateColoring (e : Engine)
    (coloring : option ColorAssignment) : result bool :=
  let toValidate :=
    match coloring with
    | Some c => Some c
    | None => currentColoring e
    end in
  match toValidate, currentGraph e with
  | Some c, Some g => validate g c
  | _, _ => Ok false
  end.

Definition with_coloring (e : Engine) (c : ColorAssignment) : Engine :=
  {| maxUndoSteps := maxUndoSteps e;
     stateManager := stateManager e;
     currentGraph := currentGraph e;
     currentColoring := Some c |}.

Definition with_history (e : Engine) (h : HistoryManager.t StateSnapshot)
  : Engine :=
  {| maxUndoSteps := maxUndoSteps e;
     stateManager := h;
     currentGraph := currentGraph e;
     currentColoring := currentColoring e |}.

(** [assignColor(nodeId, colorIndex)], with the value [now] that
    [Date.now()] returns. The current coloring is updated in place before
    [validateColoring()] runs, so a throw of the validator leaves the
    update behind and pushes nothing. *)
Definition assignColor (e : Engine) (nodeId : string) (colorIndex : Z)
    (now : Z) : result () * Engine :=
  let cur :=
    match currentColoring e with
    | Some c => c
    | None => {| assignments := ∅; palette := _getDefaultPalette;
                 chromatic := 0; valid := false; metadata := None |}
    end in
  let assignments' := <[nodeId := colorIndex]> (assignments cur) in
  let cur1 :=
    {| assignments := assignments';
       palette := palette cur;
       chromatic := Z.of_nat (size (usedColors assignments'));
       valid := valid cur;
       metadata := metadata cur |} in
  let e1 := with_coloring e cur1 in
  match validateColoring e1 None with
  | Throw x => (Throw x, e1)
  | Ok v =>
      let cur2 :=
        {| assignments := assignments cur1;
           palette := palette cur1;
           chromatic := chromatic cur1;
           valid := v;
           metadata := metadata cur1 |} in
      let e2 := with_coloring e1 cur2 in
      (Ok (),
       with_history e2
         (StateManager.pushState (stateManager e2)
            {| coloring := cur2; timestamp := now;
               action := ColoredNode nodeId colorIndex |}))
  end.

(** [undo()] and [redo()]: the returned assignment ([None] for [null])
    and the engine afterwards. *)
Definition undo (e : Engine) : option ColorAssignment * Engine :=
  let '(previousState, h) := StateManager.undo (stateManager e) in
  match previousState with
  | Some s => (Some (coloring s), with_coloring (with_history e h) (coloring s))
  | None => (None, with_history e h)
  end.

Definition redo (e : Engine) : option ColorAssignment * Engine :=
  let '(nextState, h) := StateManager.redo (stateManager e) in
  match nextState with
  | Some s => (Some (coloring s), with_coloring (with_history e h) (coloring s))
  | None => (None, with_history e h)
  end.

Definition reset (e : Engine) (now : Z) : Engine :=
  let cur :=
    {| assignments := ∅; palette := _getDefaultPalette; chromatic := 0;
       valid := false; metadata := None |} in
  {| maxUndoSteps := maxUndoSteps e;
     stateManager :=
       StateManager.pushState (StateManager.clear (stateManager e))
         {| coloring := cur; timestamp := now;
            action := ResetToUncolored |};
     currentGraph := currentGraph e;
     currentColoring := Some cur |}.

(** [getNeighbors(nodeId)]. The row [adjacency[nodeIndex]] is read in a
    loop that runs at least once, since a node was found. *)
Definition getNeighbors (e : Engine) (nodeId : string)
  : result (list string) :=
  match currentGraph e with
  | None => Ok []
  | Some g =>
      let nodeIndex := findIndex (nodes g) nodeId in
      if bool_decide (nodeIndex = (-1)%Z) then Ok []
      else
        match adjacency g !! Z.to_nat nodeIndex with
        | None => Throw TypeError
        | Some row =>
            Ok (omap (λ i, if bool_decide (row !! i = Some 1%Z)
                           then Node.id <$> nodes g !! i else None)
                  (seq 0 (length (nodes g))))
        end
  end.

Section WithBacktracking.

(** [BacktrackingAlgorithm.compute] (./algorithms/backtracking.js) is
    not among the sources; the engine is taken over any such
    function. *)
Variable backtracking_compute : Graph → Options → result ColorAssignment.

(** [_selectAlgorithm(algorithmName)], as the [compute] it yields. *)
Definition _selectAlgorithm (algorithmName : option string)
  : Graph → Options → result ColorAssignment :=
  match algorithmName with
  | Some "dsatur" => DSATURAlgorithm.compute
  | Some "welsh-powell" => WelshPowellAlgorithm.compute
  | Some "backtracking" => backtracking_compute
  | _ => GreedyAlgorithm.compute
  end.

(** [options.algorithm || 'default']. *)
Definition algorithm_label (algorithmName : option string) : string :=
  match algorithmName with
  | None | Some "" => "default"
  | Some s => s
  end.

Definition computeColoring (e : Engine) (options : Options) (now : Z)
  : result ColorAssignment * Engine :=
  match currentGraph e with
  | None => (Throw (Error "No graph loaded"), e)
  | Some g =>
      match _selectAlgorithm (algorithm options) g options with
      | Throw x => (Throw x, e)
      | Ok c =>
          let e1 := with_coloring e c in
          (Ok c,
           with_history e1
             (StateManager.pushState (stateManager e1)
                {| coloring := c; timestamp := now;
                   action :=
                     AutoColored (algorithm_label (algorithm options)) |}))
      end
  end.

(** [getChromaticNumber()]: the loop [for (k = 1; k <= 4; k++)] over the
    values of [k] still to try, then [return 4]. *)
Fixpoint chromatic_search (g : Graph) (ks : list Z) : result Z :=
  match ks with
  | [] => Ok 4%Z
  | k :: rest =>
      r ← backtracking_compute g
             {| algorithm := None; maxColors := Some k; constraints := None |};
      if valid r then Ok k else chromatic_search g rest
  end.

Definition getChromaticNumber (e : Engine) : result Z :=
  match currentGraph e with
  | None => Ok 0%Z
  | Some g => chromatic_search g [1; 2; 3; 4]%Z
  end.

End WithBacktracking.

End TheoremEngine.

(** ** colorGraphGreedyBacktrack (coloring.js) *)

Module Coloring.

(** [adjacency[v][u]] used as a condition: a number other than 0;
    [undefined], for a position the row does not have, is falsy. The
    callers of this module only read rows [v < adjacency.length]. *)
Definition truthy (adjacency : AdjacencyMatrix) (v u : nat) : bool :=
  match adjacency !! v with
  | Some row =>
      match row !! u with
      | Some x => negb (x =? 0)%Z
      | None => false
      end
  | None => false
  end.

(** [degreeOf(adjacency, v)]. *)
Definition degreeOf (adjacency : AdjacencyMatrix) (v : nat) : Z :=
  foldl (λ d u, d + (if truthy adjacency v u then 1 else 0))%Z 0%Z
    (seq 0 (length adjacency)).

(** [vertexOrderByDegree(adjacency)]: the comparator [b.d - a.d] is the
    one of Welsh-Powell's sort. *)
Definition vertexOrderByDegree (adjacency : AdjacencyMatrix) : list nat :=
  let n := length adjacency in
  let degrees := zip (seq 0 n) (degreeOf adjacency <$> seq 0 n) in
  fst <$> WelshPowellAlgorithm.sort_desc degrees.

(** [isSafe(v, c)], on the current [colors]. *)
Definition isSafe (adjacency : AdjacencyMatrix) (colors : list Z)
    (v : nat) (c : Z) : bool :=
  forallb
    (λ u, negb (truthy adjacency v u && bool_decide (colors !! u = Some c)))
    (seq 0 (length adjacency)).

(** [used.indexOf(false)]. *)
Definition indexOf_false (used : list bool) : Z :=
  match list_find (λ b, b = false) used with
  | Some (i, _) => Z.of_nat i
  | None => (-1)%Z
  end.

(** The array [used] of [greedyPrefill] for vertex [v]. A write
    [used[c] = true] at an index outside [0 .. k-1] adds no [false]
    element, so it leaves [used.indexOf(false)] as it was. *)
Definition used_colors (adjacency : AdjacencyMatrix) (k : nat)
    (colors : list Z) (v : nat) : list bool :=
  foldl
    (λ used u,
       if truthy adjacency v u && bool_decide (colors !! u ≠ Some (-1)%Z)
       then
         match colors !! u with
         | Some cu => if (0 <=? cu)%Z then <[Z.to_nat cu := true]> used
                      else used
         | None => used
         end
       else used)
    (replicate k false) (seq 0 (length adjacency)).

(** The body of the loop of [greedyPrefill], for [v = order[i]]. *)
Definition prefill_step (adjacency : AdjacencyMatrix) (k : nat)
    (colors : list Z) (v : nat) : list Z :=
  let c := indexOf_false (used_colors adjacency k colors v) in
  <[v := if (c =? -1)%Z then (-1)%Z else c]> colors.

Definition greedyPrefill (adjacency : AdjacencyMatrix) (k : nat)
    (order : list nat) (colors : list Z) : list Z :=
  foldl (prefill_step adjacency k) colors order.

(** The loop [for (c = 0; c < k; c++)] of [backtrack(idx)] for
    [v = order[idx]], over the colors [cs] still to try; [next] is
    [backtrack(idx + 1)]. The answer comes with the array [colors] as
    the call leaves it. *)
Definition try_colors (next : list Z → bool * list Z)
    (adjacency : AdjacencyMatrix) (v : nat)
  : list Z → list Z → bool * list Z :=
  fix go (cs : list Z) (colors : list Z) : bool * list Z :=
    match cs with
    | [] => (false, colors)
    | c :: cs' =>
        if isSafe adjacency colors v c then
          let '(ok, colors1) := next (<[v := c]> colors) in
          if ok then (true, colors1)
          else go cs' (<[v := (-1)%Z]> colors1)
        else go cs' colors
    end.

(** [backtrack(idx)], on [rest = order[idx ..]]: [idx === n] when [rest]
    is empty. *)
Fixpoint backtrack (adjacency : AdjacencyMatrix) (k : nat)
    (rest : list nat) (colors : list Z) : bool * list Z :=
  match rest with
  | [] => (true, colors)
  | v :: rest' =>
      if bool_decide (colors !! v ≠ Some (-1)%Z)
      then backtrack adjacency k rest' colors
      else
        try_colors (backtrack adjacency k rest') adjacency v
          (color_range (Z.of_nat k)) colors
  end.

(** [for (i = 0; i < n; i++) if (colors[order[i]] === -1)
    { backtrack(i); break; }]. *)
Fixpoint backtrack_from_first_uncolored (adjacency : AdjacencyMatrix)
    (k : nat) (rest : list nat) (colors : list Z) : list Z :=
  match rest with
  | [] => colors
  | v :: rest' =>
      if bool_decide (colors !! v = Some (-1)%Z)
      then (backtrack adjacency k rest colors).2
      else backtrack_from_first_uncolored adjacency k rest' colors
  end.

(** "Replace any remaining -1 with 0 as fallback". *)
Definition fallback (colors : list Z) : list Z :=
  (λ c, if (c =? -1)%Z then 0%Z else c) <$> colors.

(** [colorGraphGreedyBacktrack(adjacency, k)], for a number of colors [k]
    that is an array length (the callers pass [palette.length]). *)
Definition colorGraphGreedyBacktrack (adjacency : AdjacencyMatrix) (k : nat)
  : list Z :=
  let n := length adjacency in
  let colors := replicate n (-1)%Z in
  let order := vertexOrderByDegree adjacency in
  let colors := greedyPrefill adjacency k order colors in
  let colors := backtrack_from_first_uncolored adjacency k order colors in
  fallback colors.

End Coloring.

(** ** The canvases (graph.js, regions.js): the matrix handed to
    colorGraphGreedyBacktrack, and the colors applied from its result *)

Module GraphCanvas.

(** The body of [for (const e of this.edges)]: [adj[u][v] = 1;
    adj[v][u] = 1], where [u], [v] are the positions of the endpoints
    [e.u], [e.v] (read here as [Edge.source], [Edge.target]). An endpoint
    that is not a node has position [undefined], and the write into
    [adj[undefined]] throws. *)
Definition add_edge (idToIndex : gmap string nat) (adj : AdjacencyMatrix)
    (e : Edge.t) : result AdjacencyMatrix :=
  match idToIndex !! Edge.source e, idToIndex !! Edge.target e with
  | Some u, Some v => Ok (set_cell v u (set_cell u v adj))
  | _, _ => Throw TypeError
  end.

Fixpoint add_edges (idToIndex : gmap string nat) (adj : AdjacencyMatrix)
    (es : list Edge.t) : result AdjacencyMatrix :=
  match es with
  | [] => Ok adj
  | e :: es' =>
      adj' ← add_edge idToIndex adj e;
      add_edges idToIndex adj' es'
  end.

(** [getAdjacency()]: the pair [{ adjacency, nodeOrder }]. *)
Definition getAdjacency (ns : list Node.t) (es : list Edge.t)
  : result (AdjacencyMatrix * list string) :=
  let n := length ns in
  adj ← add_edges (nodeIndexMap ns) (replicate n (replicate n 0%Z)) es;
  Ok (adj, Node.id <$> ns).

End GraphCanvas.

Module RegionsCanvas.

(** A feature [{ id, d, color, neighbors }]; [neighbors] is a [Set] of
    identifiers, read in insertion order. *)
Record Feature : Type := {
  id : string;
  neighbors : list string
}.

(** The bounding boxes [{ id, x, y, w, h }] that [computeAdjacencyApprox]
    reads off the rendered paths, one per feature and in the order of the
    features, so that [boxes[i].id] is [features[i].id]. The numbers are
    JavaScript doubles; the code only adds and compares them, so they are
    kept abstract with their sum [add] and their test [le] for [<=]. *)
Section Boxes.

Variable num : Type.
Variable add : num → num → num.
Variable le : num → num → bool.

(** [overlap(a, b)] on boxes [(x, y, w, h)]. *)
Definition overlap (a b : num * num * num * num) : bool :=
  let '(ax, ay, aw, ah) := a in
  let '(bx, b_y, bw, bh) := b in
  negb (le (add ax aw) bx || le (add bx bw) ax ||
        le (add ay ah) b_y || le (add b_y bh) ay).

(** [s.add(x)] on a Set kept in insertion order. *)
Definition set_add (x : string) (s : list string) : list string :=
  if bool_decide (x ∈ s) then s else (s ++ [x])%list.

(** [f.neighbors.add(x)] on the feature at position [i]. *)
Definition add_neighbor (fs : list Feature) (i : nat) (x : string)
  : list Feature :=
  alter (λ f, {| id := id f; neighbors := set_add x (neighbors f) |}) i fs.

(** The body of the inner loop for overlapping boxes [i] and [j]:
    [a] and [b] are the first features that carry the identifiers of the
    two boxes; a feature that is not found is [undefined], and reading its
    [neighbors] throws. *)
Definition link_pair (fs : list Feature) (i j : nat)
  : result (list Feature) :=
  match fs !! i, fs !! j with
  | Some fi, Some fj =>
      match list_find (λ f, id f = id fi) fs,
            list_find (λ f, id f = id fj) fs with
      | Some (ia, a), Some (ib, b) =>
          Ok (add_neighbor (add_neighbor fs ia (id b)) ib (id a))
      | _, _ => Throw TypeError
      end
  | _, _ => Throw TypeError
  end.

(** The pairs [(i, j)] with [i < j < n], in the order of the two loops. *)
Definition pairs (n : nat) : list (nat * nat) :=
  i ← seq 0 n; (λ j, (i, j)) <$> seq (S i) (n - S i).

Definition pair_step (boxes : list (num * num * num * num))
    (r : result (list Feature)) (p : nat * nat) : result (list Feature) :=
  fs ← r;
  match boxes !! p.1, boxes !! p.2 with
  | Some bi, Some bj => if overlap bi bj then link_pair fs p.1 p.2 else Ok fs
  | _, _ => Throw TypeError
  end.

(** [computeAdjacencyApprox()], from the boxes on: the features with
    their neighbor sets filled. *)
Definition computeAdjacencyApprox (features : list Feature)
    (boxes : list (num * num * num * num)) : result (list Feature) :=
  foldl (pair_step boxes) (Ok features) (pairs (length boxes)).

End Boxes.

(** The body of [for (const nId of f.neighbors)], for the position [i] of
    the feature ([None] for [undefined]):
    [if (i !== j) { adj[i][j] = 1; adj[j][i] = 1; }]. *)
Definition link (idToIndex : gmap string nat) (i : option nat)
    (adj : AdjacencyMatrix) (nId : string) : result AdjacencyMatrix :=
  let j := idToIndex !! nId in
  if bool_decide (i ≠ j) then
    match i, j with
    | Some i, Some j => Ok (set_cell j i (set_cell i j adj))
    | _, _ => Throw TypeError
    end
  else Ok adj.

Fixpoint link_all (idToIndex : gmap string nat) (i : option nat)
    (adj : AdjacencyMatrix) (nIds : list string) : result AdjacencyMatrix :=
  match nIds with
  | [] => Ok adj
  | nId :: rest =>
      adj' ← link idToIndex i adj nId;
      link_all idToIndex i adj' rest
  end.

Fixpoint link_features (idToIndex : gmap string nat) (adj : AdjacencyMatrix)
    (fs : list Feature) : result AdjacencyMatrix :=
  match fs with
  | [] => Ok adj
  | f :: rest =>
      adj' ← link_all idToIndex (idToIndex !! id f) adj (neighbors f);
      link_features idToIndex adj' rest
  end.

(** [getAdjacency()]: the pair [{ adjacency, ids }]. *)
Definition getAdjacency (features : list Feature)
  : result (AdjacencyMatrix * list string) :=
  let ids := id <$> features in
  let idToIndex := nodeIndexMap (Node.Build <$> ids) in
  let n := length ids in
  adj ← link_features idToIndex (replicate n (replicate n 0%Z)) features;
  Ok (adj, ids).

End RegionsCanvas.

(** [applyColorAssignment(assignment, palette)], the same body in both
    canvases: the color given to position [i],
    [palette[assignment[i] % palette.length]], with [None] for
    [undefined]. The remainder of [undefined] or by 0 is [NaN], and
    [palette[NaN]] is [undefined]. *)
Definition applied_color (assignment : list Z) (palette : list string)
    (i : nat) : option string :=
  match assignment !! i with
  | Some a =>
      if bool_decide (length palette = 0) then None
      else js_get palette (Z.rem a (Z.of_nat (length palette)))
  | None => None
  end.

Definition applyColorAssignment (n : nat) (assignment : list Z)
    (palette : list string) : list (option string) :=
  applied_color assignment palette <$> seq 0 n.

(** ** main.js: the auto-color buttons *)

Module Main.

(** [autoColorGraph()]: the colors that [applyColorAssignment] gives to
    the nodes, position by position. *)
Definition autoColorGraph (ns : list Node.t) (es : list Edge.t)
    (palette : list string) : result (list (option string)) :=
  r ← GraphCanvas.getAdjacency ns es;
  let assignment :=
    Coloring.colorGraphGreedyBacktrack r.1 (length palette) in
  Ok (applyColorAssignment (length ns) assignment palette).

(** [autoColorRegions()]; the matrix returned by [getAdjacency] is an
    array, hence truthy. *)
Definition autoColorRegions (features : list RegionsCanvas.Feature)
    (palette : list string) : result (list (option string)) :=
  r ← RegionsCanvas.getAdjacency features;
  let assignment :=
    Coloring.colorGraphGreedyBacktrack r.1 (length palette) in
  Ok (applyColorAssignment (length features) assignment palette).

End Main.

(** ** FourColorApp (the application class that follows
    colorGraphGreedyBacktrack in coloring.js): its own greedy coloring *)

Module FourColorApp.

(** [matrix[i][j] = true], for indices that come out of the index map. *)
Definition set_flag (i j : nat) (m : list (list bool)) : list (list bool) :=
  alter (λ row, <[j := true]> row) i m.

Definition add_edge (idx : gmap string nat) (m : list (list bool))
    (e : Edge.t) : list (list bool) :=
  match idx !! Edge.source e, idx !! Edge.target e with
  | Some i, Some j => set_flag j i (set_flag i j m)
  | _, _ => m
  end.

(** [buildAdjacencyMatrix()], on the nodes and edges of
    [this.currentGraph]; the index map is filled by [set] in node order,
    so the last position of an identifier wins. *)
Definition buildAdjacencyMatrix (ns : list Node.t) (es : list Edge.t)
  : list (list bool) :=
  let n := length ns in
  let matrix := replicate n (replicate n false) in
  foldl (add_edge (nodeIndexMap ns)) matrix es.

(** [adjacency[i][j]] used as a condition. *)
Definition flag (adjacency : list (list bool)) (i j : nat) : bool :=
  match adjacency !! i with
  | Some row => default false (row !! j)
  | None => false
  end.

(** The numbers in the Set [usedColors] built for position [i]. *)
Definition used_by_neighbors (adjacency : list (list bool)) (n : nat)
    (colors : list Z) (i : nat) : gset Z :=
  list_to_set
    (omap (λ j,
             if flag adjacency i j then
               match colors !! j with
               | Some c => if bool_decide (c ≠ (-1)%Z) then Some c else None
               | None => None
               end
             else None)
          (seq 0 n)).

(** [let color = 0; while (usedColors.has(color)) color++]: the loop
    leaves after at most as many increments as the Set has elements, which
    is the [fuel] given. *)
Fixpoint first_free (used : gset Z) (fuel : nat) (color : Z) : Z :=
  match fuel with
  | O => color
  | S fuel' =>
      if bool_decide (color ∈ used) then first_free used fuel' (color + 1)%Z
      else color
  end.

(** The body of the loop over [i]. *)
Definition color_step (adjacency : list (list bool)) (n : nat)
    (colors : list Z) (i : nat) : list Z :=
  let used := used_by_neighbors adjacency n colors i in
  <[i := first_free used (size used) 0%Z]> colors.

Definition greedyColoring (ns : list Node.t) (es : list Edge.t) : list Z :=
  let n := length ns in
  let adjacency := buildAdjacencyMatrix ns es in
  foldl (color_step adjacency n) (replicate n (-1)%Z) (seq 0 n).

End FourColorApp.

(** ** Vocabulary of the statements *)

Local Close Scope string_scope.

(** Positions [i] and [j] are adjacent and their nodes are both present in
    the mapping with the same color index. *)
Definition conflicting (g : Graph) (c : ColorAssignment) (i j : nat) : Prop :=
  adjacent (adjacency g) i j ∧
  ∃ node1 node2 col,
    nodes g !! i = Some node1 ∧ nodes g !! j = Some node2 ∧
    assignments c !! Node.id node1 = Some col ∧
    assignments c !! Node.id node2 = Some col.

(** At least one endpoint of the pair has no entry in the mapping. *)
Definition unassigned_endpoint (g : Graph) (c : ColorAssignment) (i j : nat)
  : Prop :=
  ∃ node1 node2,
    nodes g !! i = Some node1 ∧ nodes g !! j = Some node2 ∧
    (assignments c !! Node.id node1 = None ∨
     assignments c !! Node.id node2 = None).

(** The AdjacencyModel invariant: a square matrix over the node positions,
    symmetric in its entries. *)
Definition adjacency_model (g : Graph) : Prop :=
  square g ∧ symmetric (adjacency g).

(** A graph handed to [loadGraph] either leaves the matrix to the engine or
    supplies one that satisfies the invariant. *)
Definition supplied_matrix_ok (gi : GraphInput) : Prop :=
  match in_adjacency gi with
  | None => True
  | Some a => dims (length (in_nodes gi)) a ∧ symmetric a
  end.

(** The last [c] elements of a list, in order. *)
Definition last_n {A : Type} (c : nat) (l : list A) : list A :=
  drop (length l - c) l.

(** A call on a history manager, and a sequence of calls run from a given
    state (the values returned by [undo] and [redo] are dropped). *)
Inductive history_op (A : Type) : Type :=
  | OpPush (x : A)
  | OpUndo
  | OpRedo.
Arguments OpPush {A} x.
Arguments OpUndo {A}.
Arguments OpRedo {A}.

Definition history_apply {A : Type} (h : HistoryManager.t A)
    (op : history_op A) : HistoryManager.t A :=
  match op with
  | OpPush x => HistoryManager.push h x
  | OpUndo => (HistoryManager.undo h).2
  | OpRedo => (HistoryManager.redo h).2
  end.

Definition history_run {A : Type} (ops : list (history_op A))
    (h : HistoryManager.t A) : HistoryManager.t A :=
  foldl history_apply h ops.

(** No two distinct adjacent positions hold the same color, uncolored
    positions aside. *)
Definition proper (adj : AdjacencyMatrix) (colors : list Z) : Prop :=
  ∀ i j c, i ≠ j → adjacent adj i j →
    colors !! i = Some c → colors !! j = Some c → c = (-1)%Z.

(** Every color held by a position lies below [m]. *)
Definition within (m : Z) (colors : list Z) : Prop :=
  ∀ i c, colors !! i = Some c → c = (-1)%Z ∨ (0 ≤ c < m)%Z.

(** The number of positions adjacent to [v]. *)
Definition neighbor_count (adj : AdjacencyMatrix) (v : nat) : nat :=
  length (filter (λ i, entry adj v i = Some 1%Z) (seq 0 (length adj))).

(** The number of positions that hold no color. *)
Definition uncolored_count (colors : list Z) : nat :=
  length (filter (λ c, c = (-1)%Z) colors).

(** The color array an algorithm starts from: the constraints applied to
    an array of [-1]. *)
Definition initial_colors (g : Graph) (o : Options) : list Z :=
  apply_constraints (nodes g) (default [] (constraints o))
    (replicate (length (nodes g)) (-1)%Z).

(** [r] is what one of the three heuristics returns on [g] with [o]. *)
Definition heuristic_result (g : Graph) (o : Options) (r : ColorAssignment)
  : Prop :=
  GreedyAlgorithm.compute g o = Ok r ∨
  WelshPowellAlgorithm.compute g o = Ok r ∨
  DSATURAlgorithm.compute g o = Ok r.

(** The pair [a] comes before [b] in Welsh-Powell's order: by higher
    degree, then by lower position. *)
Definition degree_order (a b : nat * Z) : Prop :=
  (b.2 < a.2)%Z ∨ (a.2 = b.2 ∧ a.1 < b.1).

(** Some edge of [es] joins the identifiers [x] and [y], in either
    direction. *)
Definition joins (es : list Edge.t) (x y : string) : Prop :=
  ∃ e, e ∈ es ∧
    ((Edge.source e = x ∧ Edge.target e = y) ∨
     (Edge.source e = y ∧ Edge.target e = x)).

(** Some edge of [es] has its endpoints recorded at positions [i] and [j],
    in either direction. *)
Definition linked (idx : gmap string nat) (es : list Edge.t) (i j : nat)
  : Prop :=
  ∃ e, e ∈ es ∧
    ((idx !! Edge.source e = Some i ∧ idx !! Edge.target e = Some j) ∨
     (idx !! Edge.source e = Some j ∧ idx !! Edge.target e = Some i)).

(** Truthiness of the matrix does not depend on the direction. *)
Definition truthy_symmetric (adj : AdjacencyMatrix) : Prop :=
  ∀ i j, Coloring.truthy adj i j = Coloring.truthy adj j i.

(** No two distinct positions joined by a truthy entry hold the same
    color, uncolored positions aside. *)
Definition clash_free (adj : AdjacencyMatrix) (colors : list Z) : Prop :=
  ∀ i j c, i ≠ j → Coloring.truthy adj i j = true →
    colors !! i = Some c → colors !! j = Some c → c = (-1)%Z.

(** [f] gives every position of the matrix one of [k] colors, with no
    clash. *)
Definition k_coloring (adj : AdjacencyMatrix) (k : nat) (f : list Z)
  : Prop :=
  length f = length adj ∧
  (∀ i c, f !! i = Some c → (0 ≤ c < Z.of_nat k)%Z) ∧
  clash_free adj f.

(** [f] keeps every color that [colors] holds. *)
Definition extends (colors f : list Z) : Prop :=
  ∀ i c, colors !! i = Some c → c ≠ (-1)%Z → f !! i = Some c.

(** The array as [greedyPrefill] leaves it. *)
Definition prefilled (adj : AdjacencyMatrix) (k : nat) : list Z :=
  Coloring.greedyPrefill adj k (Coloring.vertexOrderByDegree adj)
    (replicate (length adj) (-1)%Z).

(** The states of the color array of [colorGraphGreedyBacktrack]: one entry
    per position, each [-1] or one of the [k] colors. *)
Definition array_inv (adj : AdjacencyMatrix) (k : nat) (colors : list Z)
  : Prop :=
  length colors = length adj ∧ within (Z.of_nat k) colors.

(** What a call [backtrack(idx)] on [rest = order[idx ..]] has done to the
    array [colors], given its answer and the array afterwards. *)
Definition backtrack_post (adj : AdjacencyMatrix) (k : nat)
    (rest : list nat) (colors : list Z) (out : bool * list Z) : Prop :=
  array_inv adj k out.2 ∧ extends colors out.2 ∧
  (∀ i, i ∉ rest → out.2 !! i = colors !! i) ∧
  (out.1 = false → out.2 = colors) ∧
  (out.1 = true → ∀ v, v ∈ rest → out.2 !! v ≠ Some (-1)%Z) ∧
  (truthy_symmetric adj → clash_free adj colors → clash_free adj out.2).

(** Every position of the matrix holds 0 against itself. *)
Definition zero_diagonal (adj : AdjacencyMatrix) : Prop :=
  ∀ i, i < length adj → entry adj i i = Some 0%Z.

(** The matrix of booleans that says where a matrix of numbers holds 1. *)
Definition ones (adj : AdjacencyMatrix) : list (list bool) :=
  (λ row : list Z, (λ x, bool_decide (x = 1%Z)) <$> row) <$> adj.

(** The history cursor is on a snapshot of the current assignment. *)
Definition synced (e : Engine) : Prop :=
  (0 ≤ HistoryManager.index (stateManager e))%Z ∧
  ∃ s,
    js_get (HistoryManager.stack (stateManager e))
           (HistoryManager.index (stateManager e)) = Some s ∧
    currentColoring e = Some (coloring s).

(** A loaded graph, if any, has one matrix row per node. *)
Definition rows_present (e : Engine) : Prop :=
  ∀ g, currentGraph e = Some g → length (adjacency g) = length (nodes g).

(** An outcome other than the engine's precondition failure. *)
Definition not_no_graph_loaded {A : Type} (r : result A) : Prop :=
  r ≠ Throw (Error "No graph loaded").

(** Only the implicit [TypeError] of a missing row can be thrown. *)
Definition only_TypeError {A : Type} (r : result A) : Prop :=
  ∀ x, r = Throw x → x = TypeError.

(** Color [c] is held by an already-colored neighbor of position [v]. *)
Definition used_by_neighbor (adj : AdjacencyMatrix) (colors : list Z)
    (v : nat) (c : Z) : Prop :=
  ∃ i, adjacent adj v i ∧ colors !! i = Some c ∧ c ≠ (-1)%Z.

(** [c] is the smallest color index below [maxColors] that no
    already-colored neighbor of [v] holds. *)
Definition smallest_available (adj : AdjacencyMatrix) (colors : list Z)
    (maxColors : Z) (v : nat) (c : Z) : Prop :=
  (0 ≤ c < maxColors)%Z ∧
  ¬ used_by_neighbor adj colors v c ∧
  ∀ c', (0 ≤ c' < c)%Z → used_by_neighbor adj colors v c'.

(** Every color index below [maxColors] is held by an already-colored
    neighbor of [v]. *)
Definition none_available (adj : AdjacencyMatrix) (colors : list Z)
    (maxColors : Z) (v : nat) : Prop :=
  ∀ c, (0 ≤ c < maxColors)%Z → used_by_neighbor adj colors v c.

(** The color array Greedy starts from, and the state of its loop once
    the first [k] positions have been processed. *)
Definition greedy_initial (g : Graph) (o : Options) : list Z :=
  let colors := replicate (length (nodes g)) (-1)%Z in
  match constraints o with
  | Some cs => apply_constraints (nodes g) cs colors
  | None => colors
  end.

Definition greedy_after (g : Graph) (o : Options) (k : nat)
  : result loop_exit :=
  color_in_order (adjacency g) (or_default (maxColors o) 4) (seq 0 k)
    (greedy_initial g o).

(** [s] is the saturation degree of [v]: the number of distinct colors
    held by its already-colored neighbors. *)
Definition saturation (adj : AdjacencyMatrix) (colors : list Z) (v : nat)
    (s : Z) : Prop :=
  ∃ cs : list Z,
    NoDup cs ∧ (∀ c, c ∈ cs ↔ used_by_neighbor adj colors v c) ∧
    s = Z.of_nat (length cs).

(** [v] is DSATUR's choice among the [n] positions: uncolored, of highest
    saturation degree, then of highest degree, then of lowest position. *)
Definition dsatur_choice (adj : AdjacencyMatrix) (colors degree : list Z)
    (n v : nat) : Prop :=
  v < n ∧ colors !! v = Some (-1)%Z ∧
  ∃ sv dv,
    saturation adj colors v sv ∧ degree !! v = Some dv ∧
    ∀ i si di,
      i < n → colors !! i = Some (-1)%Z →
      saturation adj colors i si → degree !! i = Some di →
      (si < sv)%Z ∨ (si = sv ∧ (di < dv)%Z) ∨ (si = sv ∧ di = dv ∧ v ≤ i).

(** What the selection loop of DSATUR has established once the positions
    below [k] have been visited. *)
Definition selection_inv (adj : AdjacencyMatrix) (colors degree : list Z)
    (k : nat) (best : DSATURAlgorithm.Selection) : Prop :=
  (DSATURAlgorithm.chosenVertex best = (-1)%Z ∧
   DSATURAlgorithm.maxSat best = (-1)%Z ∧
   ∀ i, i < k → colors !! i ≠ Some (-1)%Z) ∨
  (∃ v,
     DSATURAlgorithm.chosenVertex best = Z.of_nat v ∧ v < k ∧
     colors !! v = Some (-1)%Z ∧
     saturation adj colors v (DSATURAlgorithm.maxSat best) ∧
     degree !! v = Some (DSATURAlgorithm.maxDeg best) ∧
     ∀ i si di,
       i < k → colors !! i = Some (-1)%Z →
       saturation adj colors i si → degree !! i = Some di →
       (si < DSATURAlgorithm.maxSat best)%Z ∨
       (si = DSATURAlgorithm.maxSat best ∧
        (di < DSATURAlgorithm.maxDeg best)%Z) ∨
       (si = DSATURAlgorithm.maxSat best ∧
        di = DSATURAlgorithm.maxDeg best ∧ v ≤ i)).

(** The colors in use leave no gap: every index below a color held by
    some position is held by some position too. *)
Definition contiguous (colors : list Z) : Prop :=
  ∀ i c, colors !! i = Some c →
    c = (-1)%Z ∨
    ((0 ≤ c)%Z ∧ ∀ c', (0 ≤ c' < c)%Z → ∃ j, colors !! j = Some c').

(** [M] is [maxColorUsed] read off the mapping: the largest color index in
    it, and [-1] when there is none above. *)
Definition max_color (a : gmap string Z) (M : Z) : Prop :=
  (-1 ≤ M)%Z ∧
  (∀ x c, a !! x = Some c → (c ≤ M)%Z) ∧
  (M = (-1)%Z ∨ ∃ x, a !! x = Some M).

(** The hues [hsl(i * 360 / numColors)] for [i = 4 .. numColors - 1]. *)
Definition extra_hues (numColors : Z) : list Color :=
  (λ k, Hsl (4 + Z.of_nat k) numColors) <$> seq 0 (Z.to_nat (numColors - 4)).

(** ** Sample inputs *)

Definition graph_of (ids : list string) (es : list (string * string))
  : GraphInput :=
  {| in_nodes := Node.Build <$> ids;
     in_edges := (λ p, Edge.Build p.1 p.2) <$> es;
     in_adjacency := None |}.

(** Three mutually adjacent nodes. *)
Definition triangle : GraphInput :=
  graph_of ["a"; "b"; "c"]%string
           [("a", "b"); ("b", "c"); ("a", "c")]%string.

(** A single node with a self-loop. *)
Definition self_loop : GraphInput :=
  graph_of ["a"]%string [("a", "a")]%string.

(** A single isolated node. *)
Definition single_node : GraphInput := graph_of ["a"]%string [].

(** The complete graph on five nodes. *)
Definition K5 : GraphInput :=
  graph_of ["a"; "b"; "c"; "d"; "e"]%string
    [("a", "b"); ("a", "c"); ("a", "d"); ("a", "e"); ("b", "c");
     ("b", "d"); ("b", "e"); ("c", "d"); ("c", "e"); ("d", "e")]%string.

Definition no_options : Options :=
  {| algorithm := None; maxColors := None; constraints := None |}.

Definition pin (x : string) (c : Z) : Constraint :=
  {| nodeId := x; colorIndex := Some c; forbidden := None |}.

Definition coloring_of (l : list (string * Z)) : ColorAssignment :=
  {| assignments := list_to_map l; palette := TheoremEngine._getDefaultPalette;
     chromatic := Z.of_nat (size (usedColors (list_to_map l)));
     valid := false; metadata := None |}.

(** Options pinning a color on an identifier that no node carries. *)
Definition unknown_pin_options : Options :=
  {| algorithm := None; maxColors := None;
     constraints := Some [pin "zz" 0] |}.

(** Options pinning color 2 on node "a". *)
Definition pin_a_2_options : Options :=
  {| algorithm := None; maxColors := None;
     constraints := Some [pin "a" 2] |}.

(** Options allowing five colors. *)
Definition five_colors : Options :=
  {| algorithm := None; maxColors := Some 5%Z; constraints := None |}.

(** The complete graph on four nodes. *)
Definition K4 : GraphInput :=
  graph_of ["a"; "b"; "c"; "d"]%string
    [("a", "b"); ("a", "c"); ("a", "d"); ("b", "c"); ("b", "d");
     ("c", "d")]%string.

(** Options allowing three colors. *)
Definition three_colors : Options :=
  {| algorithm := None; maxColors := Some 3%Z; constraints := None |}.

(** The mapping, chromatic count and validity flag of a result. *)
Definition summary (r : result ColorAssignment)
  : option (list (string * Z) * Z * bool) :=
  match r with
  | Ok c => Some (map_to_list (assignments c), chromatic c, valid c)
  | Throw _ => None
  end.

(** The palette 'CB-Safe 4' of palette.js. *)
Definition cb_safe_4 : list string :=
  ["#1b9e77"; "#d95f02"; "#7570b3"; "#e7298a"]%string.

(** The triangle after [loadGraph] on a new engine. *)
Definition engine_with_triangle : Engine :=
  TheoremEngine.loadGraph (TheoremEngine.create None) triangle.

(** A stand-in for the absent backtracking search: it always throws. *)
Definition no_backtracking (g : Graph) (o : Options)
  : result ColorAssignment :=
  Throw TypeError.

(** Two regions that list each other as neighbors. *)
Definition two_regions : list RegionsCanvas.Feature :=
  [ {| RegionsCanvas.id := "x"; RegionsCanvas.neighbors := ["y"] |};
    {| RegionsCanvas.id := "y"; RegionsCanvas.neighbors := ["x"] |} ]%string.

(** Two regions as [loadRegionsFromGeoJSON] creates them, and bounding
    boxes for them that overlap. *)
Definition two_new_regions : list RegionsCanvas.Feature :=
  [ {| RegionsCanvas.id := "x"; RegionsCanvas.neighbors := [] |};
    {| RegionsCanvas.id := "y"; RegionsCanvas.neighbors := [] |} ]%string.

Definition two_boxes : list (Z * Z * Z * Z) :=
  [(0, 0, 10, 10); (5, 5, 10, 10)]%Z.

(** An engine with room for a single snapshot, after a reset. *)
Definition engine_capacity_one : Engine :=
  TheoremEngine.reset
    (TheoremEngine.loadGraph (TheoremEngine.create (Some 1%Z)) single_node) 0.

(** An engine of default capacity, after a reset. *)
Definition engine_after_reset : Engine :=
  TheoremEngine.reset
    (TheoremEngine.loadGraph (TheoremEngine.create None) triangle) 0.

(** * Properties *)

(** ** The adjacency matrix built on load *)

Section AdjacencyModel.

Lemma dims_row n (m : list (list Z)) i row :
  dims n m → m !! i = Some row → length row = n.
Proof.
  intros [_ Hrows] Hi. rewrite Forall_forall in Hrows.
  apply Hrows. by eapply list_elem_of_lookup_2.
Qed.

Lemma set_cell_dims n (m : list (list Z)) i j :
  dims n m → dims n (set_cell i j m).
Proof.
  intros [Hlen Hrows]. unfold set_cell. split.
  - by rewrite length_alter.
  - apply Forall_lookup. intros k row Hk.
    destruct (decide (k = i)) as [->|Hne].
    + rewrite list_lookup_alter_eq in Hk.
      destruct (m !! i) as [r|] eqn:Hr; simplify_eq/=.
      rewrite length_insert. by eapply (dims_row _ m).
    + rewrite list_lookup_alter_ne in Hk by done.
      by eapply (dims_row _ m).
Qed.

Lemma entry_set_cell n (m : list (list Z)) i j a b :
  dims n m → i < n → j < n →
  entry (set_cell i j m) a b =
    if decide (a = i ∧ b = j) then Some 1%Z else entry m a b.
Proof.
  intros Hd Hi Hj. unfold entry, set_cell.
  destruct (decide (a = i)) as [->|Hne].
  - rewrite list_lookup_alter_eq.
    destruct Hd as [Hlen Hrows].
    destruct (lookup_lt_is_Some_2 m i) as [row Hrow]; [lia|].
    rewrite Hrow. simpl.
    assert (length row = n) by (by eapply (dims_row _ m)).
    destruct (decide (b = j)) as [->|Hnb].
    + rewrite list_lookup_insert_eq by lia. by rewrite decide_True.
    + rewrite list_lookup_insert_ne by done.
      rewrite decide_False; [done|]. intros [_ ?]. done.
  - rewrite list_lookup_alter_ne by done.
    rewrite decide_False; [done|]. intros [? _]. done.
Qed.

Lemma add_edge_dims n idx (m : list (list Z)) e :
  dims n m → dims n (add_edge idx m e).
Proof.
  intros Hd. unfold add_edge.
  destruct (idx !! Edge.source e), (idx !! Edge.target e);
    auto using set_cell_dims.
Qed.

Lemma add_edge_symmetric n (idx : gmap string nat) (m : list (list Z)) e :
  (∀ x i, idx !! x = Some i → i < n) →
  dims n m → symmetric m → symmetric (add_edge idx m e).
Proof.
  intros Hidx Hd Hs. unfold add_edge.
  destruct (idx !! Edge.source e) as [i|] eqn:Hi; [|done].
  destruct (idx !! Edge.target e) as [j|] eqn:Hj; [|done].
  apply Hidx in Hi, Hj. intros a b.
  rewrite !(entry_set_cell n) by auto using set_cell_dims.
  repeat case_decide; try done; try lia; apply Hs.
Qed.

(** Every position recorded by [nodeIndexMap] is a position of a node
    carrying that identifier. *)
Lemma foldl_insert_lookup (l : list (string * nat)) (m0 : gmap string nat)
    x i :
  foldl (λ m p, <[p.1 := p.2]> m) m0 l !! x = Some i →
  (x, i) ∈ l ∨ m0 !! x = Some i.
Proof.
  revert m0. induction l as [|[k v] l IH]; intros m0 H; simpl in *.
  - by right.
  - destruct (IH _ H) as [Hin|Hm].
    + left. by right.
    + destruct (decide (k = x)) as [->|Hne].
      * rewrite lookup_insert_eq in Hm. simplify_eq. left. by left.
      * rewrite lookup_insert_ne in Hm by done. by right.
Qed.

Lemma nodeIndexMap_Some (ns : list Node.t) x i :
  nodeIndexMap ns !! x = Some i →
  ∃ nd, ns !! i = Some nd ∧ Node.id nd = x.
Proof.
  intros H. apply foldl_insert_lookup in H as [Hin|H]; [|done].
  apply elem_of_lookup_imap in Hin as (k & nd & Heq & Hk).
  simplify_eq. by exists nd.
Qed.

Lemma foldl_insert_None (l : list (string * nat)) (m0 : gmap string nat) x :
  foldl (λ m p, <[p.1 := p.2]> m) m0 l !! x = None ↔
  m0 !! x = None ∧ ∀ i, (x, i) ∉ l.
Proof.
  revert m0. induction l as [|[k v] l IH]; intros m0; simpl.
  - split; [|by intros [? _]]. intros ?. split; [done|].
    intros i. apply not_elem_of_nil.
  - rewrite IH. split.
    + intros [Hm Hl]. apply lookup_insert_None in Hm as [Hm Hne].
      split; [done|]. intros i Hin.
      apply elem_of_cons in Hin as [Heq|Hin]; [simplify_eq|].
      by apply (Hl i).
    + intros [Hm Hl]. split.
      * apply lookup_insert_None. split; [done|]. intros ->.
        apply (Hl v). by left.
      * intros i Hin. apply (Hl i). by right.
Qed.

(** An identifier is unknown to [nodeIndexMap] exactly when no node
    carries it. *)
Lemma nodeIndexMap_None (ns : list Node.t) x :
  nodeIndexMap ns !! x = None ↔ ∀ nd, nd ∈ ns → Node.id nd ≠ x.
Proof.
  unfold nodeIndexMap. rewrite foldl_insert_None. split.
  - intros [_ H] nd Hin Heq.
    apply list_elem_of_lookup in Hin as [i Hi].
    apply (H i). apply elem_of_lookup_imap. exists i, nd. by rewrite Heq.
  - intros H. split; [done|]. intros i Hin.
    apply elem_of_lookup_imap in Hin as (k & nd & Heq & Hk). simplify_eq.
    eapply H; [|done]. by eapply list_elem_of_lookup_2.
Qed.

Lemma replicate_dims n : dims n (replicate n (replicate n 0%Z)).
Proof.
  split; [by rewrite length_replicate|].
  apply Forall_forall. intros row Hin.
  apply elem_of_replicate in Hin as [-> _].
  by rewrite length_replicate.
Qed.

Lemma entry_replicate n i j :
  entry (replicate n (replicate n 0%Z)) i j =
    if decide (i < n ∧ j < n) then Some 0%Z else None.
Proof.
  unfold entry.
  destruct (replicate n (replicate n 0%Z) !! i) as [row|] eqn:E.
  - apply lookup_replicate in E as [-> Hi].
    destruct (replicate n 0%Z !! j) as [z|] eqn:E'.
    + apply lookup_replicate in E' as [-> Hj]. by rewrite decide_True.
    + apply lookup_replicate_None in E'. rewrite decide_False; [done|lia].
  - apply lookup_replicate_None in E. rewrite decide_False; [done|lia].
Qed.

Lemma replicate_symmetric n : symmetric (replicate n (replicate n 0%Z)).
Proof.
  intros i j. rewrite !entry_replicate.
  repeat case_decide; try done; lia.
Qed.

Lemma foldl_add_edge_inv n (idx : gmap string nat) es (m : list (list Z)) :
  (∀ x i, idx !! x = Some i → i < n) →
  dims n m → symmetric m →
  dims n (foldl (add_edge idx) m es) ∧
  symmetric (foldl (add_edge idx) m es).
Proof.
  intros Hidx. revert m. induction es as [|e es IH]; intros m Hd Hs; simpl.
  - done.
  - apply IH; eauto using add_edge_dims, add_edge_symmetric.
Qed.

(** For every node list and edge list, the matrix built on load is
    square with the dimension of the node list, and symmetric. *)
Lemma _buildAdjacencyMatrix_square_symmetric (ns : list Node.t)
    (es : list Edge.t) :
  dims (length ns) (_buildAdjacencyMatrix ns es) ∧
  symmetric (_buildAdjacencyMatrix ns es).
Proof.
  unfold _buildAdjacencyMatrix. apply foldl_add_edge_inv.
  - intros x i H. apply nodeIndexMap_Some in H as (nd & Hnd & _).
    by eapply lookup_lt_Some.
  - apply replicate_dims.
  - apply replicate_symmetric.
Qed.

(** An edge with an endpoint that no node carries changes nothing. *)
Lemma add_edge_unknown (ns : list Node.t) (m : list (list Z)) e :
  (∀ nd, nd ∈ ns → Node.id nd ≠ Edge.source e) ∨
  (∀ nd, nd ∈ ns → Node.id nd ≠ Edge.target e) →
  add_edge (nodeIndexMap ns) m e = m.
Proof.
  unfold add_edge. intros [H|H]; apply nodeIndexMap_None in H; rewrite H.
  - done.
  - by destruct (nodeIndexMap ns !! Edge.source e).
Qed.

(** C9. The matrix built on load does not keep its diagonal false: a
    self-loop on a known node sets [matrix[i][i]] to 1. *)
Theorem _buildAdjacencyMatrix_self_loop_sets_diagonal :
  _buildAdjacencyMatrix (in_nodes self_loop) (in_edges self_loop) = [[1%Z]] ∧
  adjacent (adjacency (_preprocessGraph self_loop)) 0 0.
Proof. split; reflexivity. Qed.

(** Every graph the engine loads satisfies the AdjacencyModel invariant,
    provided a matrix supplied by the caller does. *)
Lemma _preprocessGraph_adjacency_model (gi : GraphInput) :
  supplied_matrix_ok gi → adjacency_model (_preprocessGraph gi).
Proof.
  unfold supplied_matrix_ok, adjacency_model, square, _preprocessGraph.
  simpl. destruct (in_adjacency gi) as [a|]; [done|]. intros _.
  apply _buildAdjacencyMatrix_square_symmetric.
Qed.

End AdjacencyModel.

(** ** The validator *)

Section Validator.

Lemma conflict_true (g : Graph) (c : ColorAssignment) (row : list Z)
    (i j : nat) :
  adjacency g !! i = Some row →
  conflict (nodes g) row (assignments c) i j = true ↔ conflicting g c i j.
Proof.
  intros Hrow. unfold conflict, conflicting, adjacent, entry. rewrite Hrow.
  rewrite andb_true_iff, bool_decide_eq_true. split.
  - intros [Hadj Hc]. split; [done|].
    destruct (nodes g !! i) as [n1|]; [|done].
    destruct (nodes g !! j) as [n2|]; [|done].
    apply andb_true_iff in Hc as [Heq Hdef].
    apply bool_decide_eq_true in Heq, Hdef.
    destruct (assignments c !! Node.id n1) as [col|] eqn:E1; [|done].
    exists n1, n2, col. by rewrite <- Heq.
  - intros [Hadj (n1 & n2 & col & -> & -> & E1 & E2)]. split; [done|].
    rewrite E1, E2. by rewrite !bool_decide_eq_true_2.
Qed.

Lemma validate_from_spec (g : Graph) (c : ColorAssignment) (fuel i : nat) :
  length (nodes g) ≤ length (adjacency g) →
  ∃ b, validate_from (nodes g) (adjacency g) (assignments c) i fuel = Ok b ∧
       (b = false ↔
        ∃ i' j, i ≤ i' < i + fuel ∧ i' < j < length (nodes g) ∧
                conflicting g c i' j).
Proof.
  intros Hlen. revert i. induction fuel as [|fuel IH]; intros i;
    cbn [validate_from].
  { exists true. split; [done|]. split; [done|].
    intros (i' & j & ? & _). lia. }
  destruct (IH (S i)) as (b & Hb & Hiff).
  destruct (seq (S i) (length (nodes g) - S i)) as [|j0 js] eqn:Hseq.
  - exists b. split; [done|]. rewrite Hiff. split.
    + intros (i' & j & ? & ? & ?). exists i', j. split; [lia|done].
    + intros (i' & j & Hi & Hj & Hc).
      assert (length (nodes g) - S i = 0)
        by (apply (f_equal length) in Hseq; by rewrite length_seq in Hseq).
      exists i', j. split; [lia|done].
  - assert (i < length (adjacency g)) as Hi.
    { apply (f_equal length) in Hseq. rewrite length_seq in Hseq.
      simpl in Hseq. lia. }
    destruct (lookup_lt_is_Some_2 _ _ Hi) as [row Hrow]. rewrite Hrow.
    rewrite <- Hseq.
    destruct (existsb _ _) eqn:Hex.
    + exists false. split; [done|]. split; [|done]. intros _.
      apply existsb_exists in Hex as (j & Hin & Hc).
      apply list_elem_of_In, elem_of_seq in Hin.
      exists i, j. split; [lia|]. split; [lia|].
      by apply (conflict_true g c row).
    + exists b. split; [done|]. rewrite Hiff. split.
      * intros (i' & j & ? & ? & ?). exists i', j. split; [lia|done].
      * intros (i' & j & Hi' & Hj & Hc).
        destruct (decide (i' = i)) as [->|Hne].
        -- exfalso. apply (conflict_true g c row) in Hc; [|done].
           assert (existsb (conflict (nodes g) row (assignments c) i)
                     (seq (S i) (length (nodes g) - S i)) = true) as Ht.
           { apply existsb_exists. exists j. split; [|done].
             apply list_elem_of_In, elem_of_seq. lia. }
           congruence.
        -- exists i', j. split; [lia|done].
Qed.

(** The validator scans the pairs [i < j]: on a graph whose matrix has a
    row per node it returns, and returns false exactly when one of them
    is in conflict. *)
Lemma validate_upper_triangle (g : Graph) (c : ColorAssignment) :
  length (adjacency g) = length (nodes g) →
  ∃ b, validate g c = Ok b ∧
       (b = false ↔ ∃ i j, i < j ∧ conflicting g c i j).
Proof.
  intros Hlen.
  destruct (validate_from_spec g c (length (nodes g)) 0) as (b & Hb & Hiff);
    [lia|].
  exists b. split; [done|]. rewrite Hiff. split.
  - intros (i & j & _ & ? & ?). exists i, j. split; [lia|done].
  - intros (i & j & Hij & Hc). exists i, j.
    pose proof Hc as [Hadj (n1 & n2 & col & H1 & H2 & ?)].
    apply lookup_lt_Some in H1, H2.
    split; [lia|]. split; [lia|]. done.
Qed.

Lemma conflicting_sym (g : Graph) (c : ColorAssignment) (i j : nat) :
  symmetric (adjacency g) → conflicting g c i j → conflicting g c j i.
Proof.
  intros Hsym [Hadj (n1 & n2 & col & ? & ? & ? & ?)]. split.
  - unfold adjacent in *. by rewrite <- Hsym.
  - eauto 10.
Qed.

(** C1. For every graph the engine has loaded (its matrix built by the
    engine, or supplied and satisfying the AdjacencyModel invariant) and
    every assignment, the validator returns, and it returns false exactly
    when two distinct positions [i], [j] with [adjacency[i][j]] true carry
    nodes that are both mapped to the same color index; if every adjacent
    pair of distinct positions has an unassigned endpoint, it returns
    true. *)
Theorem validateColoring_false_iff_conflict
    (e : Engine) (gi : GraphInput) (c : ColorAssignment) :
  currentGraph e = Some (_preprocessGraph gi) →
  supplied_matrix_ok gi →
  let g := _preprocessGraph gi in
  ∃ b, TheoremEngine.validateColoring e (Some c) = Ok b ∧
       (b = false ↔ ∃ i j, i ≠ j ∧ conflicting g c i j) ∧
       ((∀ i j, i ≠ j → adjacent (adjacency g) i j →
                i < length (nodes g) → j < length (nodes g) →
                unassigned_endpoint g c i j) → b = true).
Proof.
  intros Hg Hok g.
  destruct (_preprocessGraph_adjacency_model gi Hok) as [[Hlen _] Hsym].
  fold g in Hg, Hlen, Hsym.
  unfold TheoremEngine.validateColoring. rewrite Hg.
  destruct (validate_upper_triangle g c Hlen) as (b & Hb & Hiff).
  exists b. split; [done|].
  assert (b = false ↔ ∃ i j, i ≠ j ∧ conflicting g c i j) as Hiff'.
  { rewrite Hiff. split.
    - intros (i & j & ? & ?). exists i, j. split; [lia|done].
    - intros (i & j & Hne & Hc).
      destruct (decide (i < j)); [by exists i, j|].
      exists j, i. split; [lia|]. by apply conflicting_sym. }
  split; [done|]. intros Hun.
  destruct b; [done|]. exfalso.
  destruct (proj1 Hiff' eq_refl) as (i & j & Hne & Hadj & Hc).
  destruct Hc as (n1 & n2 & col & H1 & H2 & A1 & A2).
  destruct (Hun i j Hne Hadj) as (m1 & m2 & M1 & M2 & Hnone).
  - by eapply lookup_lt_Some.
  - by eapply lookup_lt_Some.
  - rewrite H1 in M1. rewrite H2 in M2. simplify_eq.
    destruct Hnone; congruence.
Qed.

(** The triangle loaded into a new engine, with "a" and "b" both mapped
    to color 1. *)
Lemma validateColoring_false_iff_conflict_witness :
  ∃ b,
    TheoremEngine.validateColoring
      (TheoremEngine.loadGraph (TheoremEngine.create None) triangle)
      (Some (coloring_of [("a", 1%Z); ("b", 1%Z)]%string)) = Ok b ∧
    (b = false ↔
     ∃ i j, i ≠ j ∧
       conflicting (_preprocessGraph triangle)
         (coloring_of [("a", 1%Z); ("b", 1%Z)]%string) i j) ∧
    ((∀ i j, i ≠ j → adjacent (adjacency (_preprocessGraph triangle)) i j →
             i < length (nodes (_preprocessGraph triangle)) →
             j < length (nodes (_preprocessGraph triangle)) →
             unassigned_endpoint (_preprocessGraph triangle)
               (coloring_of [("a", 1%Z); ("b", 1%Z)]%string) i j) →
     b = true).
Proof.
  apply (validateColoring_false_iff_conflict
           (TheoremEngine.loadGraph (TheoremEngine.create None) triangle)
           triangle).
  - reflexivity.
  - exact I.
Defined.

End Validator.


(** ** The bounded history *)

Section History.

Context {A : Type}.
Implicit Types (h : HistoryManager.t A) (x : A) (xs : list A).

Import HistoryManager.

Lemma last_n_app_last_n (c : nat) (a b : list A) :
  last_n c (last_n c a ++ b) = last_n c (a ++ b).
Proof.
  unfold last_n. rewrite !drop_app, drop_drop, !length_app, !length_drop.
  f_equal; f_equal; lia.
Qed.

Lemma create_wf (m : option Z) : wf (create (A:=A) m).
Proof. unfold wf, create. simpl. lia. Qed.

Lemma push_spec h x :
  (-1 ≤ index h)%Z →
  let pre := take (Z.to_nat (index h + 1)) (stack h) in
  (Z.of_nat (length pre) ≤ Z.max 0 (maxSteps h))%Z →
  (1 ≤ maxSteps h)%Z →
  stack (push h x) = last_n (Z.to_nat (maxSteps h)) (pre ++ [x]) ∧
  index (push h x) = (Z.of_nat (length (stack (push h x))) - 1)%Z ∧
  maxSteps (push h x) = maxSteps h ∧
  (Z.of_nat (length (stack (push h x))) ≤ maxSteps h)%Z ∧
  0 < length (stack (push h x)).
Proof.
  intros Hidx pre Hpre Hc. unfold push, slice0, last_n. simpl.
  destruct (Z.ltb_spec (index h + 1) 0) as [?|_]; [lia|].
  fold pre. rewrite length_app. simpl.
  destruct (Z.gtb_spec (Z.of_nat (length pre + 1)) (maxSteps h)) as [Hgt|Hle].
  - assert (length pre + 1 - Z.to_nat (maxSteps h) = 1) as -> by lia.
    rewrite length_drop, length_app. simpl. repeat split; lia.
  - assert (length pre + 1 - Z.to_nat (maxSteps h) = 0) as -> by lia.
    rewrite drop_0, length_app. simpl. repeat split; lia.
Qed.

Lemma push_wf h x : (1 ≤ maxSteps h)%Z → wf h → wf (push h x).
Proof.
  intros Hc [Hidx Hlen].
  destruct (push_spec h x) as (_ & Hi & Hm & Hl & Hpos); [lia| |done|].
  - rewrite length_take. lia.
  - unfold wf. rewrite Hi, Hm. lia.
Qed.

Lemma undo_wf h : wf h → wf (undo h).2.
Proof.
  intros [Hidx Hlen]. unfold undo.
  destruct (Z.leb_spec (index h) 0); [done|]. unfold wf. simpl. lia.
Qed.

Lemma redo_wf h : wf h → wf (redo h).2.
Proof.
  intros [Hidx Hlen]. unfold redo.
  destruct (Z.geb_spec (index h) (Z.of_nat (length (stack h)) - 1)); [done|].
  unfold wf. simpl. lia.
Qed.

(** Pushing onto a manager whose cursor is at the tail. *)
Lemma foldl_push_at_tail xs h :
  (1 ≤ maxSteps h)%Z →
  index h = (Z.of_nat (length (stack h)) - 1)%Z →
  (Z.of_nat (length (stack h)) ≤ maxSteps h)%Z →
  let h' := foldl push h xs in
  stack h' = last_n (Z.to_nat (maxSteps h)) (stack h ++ xs) ∧
  index h' = (Z.of_nat (length (stack h')) - 1)%Z ∧
  maxSteps h' = maxSteps h.
Proof.
  revert h. induction xs as [|x xs IH]; intros h Hc Hidx Hlen; simpl.
  - rewrite app_nil_r. unfold last_n.
    assert (length (stack h) - Z.to_nat (maxSteps h) = 0) as -> by lia.
    by rewrite drop_0.
  - assert (take (Z.to_nat (index h + 1)) (stack h) = stack h) as Htake.
    { apply take_ge. lia. }
    destruct (push_spec h x) as (Hs & Hi & Hm & Hl & _); [lia| |done|].
    { rewrite Htake. lia. }
    rewrite Htake in Hs.
    destruct (IH (push h x)) as (Hs' & Hi' & Hm'); [lia|done|lia|].
    split; [|split].
    + rewrite Hs', Hm, Hs, last_n_app_last_n. by rewrite <- app_assoc.
    + exact Hi'.
    + by rewrite Hm'.
Qed.

(** After a push the cursor is on the snapshot just pushed. *)
Lemma push_cursor h x :
  (1 ≤ maxSteps h)%Z → (-1 ≤ index h)%Z →
  (0 ≤ index (push h x))%Z ∧
  js_get (stack (push h x)) (index (push h x)) = Some x.
Proof.
  intros Hc Hidx. unfold push, slice0. cbn [maxSteps stack index].
  destruct (Z.ltb_spec (index h + 1) 0) as [?|_]; [lia|].
  set (pre := take (Z.to_nat (index h + 1)) (stack h)).
  assert (length (pre ++ [x]) = length pre + 1) as Hlen
    by (rewrite length_app; simpl; lia).
  unfold js_get.
  destruct (Z.gtb_spec (Z.of_nat (length (pre ++ [x]))) (maxSteps h))
    as [Hgt|Hle].
  - rewrite length_drop, Hlen. split; [lia|].
    destruct (Z.ltb_spec (Z.of_nat (length pre + 1 - 1) - 1) 0) as [?|_];
      [lia|].
    rewrite lookup_drop, lookup_app_r by lia.
    replace (1 + Z.to_nat (Z.of_nat (length pre + 1 - 1) - 1) - length pre)
      with 0 by lia.
    done.
  - rewrite Hlen. split; [lia|].
    destruct (Z.ltb_spec (Z.of_nat (length pre + 1) - 1) 0) as [?|_]; [lia|].
    rewrite lookup_app_r by lia.
    replace (Z.to_nat (Z.of_nat (length pre + 1) - 1) - length pre)
      with 0 by lia.
    done.
Qed.

(** With room for two snapshots, undoing right after a push returns the
    snapshot the cursor was on before the push. *)
Lemma undo_push h x s :
  (2 ≤ maxSteps h)%Z →
  (0 ≤ index h)%Z →
  js_get (stack h) (index h) = Some s →
  ∃ h', undo (push h x) = (Some s, h').
Proof.
  intros Hc Hidx Hs. unfold js_get in Hs.
  destruct (Z.ltb_spec (index h) 0) as [?|_]; [lia|].
  pose proof (lookup_lt_Some _ _ _ Hs) as Hlt.
  set (pre := take (Z.to_nat (index h + 1)) (stack h)).
  assert (length pre = S (Z.to_nat (index h))) as Hpre.
  { unfold pre. rewrite length_take. lia. }
  assert (pre !! Z.to_nat (index h) = Some s) as Hlast.
  { unfold pre. rewrite lookup_take_lt by lia. done. }
  unfold undo, push, slice0. cbn [maxSteps stack index].
  destruct (Z.ltb_spec (index h + 1) 0) as [?|_]; [lia|]. fold pre.
  assert (length (pre ++ [x]) = Z.to_nat (index h) + 2) as Hlen2.
  { rewrite length_app, Hpre. simpl. lia. }
  destruct (Z.gtb_spec (Z.of_nat (length (pre ++ [x]))) (maxSteps h))
    as [Hgt|Hle].
  - rewrite length_drop, Hlen2.
    destruct (Z.leb_spec (Z.of_nat (Z.to_nat (index h) + 2 - 1) - 1) 0)
      as [?|_]; [lia|].
    eexists. f_equal. unfold js_get.
    destruct (Z.ltb_spec (Z.of_nat (Z.to_nat (index h) + 2 - 1) - 1 - 1) 0)
      as [?|_]; [lia|].
    rewrite lookup_drop, lookup_app_l by lia.
    rewrite <- Hlast. f_equal. lia.
  - rewrite Hlen2.
    destruct (Z.leb_spec (Z.of_nat (Z.to_nat (index h) + 2) - 1) 0)
      as [?|_]; [lia|].
    eexists. f_equal. unfold js_get.
    destruct (Z.ltb_spec (Z.of_nat (Z.to_nat (index h) + 2) - 1 - 1) 0)
      as [?|_]; [lia|].
    rewrite lookup_app_l by lia.
    rewrite <- Hlast. f_equal. lia.
Qed.

(** C6. A manager of capacity [c ≥ 1] that receives [k > c] pushes in a
    row holds exactly the last [c] of them, in push order (the [k - c]
    oldest and everything held before are gone), with its cursor at the
    last index. *)
Theorem push_beyond_capacity_keeps_last (c : Z) h xs :
  (1 ≤ c)%Z →
  maxSteps h = c →
  wf h →
  (c < Z.of_nat (length xs))%Z →
  let h' := foldl push h xs in
  stack h' = last_n (Z.to_nat c) xs ∧
  length (stack h') = Z.to_nat c ∧
  index h' = (Z.of_nat (length (stack h')) - 1)%Z ∧
  maxSteps h' = c.
Proof.
  intros Hc Hm [Hidx Hlen] Hk.
  destruct xs as [|x xs]; [simpl in Hk; lia|]. simpl.
  set (pre := take (Z.to_nat (index h + 1)) (stack h)).
  assert (Z.of_nat (length pre) ≤ Z.max 0 (maxSteps h))%Z as Hpre.
  { unfold pre. rewrite length_take. lia. }
  destruct (push_spec h x) as (Hs & Hi & Hm1 & Hl & _); [lia|done|lia|].
  fold pre in Hs.
  destruct (foldl_push_at_tail xs (push h x)) as (Hs' & Hi' & Hm');
    [lia|done|lia|].
  assert (stack (foldl push (push h x) xs) = last_n (Z.to_nat c) (x :: xs))
    as Hstack.
  { rewrite Hs', Hm1, Hs, Hm, last_n_app_last_n, <- app_assoc. simpl.
    unfold last_n. rewrite length_app.
    replace (length pre + length (x :: xs) - Z.to_nat c)
      with (length pre + (length (x :: xs) - Z.to_nat c))
      by (simpl in *; lia).
    by rewrite drop_app_add. }
  split; [done|]. split; [|split].
  - rewrite Hstack. unfold last_n. rewrite length_drop. simpl in *. lia.
  - exact Hi'.
  - by rewrite Hm', Hm1.
Qed.

End History.

(** Three pushes into a new manager of capacity 2. *)
Lemma push_beyond_capacity_keeps_last_witness :
  let h' := foldl HistoryManager.push (HistoryManager.create (Some 2%Z))
              [10; 20; 30] in
  HistoryManager.stack h' = last_n (Z.to_nat 2) [10; 20; 30] ∧
  length (HistoryManager.stack h') = Z.to_nat 2 ∧
  HistoryManager.index h'
    = (Z.of_nat (length (HistoryManager.stack h')) - 1)%Z ∧
  HistoryManager.maxSteps h' = 2%Z.
Proof.
  apply (push_beyond_capacity_keeps_last 2%Z
           (HistoryManager.create (Some 2%Z)) [10; 20; 30]).
  - lia.
  - reflexivity.
  - unfold HistoryManager.wf. simpl. lia.
  - simpl. lia.
Defined.

(** ** Manual assignment and undo *)

Section AssignUndo.

Import TheoremEngine.

Lemma validateColoring_returns (e : Engine) :
  rows_present e → ∃ b, validateColoring e None = Ok b.
Proof.
  intros Hrows. unfold validateColoring.
  destruct (currentColoring e) as [c|]; [|by exists false].
  destruct (currentGraph e) as [g|] eqn:Hg; [|by exists false].
  destruct (validate_upper_triangle g c (Hrows g Hg)) as (b & Hb & _).
  by exists b.
Qed.

(** C7, as stated, fails: with room for one snapshot only, the snapshot
    of the prior assignment is dropped by the push, [undo] reports a
    no-op and the engine keeps the edited assignment. *)
Lemma assignColor_undo_keeps_edit_at_capacity_one :
  let e := engine_capacity_one in
  let r := assignColor e "a" 0 1 in
  r.1 = Ok () ∧
  (undo r.2).1 = None ∧
  currentColoring (undo r.2).2 ≠ currentColoring e.
Proof.
  split; [reflexivity|]. split; [reflexivity|]. intros H.
  apply (f_equal (λ oc, c ← oc; assignments c !! "a"%string)) in H.
  vm_compute in H. discriminate.
Qed.

(** C7, amended. In every engine state whose history has room for at
    least two snapshots and whose cursor is on a snapshot of the current
    assignment (the loaded graph, if any, having a matrix row per node),
    [assignColor] followed by [undo] returns, and makes current, an
    assignment equal to the one that was current before the call. *)
Theorem assignColor_undo_restores
    (e : Engine) (c : ColorAssignment) (nodeId : string)
    (colorIndex now : Z) :
  currentColoring e = Some c →
  synced e →
  (2 ≤ HistoryManager.maxSteps (stateManager e))%Z →
  rows_present e →
  ∃ e1 e2,
    assignColor e nodeId colorIndex now = (Ok (), e1) ∧
    undo e1 = (Some c, e2) ∧
    currentColoring e2 = Some c.
Proof.
  intros Hc (Hidx & s & Hs & Hcs) Hcap Hrows.
  rewrite Hc in Hcs. injection Hcs as Hcs.
  unfold assignColor. rewrite Hc.
  set (cur1 := {| assignments := <[nodeId:=colorIndex]> (assignments c);
                  palette := palette c;
                  chromatic := _; valid := valid c;
                  metadata := metadata c |}).
  destruct (validateColoring_returns (with_coloring e cur1)) as [b Hb];
    [exact Hrows|].
  rewrite Hb.
  destruct (undo_push (stateManager e)
              {| coloring :=
                   {| assignments := assignments cur1;
                      palette := palette cur1;
                      chromatic := chromatic cur1;
                      valid := b; metadata := metadata cur1 |};
                 timestamp := now;
                 action := ColoredNode nodeId colorIndex |} s)
    as [h' Hu]; [done..|].
  eexists _, _. split; [reflexivity|].
  unfold undo, StateManager.undo, StateManager.pushState.
  cbn [stateManager with_history with_coloring].
  rewrite Hu. subst c. split; reflexivity.
Qed.

Lemma reset_synced (e : Engine) (now : Z) :
  (1 ≤ HistoryManager.maxSteps (stateManager e))%Z → synced (reset e now).
Proof.
  intros Hcap. unfold synced, reset, StateManager.pushState,
    StateManager.clear, HistoryManager.push, slice0, js_get. simpl.
  destruct (Z.gtb_spec (Z.of_nat 1)
              (HistoryManager.maxSteps (stateManager e))); [lia|].
  simpl. split; [lia|]. eexists. split; reflexivity.
Qed.

(** A completed [assignColor] leaves the cursor on a snapshot of the new
    current assignment, so the round trip applies to the next edit too. *)
Lemma assignColor_synced (e e1 : Engine) (nodeId : string)
    (colorIndex now : Z) :
  (1 ≤ HistoryManager.maxSteps (stateManager e))%Z →
  (-1 ≤ HistoryManager.index (stateManager e))%Z →
  assignColor e nodeId colorIndex now = (Ok (), e1) →
  synced e1.
Proof.
  intros Hcap Hidx. unfold assignColor.
  destruct (validateColoring _ None) as [b|x]; [|done].
  intros [= <-]. unfold synced, StateManager.pushState.
  cbn [stateManager with_history with_coloring currentColoring].
  match goal with
  | |- context [HistoryManager.push ?h ?s] =>
      destruct (push_cursor h s Hcap Hidx) as [Hpos Hget]
  end.
  split; [done|]. eexists. split; [exact Hget|done].
Qed.

(** Right after [loadGraph] the history is empty: the first edit has no
    snapshot to return to, and [undo] reports a no-op. *)
Lemma undo_after_first_edit_is_noop :
  let e := loadGraph (create None) single_node in
  let r := assignColor e "a" 0 1 in
  r.1 = Ok () ∧ (undo r.2).1 = None.
Proof. split; reflexivity. Qed.

(** Coloring node "a" of the triangle after a reset, then undoing. *)
Lemma assignColor_undo_restores_witness :
  ∃ e1 e2,
    assignColor engine_after_reset "a" 0 1 = (Ok (), e1) ∧
    undo e1 =
      (Some {| assignments := ∅; palette := _getDefaultPalette;
               chromatic := 0; valid := false; metadata := None |}, e2) ∧
    currentColoring e2 =
      Some {| assignments := ∅; palette := _getDefaultPalette;
              chromatic := 0; valid := false; metadata := None |}.
Proof.
  apply (assignColor_undo_restores engine_after_reset).
  - reflexivity.
  - split; [simpl; lia|]. eexists. split; reflexivity.
  - simpl. lia.
  - intros g Hg. injection Hg as <-. reflexivity.
Defined.

End AssignUndo.


(** ** What the heuristics can throw *)

Create HintDb throws discriminated.

Section Throws.

Lemma only_TypeError_Ok {A : Type} (a : A) : only_TypeError (Ok a).
Proof. intros x H. discriminate. Qed.

Lemma only_TypeError_Throw {A : Type} : only_TypeError (Throw (A:=A) TypeError).
Proof. intros x H. by injection H as <-. Qed.

Lemma only_TypeError_bind {A B : Type} (r : result A) (k : A → result B) :
  only_TypeError r → (∀ a, only_TypeError (k a)) → only_TypeError (r ≫= k).
Proof.
  intros Hr Hk x. destruct r as [a|y]; simpl.
  - apply Hk.
  - intros H. injection H as <-. by apply Hr.
Qed.

#[local] Hint Resolve only_TypeError_Ok only_TypeError_Throw : throws.

(** Goes through a sequence of binds, leaving what the hints do not
    settle. *)
Ltac throws_step :=
  first
    [ apply only_TypeError_bind; [auto with throws|intros ?]
    | progress auto with throws ].

Lemma row_of_throws adj v : only_TypeError (row_of adj v).
Proof.
  unfold row_of. destruct (adj !! v); [auto with throws|].
  case_bool_decide; auto with throws.
Qed.

#[local] Hint Resolve row_of_throws : throws.

Lemma _getAvailableColors_throws v colors adj m :
  only_TypeError (_getAvailableColors v colors adj m).
Proof. unfold _getAvailableColors. repeat throws_step. Qed.

#[local] Hint Resolve _getAvailableColors_throws : throws.

Lemma color_in_order_throws adj m order colors :
  only_TypeError (color_in_order adj m order colors).
Proof.
  revert colors. induction order as [|i rest IH]; intros colors; simpl.
  - auto with throws.
  - case_bool_decide; [|apply IH]. throws_step.
    destruct a; auto with throws.
Qed.

Lemma degree_of_throws adj i : only_TypeError (degree_of adj i).
Proof. unfold degree_of. destruct (adj !! i); auto with throws. Qed.

#[local] Hint Resolve degree_of_throws : throws.

Lemma degrees_from_throws adj idxs : only_TypeError (degrees_from adj idxs).
Proof.
  induction idxs as [|i rest IH]; simpl; [auto with throws|].
  throws_step. apply only_TypeError_bind; [apply IH|]. auto with throws.
Qed.

#[local] Hint Resolve color_in_order_throws degrees_from_throws : throws.

Lemma GreedyAlgorithm_compute_throws g o :
  only_TypeError (GreedyAlgorithm.compute g o).
Proof.
  unfold GreedyAlgorithm.compute. throws_step.
  destruct a as [|colors]; [auto with throws|].
  destruct (to_output _ _). auto with throws.
Qed.

Lemma WelshPowellAlgorithm_compute_throws g o :
  only_TypeError (WelshPowellAlgorithm.compute g o).
Proof.
  unfold WelshPowellAlgorithm.compute. do 2 throws_step.
  destruct a0 as [|colors]; [auto with throws|].
  destruct (to_output _ _). auto with throws.
Qed.

Lemma _getSaturationDegree_throws v colors adj :
  only_TypeError (DSATURAlgorithm._getSaturationDegree v colors adj).
Proof. unfold DSATURAlgorithm._getSaturationDegree. repeat throws_step. Qed.

#[local] Hint Resolve _getSaturationDegree_throws : throws.

Lemma select_step_throws adj colors degree best i :
  only_TypeError (DSATURAlgorithm.select_step adj colors degree best i).
Proof.
  unfold DSATURAlgorithm.select_step.
  case_bool_decide; [|auto with throws]. throws_step.
  destruct (degree !! i); [|auto with throws].
  destruct (_ || _); auto with throws.
Qed.

#[local] Hint Resolve select_step_throws : throws.

Lemma select_from_throws adj colors degree idxs best :
  only_TypeError (DSATURAlgorithm.select_from adj colors degree idxs best).
Proof.
  revert best. induction idxs as [|i rest IH]; intros best; simpl.
  - auto with throws.
  - throws_step. apply IH.
Qed.

Lemma step_throws adj m degree n colors :
  only_TypeError (DSATURAlgorithm.step adj m degree n colors).
Proof.
  unfold DSATURAlgorithm.step, DSATURAlgorithm.select.
  apply only_TypeError_bind; [apply select_from_throws|]. intros best.
  case_bool_decide; [auto with throws|]. throws_step.
  destruct a; auto with throws.
Qed.

#[local] Hint Resolve step_throws : throws.

Lemma color_loop_throws adj m degree n remaining colors :
  only_TypeError (DSATURAlgorithm.color_loop adj m degree n remaining colors).
Proof.
  revert colors. induction remaining as [|k IH]; intros colors; simpl.
  - auto with throws.
  - throws_step. destruct a; [auto with throws..|apply IH].
Qed.

#[local] Hint Resolve color_loop_throws : throws.

Lemma DSATURAlgorithm_compute_throws g o :
  only_TypeError (DSATURAlgorithm.compute g o).
Proof.
  unfold DSATURAlgorithm.compute. do 2 throws_step.
  destruct a0 as [|colors]; [auto with throws|].
  destruct (to_output _ _). auto with throws.
Qed.

End Throws.

(** ** computeColoring and its precondition *)

Section ComputeColoring.

Variable backtracking_compute : Graph → Options → result ColorAssignment.

(** The absent BacktrackingAlgorithm does not raise the engine's own
    precondition failure. *)
Hypothesis backtracking_not_precondition :
  ∀ g o, not_no_graph_loaded (backtracking_compute g o).

Lemma _selectAlgorithm_not_precondition name g o :
  not_no_graph_loaded
    (TheoremEngine._selectAlgorithm backtracking_compute name g o).
Proof.
  assert (∀ r : result ColorAssignment,
            only_TypeError r → not_no_graph_loaded r) as Hty.
  { intros r Hr H. apply Hr in H. discriminate. }
  unfold TheoremEngine._selectAlgorithm.
  repeat (case_match;
          try apply backtracking_not_precondition;
          try (apply Hty, GreedyAlgorithm_compute_throws);
          try (apply Hty, WelshPowellAlgorithm_compute_throws);
          try (apply Hty, DSATURAlgorithm_compute_throws)).
Qed.

(** C8. With no graph loaded, [computeColoring] throws the error
    "No graph loaded" and leaves the engine (current coloring and history
    included) as it was; with a graph loaded, it never ends in that
    error. *)
Theorem computeColoring_no_graph_loaded (e : Engine) (o : Options) (now : Z) :
  (currentGraph e = None →
   TheoremEngine.computeColoring backtracking_compute e o now
     = (Throw (Error "No graph loaded"), e)) ∧
  (∀ g, currentGraph e = Some g →
   not_no_graph_loaded
     (TheoremEngine.computeColoring backtracking_compute e o now).1).
Proof.
  unfold TheoremEngine.computeColoring. split.
  - by intros ->.
  - intros g ->.
    pose proof (_selectAlgorithm_not_precondition (algorithm o) g o) as H.
    destruct (TheoremEngine._selectAlgorithm _ _ g o) as [c|x]; simpl.
    + discriminate.
    + exact H.
Qed.

End ComputeColoring.

(** A new engine, with an absent backtracking that only ever throws a
    [TypeError]. *)
Lemma computeColoring_no_graph_loaded_witness :
  (currentGraph (TheoremEngine.create None) = None →
   TheoremEngine.computeColoring (λ _ _, Throw TypeError)
     (TheoremEngine.create None) no_options 0
     = (Throw (Error "No graph loaded"), TheoremEngine.create None)) ∧
  (∀ g, currentGraph (TheoremEngine.create None) = Some g →
   not_no_graph_loaded
     (TheoremEngine.computeColoring (λ _ _, Throw TypeError)
        (TheoremEngine.create None) no_options 0).1).
Proof.
  apply (computeColoring_no_graph_loaded (λ _ _, Throw TypeError)).
  intros g o. unfold not_no_graph_loaded. discriminate.
Defined.


(** ** DSATUR and constraints that name no node *)

Section UnknownConstraint.

(** C10. On the single-node graph with one constraint that fixes a color
    for an identifier no node carries, the constraint is not applied (the
    color array stays uncolored), yet it is counted: [colored] starts at
    the node count, the loop has no iteration to run, and DSATUR returns an
    assignment flagged valid whose mapping omits the node. Without the
    constraint the node is colored. *)
Theorem DSATUR_counts_unapplied_constraint :
  let g := _preprocessGraph single_node in
  (∀ nd, nd ∈ nodes g → Node.id nd ≠ "zz"%string) ∧
  colorIndex (pin "zz" 0) ≠ None ∧
  apply_constraints (nodes g) [pin "zz" 0] (replicate (length (nodes g)) (-1)%Z)
    = replicate (length (nodes g)) (-1)%Z ∧
  DSATURAlgorithm.initial_colored [pin "zz" 0] = Z.of_nat (length (nodes g)) ∧
  (∃ r, DSATURAlgorithm.compute g unknown_pin_options = Ok r ∧
        valid r = true ∧
        ∃ nd, nd ∈ nodes g ∧ assignments r !! Node.id nd = None) ∧
  (∃ r, DSATURAlgorithm.compute g no_options = Ok r ∧
        valid r = true ∧
        ∀ nd, nd ∈ nodes g → is_Some (assignments r !! Node.id nd)).
Proof.
  intros g. split; [|split; [|split; [|split; [|split]]]].
  - intros nd Hin. apply list_elem_of_singleton in Hin as ->. discriminate.
  - discriminate.
  - reflexivity.
  - reflexivity.
  - eexists. split; [reflexivity|]. split; [reflexivity|].
    exists (Node.Build "a"). split; [by left|]. reflexivity.
  - eexists. split; [reflexivity|]. split; [reflexivity|].
    intros nd Hin. apply list_elem_of_singleton in Hin as ->.
    by eexists.
Qed.

Lemma findIndex_from_unknown (ns : list Node.t) (x : string) (i : Z) :
  (∀ nd, nd ∈ ns → Node.id nd ≠ x) → findIndex_from ns x i = (-1)%Z.
Proof.
  revert i. induction ns as [|nd ns IH]; intros i Hx; simpl; [done|].
  rewrite bool_decide_eq_false_2 by (apply Hx; by left).
  apply IH. intros nd' Hin. apply Hx. by right.
Qed.

Lemma apply_constraints_unknown (ns : list Node.t) (cs : list Constraint)
    (colors : list Z) :
  (∀ c nd, c ∈ cs → nd ∈ ns → Node.id nd ≠ nodeId c) →
  apply_constraints ns cs colors = colors.
Proof.
  unfold apply_constraints. induction cs as [|c cs IH]; intros Hx; simpl;
    [done|].
  assert (apply_constraint ns colors c = colors) as ->.
  { unfold apply_constraint, findIndex.
    rewrite findIndex_from_unknown by (intros nd; apply Hx; by left).
    by destruct (colorIndex c). }
  apply IH. intros c' nd Hc'. apply Hx. by right.
Qed.

Lemma degrees_from_returns (adj : list (list Z)) (idxs : list nat) :
  (∀ i, i ∈ idxs → i < length adj) → ∃ ds, degrees_from adj idxs = Ok ds.
Proof.
  induction idxs as [|i rest IH]; intros Hin; simpl; [by eexists|].
  unfold degree_of at 1.
  destruct (lookup_lt_is_Some_2 adj i) as [row ->]; [apply Hin; by left|].
  simpl. destruct IH as [ds ->]; [intros j Hj; apply Hin; by right|].
  simpl. by eexists.
Qed.

Lemma to_output_uncolored (ns : list Node.t) (n : nat) :
  to_output ns (replicate n (-1)%Z) = (∅, (-1)%Z).
Proof.
  unfold to_output. generalize (length ns). intros k.
  induction k as [|k IH]; [done|].
  rewrite seq_S, foldl_app, IH. simpl. unfold output_step.
  destruct (replicate n (-1)%Z !! k) as [c|] eqn:Hc; [|done].
  apply lookup_replicate in Hc as [-> _].
  by destruct (ns !! k).
Qed.

(** The same on every graph with a row per node: constraints that all name
    unknown identifiers and fix at least as many colors as there are nodes
    make DSATUR return the empty mapping flagged valid. *)
Lemma DSATUR_unapplied_constraints_color_nothing (g : Graph) (o : Options)
    (cs : list Constraint) :
  length (adjacency g) = length (nodes g) →
  constraints o = Some cs →
  (∀ c nd, c ∈ cs → nd ∈ nodes g → Node.id nd ≠ nodeId c) →
  (Z.of_nat (length (nodes g)) ≤ DSATURAlgorithm.initial_colored cs)%Z →
  ∃ r, DSATURAlgorithm.compute g o = Ok r ∧
       valid r = true ∧ assignments r = ∅.
Proof.
  intros Hrows Hcs Hunknown Hcount. unfold DSATURAlgorithm.compute.
  rewrite Hcs. simpl. rewrite apply_constraints_unknown by done.
  destruct (degrees_from_returns (adjacency g) (seq 0 (length (nodes g))))
    as [ds ->].
  { intros i Hi. apply elem_of_seq in Hi. lia. }
  simpl.
  replace (Z.to_nat (Z.of_nat (length (nodes g))
                     - DSATURAlgorithm.initial_colored cs)) with 0 by lia.
  simpl. rewrite to_output_uncolored. by eexists.
Qed.

End UnknownConstraint.

(** ** The chromatic field *)

Section Chromatic.

(** C2. A pinned color leaves a gap below it: Greedy on the single node
    "a" pinned to color 2 reports [chromatic = 3] for a mapping that uses
    one color. *)
Theorem GreedyAlgorithm_chromatic_counts_gap :
  ∃ r, GreedyAlgorithm.compute (_preprocessGraph single_node) pin_a_2_options
         = Ok r ∧
       valid r = true ∧
       assignments r = {[ "a"%string := 2%Z ]} ∧
       chromatic r = 3%Z ∧
       size (usedColors (assignments r)) = 1.
Proof.
  eexists. split; [reflexivity|]. split; [reflexivity|].
  split; [reflexivity|]. split; [reflexivity|]. by vm_compute.
Qed.

(** [assignColor] recounts the distinct color indices of the mapping. *)
Lemma assignColor_chromatic (e e1 : Engine) (nodeId : string)
    (colorIndex now : Z) (r : result ()) :
  TheoremEngine.assignColor e nodeId colorIndex now = (r, e1) →
  ∃ c, currentColoring e1 = Some c ∧
       chromatic c = Z.of_nat (size (usedColors (assignments c))).
Proof.
  unfold TheoremEngine.assignColor. intros H.
  destruct (TheoremEngine.validateColoring _ None) as [b|x];
    injection H as <- <-; eexists; split; reflexivity.
Qed.

End Chromatic.


(** ** Available colors *)

Section AvailableColors.

Lemma neighborColors_Some (row colors : list Z) (n : nat) (c : Z) :
  length row ≤ n →
  Some c ∈ neighborColors row colors n ↔
  ∃ i, row !! i = Some 1%Z ∧ colors !! i = Some c ∧ c ≠ (-1)%Z.
Proof.
  intros Hlen. unfold neighborColors.
  rewrite elem_of_list_to_set, list_elem_of_fmap. split.
  - intros (i & Hc & Hi). apply list_elem_of_filter in Hi as [[Hr Hne] _].
    exists i. split; [done|]. split; [done|]. congruence.
  - intros (i & Hr & Hc & Hne). exists i. split; [done|].
    apply list_elem_of_filter. split.
    + split; [done|]. rewrite Hc. congruence.
    + apply elem_of_seq. apply lookup_lt_Some in Hr. lia.
Qed.

Lemma neighborColors_used (adj : list (list Z)) (colors row : list Z)
    (v : nat) (c : Z) :
  adj !! v = Some row → length row ≤ length adj →
  Some c ∈ neighborColors row colors (length adj) ↔
  used_by_neighbor adj colors v c.
Proof.
  intros Hrow Hlen. rewrite neighborColors_Some by done.
  unfold used_by_neighbor, adjacent, entry. by rewrite Hrow.
Qed.

(** The first element of an ascending scan filtered by [P]. *)
Lemma filter_color_range (P : Z → Prop) `{∀ c, Decision (P c)} (m : Z) :
  (filter P (color_range m) = [] → ∀ c, (0 ≤ c < m)%Z → ¬ P c) ∧
  (∀ c rest, filter P (color_range m) = c :: rest →
     (0 ≤ c < m)%Z ∧ P c ∧ ∀ c', (0 ≤ c' < c)%Z → ¬ P c').
Proof.
  unfold color_range.
  assert (∀ k : nat,
    (filter P (Z.of_nat <$> seq 0 k) = [] →
       ∀ c, (0 ≤ c < Z.of_nat k)%Z → ¬ P c) ∧
    (∀ c rest, filter P (Z.of_nat <$> seq 0 k) = c :: rest →
       (0 ≤ c < Z.of_nat k)%Z ∧ P c ∧ ∀ c', (0 ≤ c' < c)%Z → ¬ P c')) as Hk.
  { induction k as [|k [IH1 IH2]].
    - split; [intros _ c ?; lia|]. intros c rest Hf. discriminate.
    - rewrite seq_S, fmap_app, filter_app. simpl.
      destruct (filter P (Z.of_nat <$> seq 0 k)) as [|c0 rest0] eqn:Hf.
      + simpl. rewrite filter_cons. destruct (decide (P (Z.of_nat k))).
        * split; [discriminate|]. intros c rest Heq.
          rewrite filter_nil in Heq. injection Heq as <- <-.
          split; [lia|]. split; [done|]. intros c' Hc'. apply IH1; [done|lia].
        * split; [|rewrite filter_nil; discriminate].
          intros _ c Hc. destruct (decide (c = Z.of_nat k)) as [->|]; [done|].
          apply IH1; [done|lia].
      + split; [discriminate|]. intros c rest Heq. injection Heq as <- <-.
        destruct (IH2 c0 rest0 eq_refl) as (? & ? & ?).
        split; [lia|]. done. }
  destruct (Hk (Z.to_nat m)) as [H1 H2]. split.
  - intros Hf c Hc. apply H1; [done|lia].
  - intros c rest Hf. destruct (H2 c rest Hf) as (? & ? & ?).
    split; [lia|]. done.
Qed.

(** On a matrix with a row for [v] no longer than the matrix,
    [_getAvailableColors] returns; its result is empty exactly when no color
    is available, and otherwise starts with the smallest available one. *)
Lemma _getAvailableColors_spec (adj : list (list Z)) (colors row : list Z)
    (v : nat) (m : Z) :
  adj !! v = Some row → length row ≤ length adj →
  ∃ avail,
    _getAvailableColors v colors adj m = Ok avail ∧
    (avail = [] → none_available adj colors m v) ∧
    (∀ c rest, avail = c :: rest → smallest_available adj colors m v c).
Proof.
  intros Hrow Hlen. unfold _getAvailableColors, row_of. rewrite Hrow. simpl.
  eexists. split; [reflexivity|].
  destruct (filter_color_range
              (λ color, Some color ∉ neighborColors row colors (length adj)) m)
    as [H1 H2].
  split.
  - intros Hnil c Hc.
    apply (neighborColors_used adj colors row v c Hrow Hlen).
    destruct (decide (Some c ∈ neighborColors row colors (length adj)));
      [done|].
    exfalso. by apply (H1 Hnil c Hc).
  - intros c rest Heq. destruct (H2 c rest Heq) as (Hc & Hfree & Hbelow).
    split; [done|]. split.
    + by rewrite <- (neighborColors_used adj colors row v c Hrow Hlen).
    + intros c' Hc'.
      apply (neighborColors_used adj colors row v c' Hrow Hlen).
      destruct (decide (Some c' ∈ neighborColors row colors (length adj)));
        [done|].
      exfalso. by apply (Hbelow c' Hc').
Qed.

Lemma square_row (g : Graph) (v : nat) :
  square g → v < length (nodes g) →
  ∃ row, adjacency g !! v = Some row ∧ length row ≤ length (adjacency g).
Proof.
  intros Hsq Hv. pose proof Hsq as [Hlen Hrows].
  destruct (lookup_lt_is_Some_2 (adjacency g) v) as [row Hrow]; [lia|].
  exists row. split; [done|].
  rewrite (dims_row _ _ _ _ Hsq Hrow). lia.
Qed.

End AvailableColors.


(** ** Greedy *)

Section Greedy.

Lemma color_in_order_app adj m l1 l2 colors :
  color_in_order adj m (l1 ++ l2) colors =
    out ← color_in_order adj m l1 colors;
    match out with
    | Exhausted => Ok Exhausted
    | Finished colors' => color_in_order adj m l2 colors'
    end.
Proof.
  revert colors. induction l1 as [|i l1 IH]; intros colors; simpl; [done|].
  case_bool_decide; [|apply IH].
  destruct (_getAvailableColors i colors adj m) as [[|c rest]|x]; simpl;
    [done|apply IH|done].
Qed.

Lemma greedy_after_S g o k :
  greedy_after g o (S k) =
    out ← greedy_after g o k;
    match out with
    | Exhausted => Ok Exhausted
    | Finished colors =>
        color_in_order (adjacency g) (or_default (maxColors o) 4) [k] colors
    end.
Proof. unfold greedy_after. rewrite seq_S. apply color_in_order_app. Qed.

Lemma greedy_after_Exhausted g o k j :
  greedy_after g o k = Ok Exhausted → k ≤ j →
  greedy_after g o j = Ok Exhausted.
Proof.
  intros Hk Hle. induction Hle as [|j Hle IH]; [done|].
  by rewrite greedy_after_S, IH.
Qed.

Lemma compute_greedy_after g o :
  GreedyAlgorithm.compute g o =
    out ← greedy_after g o (length (nodes g));
    match out with
    | Exhausted =>
        Ok (invalid_result
              (GreedyAlgorithm._generatePalette (or_default (maxColors o) 4)))
    | Finished colors =>
        Ok {| assignments := (to_output (nodes g) colors).1;
              palette :=
                GreedyAlgorithm._generatePalette
                  ((to_output (nodes g) colors).2 + 1);
              chromatic := (to_output (nodes g) colors).2 + 1;
              valid := true;
              metadata := None |}
    end.
Proof.
  unfold GreedyAlgorithm.compute, greedy_after, greedy_initial.
  destruct (color_in_order _ _ _ _) as [[|colors]|x]; simpl; [done| |done].
  by destruct (to_output (nodes g) colors).
Qed.

(** What the loop does at position [k], from the state reached before
    it. *)
Lemma greedy_step g o k colors :
  square g → k < length (nodes g) →
  greedy_after g o k = Ok (Finished colors) →
  (colors !! k ≠ Some (-1)%Z →
   greedy_after g o (S k) = Ok (Finished colors)) ∧
  (colors !! k = Some (-1)%Z →
   (∃ c, smallest_available (adjacency g) colors
           (or_default (maxColors o) 4) k c ∧
         greedy_after g o (S k) = Ok (Finished (<[k := c]> colors))) ∨
   (none_available (adjacency g) colors (or_default (maxColors o) 4) k ∧
    greedy_after g o (S k) = Ok Exhausted)).
Proof.
  intros Hsq Hk Hafter. rewrite greedy_after_S, Hafter. simpl. split.
  - intros Hne. by rewrite bool_decide_eq_false_2.
  - intros Heq. rewrite bool_decide_eq_true_2 by done.
    destruct (square_row g k Hsq Hk) as (row & Hrow & Hlen).
    destruct (_getAvailableColors_spec (adjacency g) colors row k
                (or_default (maxColors o) 4) Hrow Hlen)
      as (avail & -> & Hnil & Hcons).
    simpl. destruct avail as [|c rest].
    + right. split; [by apply Hnil|done].
    + left. exists c. split; [by eapply Hcons|done].
Qed.

Lemma greedy_after_returns g o k :
  square g → k ≤ length (nodes g) → ∃ out, greedy_after g o k = Ok out.
Proof.
  intros Hsq. induction k as [|k IH]; intros Hk.
  - by eexists.
  - destruct IH as [[|colors] Hout]; [lia| |].
    + exists Exhausted. apply (greedy_after_Exhausted g o k); [done|lia].
    + destruct (greedy_step g o k colors Hsq) as [Hcol Hunc]; [lia|done|].
      destruct (decide (colors !! k = Some (-1)%Z)) as [Heq|Hne].
      * destruct (Hunc Heq) as [(c & _ & ->)|[_ ->]]; by eexists.
      * rewrite (Hcol Hne). by eexists.
Qed.


End Greedy.


(** ** DSATUR *)

Section DSATUR.

Import DSATURAlgorithm.

Lemma saturation_functional adj colors v s1 s2 :
  saturation adj colors v s1 → saturation adj colors v s2 → s1 = s2.
Proof.
  intros (cs1 & Hnd1 & Hin1 & ->) (cs2 & Hnd2 & Hin2 & ->).
  f_equal. apply Permutation_length, NoDup_Permutation; [done..|].
  intros c. by rewrite Hin1, Hin2.
Qed.

Lemma saturation_nonneg adj colors v s : saturation adj colors v s → (0 ≤ s)%Z.
Proof. intros (cs & _ & _ & ->). lia. Qed.

Lemma omap_id_Some (l : list (option Z)) :
  None ∉ l → l = Some <$> omap id l.
Proof.
  induction l as [|[c|] l IH]; intros Hnone; simpl.
  - done.
  - f_equal. apply IH. intros Hin. apply Hnone. by right.
  - exfalso. apply Hnone. by left.
Qed.

Lemma neighborColors_defined (row colors : list Z) (n : nat) :
  n ≤ length colors → None ∉ neighborColors row colors n.
Proof.
  intros Hn. unfold neighborColors.
  rewrite elem_of_list_to_set, list_elem_of_fmap.
  intros (i & Hnone & Hi). apply list_elem_of_filter in Hi as [_ Hi].
  apply elem_of_seq in Hi. symmetry in Hnone.
  apply lookup_ge_None in Hnone. lia.
Qed.

(** On a matrix with a row for [v], [_getSaturationDegree] returns the
    number of distinct colors held by the colored neighbors of [v]. *)
Lemma _getSaturationDegree_spec (adj : list (list Z)) (colors row : list Z)
    (v : nat) :
  adj !! v = Some row → length row ≤ length adj →
  length adj ≤ length colors →
  ∃ s, _getSaturationDegree v colors adj = Ok s ∧ saturation adj colors v s.
Proof.
  intros Hrow Hlen Hcol. unfold _getSaturationDegree, row_of. rewrite Hrow.
  simpl. eexists. split; [reflexivity|].
  set (X := neighborColors row colors (length adj)).
  assert (∃ cs, elements X = Some <$> cs) as [cs Hel].
  { exists (omap id (elements X)). apply omap_id_Some.
    rewrite elem_of_elements. by apply neighborColors_defined. }
  exists cs. split; [|split].
  - apply (NoDup_fmap_1 Some). rewrite <- Hel. apply NoDup_elements.
  - intros c. rewrite <- (neighborColors_used adj colors row v c Hrow Hlen).
    fold X. rewrite <- elem_of_elements, Hel, list_elem_of_fmap.
    split; [by eauto|]. intros (c' & Heq & Hin). by simplify_eq.
  - f_equal. unfold size, set_size. simpl. by rewrite Hel, length_fmap.
Qed.

Lemma degrees_from_length adj idxs degree :
  degrees_from adj idxs = Ok degree → length degree = length idxs.
Proof.
  revert degree. induction idxs as [|i rest IH]; intros degree; simpl.
  - by intros [= <-].
  - destruct (degree_of adj i) as [d|]; [|done]. simpl.
    destruct (degrees_from adj rest) as [ds|]; [|done]. simpl.
    intros [= <-]. simpl. by rewrite (IH ds).
Qed.

(** [degree[i]] is the sum of row [i]. *)
Lemma degrees_from_lookup adj idxs degree k i :
  degrees_from adj idxs = Ok degree → idxs !! k = Some i →
  ∃ row, adj !! i = Some row ∧ degree !! k = Some (foldl Z.add 0%Z row).
Proof.
  revert degree k. induction idxs as [|j rest IH]; intros degree k; simpl.
  - by intros _ ?.
  - unfold degree_of at 1. destruct (adj !! j) as [row|] eqn:Hrow; [|done].
    simpl. destruct (degrees_from adj rest) as [ds|]; [|done]. simpl.
    intros [= <-]. destruct k as [|k]; simpl.
    + intros [= <-]. by exists row.
    + intros Hk. by apply (IH ds).
Qed.

Lemma select_step_inv (g : Graph) (colors degree : list Z) (k : nat)
    (best : Selection) :
  square g → k < length (nodes g) →
  length colors = length (nodes g) → length degree = length (nodes g) →
  selection_inv (adjacency g) colors degree k best →
  ∃ best', select_step (adjacency g) colors degree best k = Ok best' ∧
           selection_inv (adjacency g) colors degree (S k) best'.
Proof.
  intros Hsq Hk Hcol Hdeg Hinv. unfold select_step.
  case_bool_decide as Hunc.
  - destruct (square_row g k Hsq Hk) as (row & Hrow & Hlen).
    destruct (_getSaturationDegree_spec (adjacency g) colors row k Hrow Hlen)
      as (sat & -> & Hsat).
    { destruct Hsq as [-> _]. lia. }
    simpl. destruct (lookup_lt_is_Some_2 degree k) as [d Hd]; [lia|].
    rewrite Hd. pose proof (saturation_nonneg _ _ _ _ Hsat) as Hpos.
    destruct ((sat >? maxSat best)%Z
              || (sat =? maxSat best)%Z && (d >? maxDeg best)%Z) eqn:Hcmp.
    + eexists. split; [reflexivity|]. right. exists k. simpl.
      split; [done|]. split; [lia|]. split; [done|]. split; [done|].
      split; [done|]. intros i si di Hi Hci Hsi Hdi.
      destruct (decide (i = k)) as [->|Hne].
      * rewrite (saturation_functional _ _ _ _ _ Hsi Hsat).
        rewrite Hd in Hdi. injection Hdi as <-. right. right. done.
      * destruct Hinv as [(_ & _ & Hnone)|(v & _ & _ & _ & _ & _ & Hmax)].
        -- exfalso. apply (Hnone i); [lia|done].
        -- destruct (Hmax i si di) as [?|[[? ?]|(? & ? & ?)]];
             [lia|done..| | |]; lia.
    + exists best. split; [done|].
      destruct Hinv as [(_ & Hms & _)|(v & Hv & Hvk & Hcv & Hsv & Hdv & Hmax)].
      { exfalso. rewrite Hms in Hcmp.
        assert ((sat >? -1)%Z = true) as Hgt by lia.
        by rewrite Hgt in Hcmp. }
      right. exists v. split; [done|]. split; [lia|]. split; [done|].
      split; [done|]. split; [done|]. intros i si di Hi Hci Hsi Hdi.
      destruct (decide (i = k)) as [->|Hne].
      * rewrite (saturation_functional _ _ _ _ _ Hsi Hsat).
        rewrite Hd in Hdi. injection Hdi as <-. lia.
      * apply Hmax; [lia|done..].
  - exists best. split; [done|].
    destruct Hinv as [(Hv & Hms & Hnone)|(v & Hv & Hvk & Hcv & Hsv & Hdv & Hmax)].
    + left. split; [done|]. split; [done|]. intros i Hi.
      destruct (decide (i = k)) as [->|Hne]; [done|]. apply Hnone. lia.
    + right. exists v. split; [done|]. split; [lia|]. split; [done|].
      split; [done|]. split; [done|]. intros i si di Hi Hci Hsi Hdi.
      destruct (decide (i = k)) as [->|Hne]; [done|].
      apply Hmax; [lia|done..].
Qed.

Lemma select_from_inv (g : Graph) (colors degree : list Z) (len s : nat)
    (best : Selection) :
  square g → s + len ≤ length (nodes g) →
  length colors = length (nodes g) → length degree = length (nodes g) →
  selection_inv (adjacency g) colors degree s best →
  ∃ best', select_from (adjacency g) colors degree (seq s len) best
             = Ok best' ∧
           selection_inv (adjacency g) colors degree (s + len) best'.
Proof.
  intros Hsq Hle Hcol Hdeg. revert s best Hle.
  induction len as [|len IH]; intros s best Hle Hinv; simpl.
  - exists best. split; [done|]. by rewrite Nat.add_0_r.
  - destruct (select_step_inv g colors degree s best)
      as (best1 & -> & Hinv1); [done|lia|done..|].
    simpl. destruct (IH (S s) best1) as (best' & -> & Hinv'); [lia|done|].
    exists best'. split; [done|]. by replace (s + S len) with (S s + len) by lia.
Qed.

Lemma select_spec (g : Graph) (colors degree : list Z) :
  square g →
  length colors = length (nodes g) → length degree = length (nodes g) →
  ∃ best, select (adjacency g) colors degree (length (nodes g)) = Ok best ∧
          selection_inv (adjacency g) colors degree (length (nodes g)) best.
Proof.
  intros Hsq Hcol Hdeg. unfold select.
  apply (select_from_inv g colors degree (length (nodes g)) 0);
    [done|lia|done..|].
  left. simpl. split; [done|]. split; [done|]. intros i Hi. lia.
Qed.

Lemma selection_inv_choice adj colors degree n best v :
  selection_inv adj colors degree n best →
  chosenVertex best = Z.of_nat v →
  dsatur_choice adj colors degree n v.
Proof.
  intros [(Hnone & _)|(v' & Hv' & Hvn & Hcv & Hsv & Hdv & Hmax)] Hv; [lia|].
  assert (v' = v) as -> by lia.
  split; [done|]. split; [done|].
  exists (maxSat best), (maxDeg best). split; [done|]. split; [done|].
  exact Hmax.
Qed.

Lemma apply_constraints_length ns cs colors :
  length (apply_constraints ns cs colors) = length colors.
Proof.
  revert colors. induction cs as [|c cs IH]; intros colors; simpl; [done|].
  unfold apply_constraints in *. simpl. rewrite IH. unfold apply_constraint.
  destruct (colorIndex c); [|done]. case_bool_decide; [|done].
  by rewrite length_insert.
Qed.

Lemma step_length adj m degree n colors v c colors' :
  step adj m degree n colors = Ok (Colored v c colors') →
  length colors' = length colors.
Proof.
  unfold step. destruct (select adj colors degree n) as [best|]; [|done].
  simpl. case_bool_decide; [done|].
  destruct (_getAvailableColors _ colors adj m) as [[|c0 rest]|]; [done| |done].
  simpl. intros [= <- <- <-]. by rewrite length_insert.
Qed.

(** The loop is the iteration of [step]. *)
Lemma color_loop_S adj m degree n remaining colors :
  color_loop adj m degree n (S remaining) colors =
    o ← step adj m degree n colors;
    match o with
    | Break => Ok (Finished colors)
    | NoColor => Ok Exhausted
    | Colored _ _ colors' => color_loop adj m degree n remaining colors'
    end.
Proof. reflexivity. Qed.


End DSATUR.

Section LoopWitnesses.

Lemma triangle_square : square (_preprocessGraph triangle).
Proof. split; [reflexivity|]. repeat constructor. Defined.



End LoopWitnesses.

(** ** The output conversion and the palettes *)

Section Palettes.

Lemma output_step_cases (ns : list Node.t) (colors : list Z)
    (acc : gmap string Z * Z) (k : nat) :
  (output_step ns colors acc k = acc ∧
   ∀ nd c, ns !! k = Some nd → colors !! k = Some c → c = (-1)%Z) ∨
  (∃ nd c, ns !! k = Some nd ∧ colors !! k = Some c ∧ c ≠ (-1)%Z ∧
           output_step ns colors acc k
             = (<[Node.id nd := c]> acc.1, Z.max acc.2 c)).
Proof.
  unfold output_step.
  destruct (colors !! k) as [c|]; [|left; split; [done|congruence]].
  destruct (ns !! k) as [nd|]; [|left; split; [done|congruence]].
  case_bool_decide as Hc.
  - right. by exists nd, c.
  - left. split; [done|]. intros nd' c' [= <-] [= <-].
    by destruct (decide (c = (-1)%Z)).
Qed.

(** What the conversion loop has established after the positions below
    [k]: every entry of the mapping comes from a colored position, every
    colored position is bounded by the maximum and (identifiers being
    unique) is in the mapping, and the maximum is attained. *)
Lemma to_output_prefix (ns : list Node.t) (colors : list Z) (k : nat) :
  NoDup (Node.id <$> ns) →
  let acc := foldl (output_step ns colors) (∅, (-1)%Z) (seq 0 k) in
  (-1 ≤ acc.2)%Z ∧
  (∀ x c, acc.1 !! x = Some c →
     ∃ i nd, i < k ∧ ns !! i = Some nd ∧ Node.id nd = x ∧
             colors !! i = Some c ∧ c ≠ (-1)%Z) ∧
  (∀ i nd c, i < k → ns !! i = Some nd → colors !! i = Some c →
     c ≠ (-1)%Z → (c ≤ acc.2)%Z ∧ acc.1 !! Node.id nd = Some c) ∧
  (acc.2 = (-1)%Z ∨
   ∃ i nd, i < k ∧ ns !! i = Some nd ∧ colors !! i = Some acc.2 ∧
           acc.2 ≠ (-1)%Z).
Proof.
  intros Hnd. induction k as [|k IH]; cbv zeta in *.
  - simpl. split; [lia|].
    split; [intros x c H; by rewrite lookup_empty in H|].
    split; [intros; lia|]. by left.
  - rewrite seq_S, foldl_app. cbn [foldl]. change (0 + k) with k.
    set (acc := foldl (output_step ns colors) (∅, (-1)%Z) (seq 0 k)) in *.
    destruct IH as (Hlo & Hsound & Hcompl & Hatt).
    destruct (output_step_cases ns colors acc k)
      as [[-> Hskip]|(ndk & ck & Hnk & Hck & Hcol & ->)].
    + split; [done|]. split; [|split].
      * intros x c Hx. destruct (Hsound x c Hx) as (i & nd & ? & ?).
        exists i, nd. split; [lia|done].
      * intros i nd c Hi Hn Hc Hne. apply (Hcompl i nd c); [|done..].
        destruct (decide (i = k)) as [->|]; [|lia].
        by destruct (Hne (Hskip nd c Hn Hc)).
      * destruct Hatt as [?|(i & nd & ? & ?)]; [by left|right].
        exists i, nd. split; [lia|done].
    + cbn [fst snd]. split; [lia|]. split; [|split].
      * intros x c Hx. destruct (decide (Node.id ndk = x)) as [<-|Hne].
        -- rewrite lookup_insert_eq in Hx. injection Hx as <-.
           exists k, ndk. split; [lia|done].
        -- rewrite lookup_insert_ne in Hx by done.
           destruct (Hsound x c Hx) as (i & nd & ? & ?).
           exists i, nd. split; [lia|done].
      * intros i nd c Hi Hn Hc Hne.
        destruct (decide (i = k)) as [->|Hik].
        -- simplify_eq. split; [lia|]. apply lookup_insert_eq.
        -- destruct (Hcompl i nd c) as [Hle Hin]; [lia|done..|].
           split; [lia|]. rewrite lookup_insert_ne; [done|].
           intros Heq. apply Hik.
           apply (NoDup_lookup (Node.id <$> ns) i k (Node.id nd) Hnd).
           ++ by rewrite list_lookup_fmap, Hn.
           ++ rewrite list_lookup_fmap, Hnk. simpl. by rewrite Heq.
      * destruct (Z.max_spec (acc.2) ck) as [[Hlt ->]|[Hge ->]].
        -- right. exists k, ndk. split; [lia|done].
        -- destruct Hatt as [?|(i & nd & ? & ?)]; [by left|right].
           exists i, nd. split; [lia|done].
Qed.

Lemma to_output_lower_bound (ns : list Node.t) (colors : list Z) :
  (-1 ≤ (to_output ns colors).2)%Z.
Proof.
  unfold to_output. generalize (length ns). intros k.
  induction k as [|k IH]; [simpl; lia|].
  rewrite seq_S, foldl_app. cbn [foldl].
  destruct (output_step_cases ns colors
              (foldl (output_step ns colors) (∅, (-1)%Z) (seq 0 k)) (0 + k))
    as [[-> _]|(nd & c & _ & _ & _ & ->)]; [done|]. simpl. lia.
Qed.

(** With unique identifiers, [maxColorUsed] is the largest color index of
    the mapping returned with it. *)
Lemma to_output_max_color (ns : list Node.t) (colors : list Z) :
  NoDup (Node.id <$> ns) →
  max_color (to_output ns colors).1 (to_output ns colors).2.
Proof.
  intros Hnd. unfold to_output.
  destruct (to_output_prefix ns colors (length ns) Hnd)
    as (Hlo & Hsound & Hcompl & Hatt).
  split; [done|]. split.
  - intros x c Hx. destruct (Hsound x c Hx) as (i & nd & Hi & Hn & _ & Hc & Hne).
    by destruct (Hcompl i nd c Hi Hn Hc Hne).
  - destruct Hatt as [?|(i & nd & Hi & Hn & Hc & Hne)]; [by left|right].
    exists (Node.id nd). by destruct (Hcompl i nd _ Hi Hn Hc Hne).
Qed.

Lemma slice0_nonneg {A : Type} (a : list A) (e : Z) :
  (0 ≤ e)%Z → slice0 a e = take (Z.to_nat e) a.
Proof. intros He. unfold slice0. by destruct (Z.ltb_spec e 0); [lia|]. Qed.

Lemma GreedyAlgorithm_generatePalette (M : Z) :
  (-1 ≤ M)%Z →
  GreedyAlgorithm._generatePalette (M + 1)
    = take (Z.to_nat (Z.min (M + 1) 4)) baseColors.
Proof. intros HM. apply slice0_nonneg. lia. Qed.

Lemma WelshPowellAlgorithm_generatePalette (M : Z) :
  (-1 ≤ M)%Z →
  WelshPowellAlgorithm._generatePalette (M + 1)
    = take (Z.to_nat (Z.min (M + 1) 4)) WelshPowellAlgorithm.emergencyColors.
Proof. intros HM. apply slice0_nonneg. lia. Qed.

Lemma DSATURAlgorithm_generatePalette (M : Z) :
  (-1 ≤ M)%Z →
  DSATURAlgorithm._generatePalette (M + 1)
    = (if (M + 1 <=? 4)%Z then take (Z.to_nat (M + 1)) baseColors
       else baseColors ++ extra_hues (M + 1)) ∧
  length (DSATURAlgorithm._generatePalette (M + 1)) = Z.to_nat (M + 1).
Proof.
  intros HM. unfold DSATURAlgorithm._generatePalette, extra_hues.
  destruct (Z.leb_spec (M + 1) 4) as [Hle|Hgt].
  - rewrite slice0_nonneg by lia. split; [done|].
    rewrite length_take. simpl. lia.
  - rewrite <- list_fmap_compose. split; [done|].
    rewrite length_app, length_fmap, length_seq. simpl. lia.
Qed.

Lemma GreedyAlgorithm_compute_valid (g : Graph) (o : Options) r :
  GreedyAlgorithm.compute g o = Ok r → valid r = true →
  ∃ colors,
    assignments r = (to_output (nodes g) colors).1 ∧
    chromatic r = ((to_output (nodes g) colors).2 + 1)%Z ∧
    palette r =
      GreedyAlgorithm._generatePalette ((to_output (nodes g) colors).2 + 1).
Proof.
  rewrite compute_greedy_after.
  destruct (greedy_after g o (length (nodes g))) as [[|colors]|x]; simpl;
    [intros [= <-]; done| |done].
  intros [= <-] _. by exists colors.
Qed.

Lemma WelshPowellAlgorithm_compute_valid (g : Graph) (o : Options) r :
  WelshPowellAlgorithm.compute g o = Ok r → valid r = true →
  ∃ colors,
    assignments r = (to_output (nodes g) colors).1 ∧
    chromatic r = ((to_output (nodes g) colors).2 + 1)%Z ∧
    palette r =
      WelshPowellAlgorithm._generatePalette
        ((to_output (nodes g) colors).2 + 1).
Proof.
  unfold WelshPowellAlgorithm.compute.
  destruct (degrees_from _ _) as [ds|x]; simpl; [|done].
  destruct (color_in_order _ _ _ _) as [[|colors]|x]; simpl;
    [intros [= <-]; done| |done].
  destruct (to_output (nodes g) colors) as [a mx] eqn:Hout.
  intros [= <-] _. exists colors. by rewrite Hout.
Qed.

Lemma DSATURAlgorithm_compute_valid (g : Graph) (o : Options) r :
  DSATURAlgorithm.compute g o = Ok r → valid r = true →
  ∃ colors,
    assignments r = (to_output (nodes g) colors).1 ∧
    chromatic r = ((to_output (nodes g) colors).2 + 1)%Z ∧
    palette r =
      DSATURAlgorithm._generatePalette ((to_output (nodes g) colors).2 + 1).
Proof.
  unfold DSATURAlgorithm.compute.
  destruct (degrees_from _ _) as [ds|x]; simpl; [|done].
  destruct (DSATURAlgorithm.color_loop _ _ _ _ _ _) as [[|colors]|x]; simpl;
    [intros [= <-]; done| |done].
  destruct (to_output (nodes g) colors) as [a mx] eqn:Hout.
  intros [= <-] _. exists colors. by rewrite Hout.
Qed.



End Palettes.


(** ** The chromatic field when no color is pinned *)

Section ChromaticWithoutConstraints.

Lemma contiguous_replicate n : contiguous (replicate n (-1)%Z).
Proof. intros i c H. apply lookup_replicate in H as [-> _]. by left. Qed.

Lemma contiguous_insert adj colors m i c :
  contiguous colors → colors !! i = Some (-1)%Z →
  smallest_available adj colors m i c →
  contiguous (<[i := c]> colors).
Proof.
  intros Hcont Hi (Hc & _ & Hbelow) i' x Hx.
  assert (∀ c', (0 ≤ c')%Z → (∃ j, colors !! j = Some c') →
                ∃ j, <[i := c]> colors !! j = Some c') as Hkeep.
  { intros c' Hc' [j Hj]. exists j.
    rewrite list_lookup_insert_ne; [done|]. intros ->.
    rewrite Hi in Hj. injection Hj as <-. lia. }
  destruct (decide (i' = i)) as [->|Hne].
  - rewrite list_lookup_insert_eq in Hx by (by eapply lookup_lt_Some).
    injection Hx as <-. right. split; [lia|]. intros c' Hc'.
    apply Hkeep; [lia|].
    destruct (Hbelow c' Hc') as (j & _ & Hj & _). by exists j.
  - rewrite list_lookup_insert_ne in Hx by done.
    destruct (Hcont i' x Hx) as [->|[Hpos Hall]]; [by left|right].
    split; [done|]. intros c' Hc'. apply Hkeep; [lia|]. by apply Hall.
Qed.

Lemma color_in_order_contiguous adj m order colors colors' :
  (∀ i, i ∈ order →
        ∃ row, adj !! i = Some row ∧ length row ≤ length adj) →
  contiguous colors →
  color_in_order adj m order colors = Ok (Finished colors') →
  contiguous colors'.
Proof.
  revert colors. induction order as [|i rest IH]; intros colors Hrows Hcont;
    simpl.
  - by intros [= <-].
  - assert (∀ j, j ∈ rest →
              ∃ row, adj !! j = Some row ∧ length row ≤ length adj) as Hrest.
    { intros j Hj. apply Hrows. by right. }
    case_bool_decide as Hunc; [|by apply IH].
    destruct (Hrows i) as (row & Hrow & Hlen); [by left|].
    destruct (_getAvailableColors_spec adj colors row i m Hrow Hlen)
      as (avail & -> & _ & Hcons).
    simpl. destruct avail as [|c l]; [done|].
    apply IH; [done|]. eapply contiguous_insert; [done..|]. by eapply Hcons.
Qed.

(** With unique identifiers, the image of the mapping is the set of colors
    held by colored positions. *)
Lemma to_output_image (ns : list Node.t) (colors : list Z) (c : Z) :
  NoDup (Node.id <$> ns) → length colors = length ns →
  c ∈ usedColors (to_output ns colors).1 ↔
  ∃ i, colors !! i = Some c ∧ c ≠ (-1)%Z.
Proof.
  intros Hnd Hlen. unfold usedColors, to_output. rewrite elem_of_map_img.
  destruct (to_output_prefix ns colors (length ns) Hnd)
    as (_ & Hsound & Hcompl & _).
  split.
  - intros [x Hx]. destruct (Hsound x c Hx) as (i & nd & _ & _ & _ & ? & ?).
    by exists i.
  - intros (i & Hi & Hne).
    pose proof (lookup_lt_Some _ _ _ Hi) as Hlt. rewrite Hlen in Hlt.
    destruct (lookup_lt_is_Some_2 ns i Hlt) as [nd Hn].
    exists (Node.id nd). by destruct (Hcompl i nd c Hlt Hn Hi Hne).
Qed.

Lemma color_in_order_length adj m order colors colors' :
  color_in_order adj m order colors = Ok (Finished colors') →
  length colors' = length colors.
Proof.
  revert colors. induction order as [|i rest IH]; intros colors; simpl.
  - by intros [= <-].
  - case_bool_decide; [|apply IH].
    destruct (_getAvailableColors i colors adj m) as [[|c l]|x]; simpl;
      [done| |done].
    intros Hrun. apply IH in Hrun. by rewrite length_insert in Hrun.
Qed.

(** On a square graph with unique identifiers and no constraints, the
    chromatic field Greedy returns is the number of distinct color indices
    of the mapping. *)
Lemma GreedyAlgorithm_chromatic_without_constraints (g : Graph) (o : Options)
    (r : ColorAssignment) :
  square g → NoDup (Node.id <$> nodes g) → constraints o = None →
  GreedyAlgorithm.compute g o = Ok r →
  chromatic r = Z.of_nat (size (usedColors (assignments r))).
Proof.
  intros Hsq Hnd Hnone. rewrite compute_greedy_after.
  destruct (greedy_after g o (length (nodes g))) as [[|colors]|x] eqn:Hrun;
    simpl; [|intros [= <-]; simpl|done].
  { intros [= <-]. simpl. unfold usedColors. by rewrite map_img_empty_L. }
  unfold greedy_after, greedy_initial in Hrun. rewrite Hnone in Hrun.
  assert (contiguous colors) as Hcont.
  { eapply color_in_order_contiguous; [|apply contiguous_replicate|exact Hrun].
    intros i Hi. apply elem_of_seq in Hi. apply square_row; [done|lia]. }
  assert (length colors = length (nodes g)) as Hlen.
  { apply color_in_order_length in Hrun. by rewrite length_replicate in Hrun. }
  destruct (to_output_prefix (nodes g) colors (length (nodes g)) Hnd)
    as (Hlo & _ & Hcompl & Hatt).
  fold (to_output (nodes g) colors) in Hlo, Hcompl, Hatt.
  set (M := (to_output (nodes g) colors).2) in *.
  assert (usedColors (to_output (nodes g) colors).1
          = list_to_set (seqZ 0 (M + 1))) as ->.
  { apply set_eq. intros c.
    rewrite (to_output_image _ _ _ Hnd Hlen), elem_of_list_to_set,
      elem_of_seqZ.
    split.
    - intros (i & Hi & Hne).
      pose proof (lookup_lt_Some _ _ _ Hi) as Hlt. rewrite Hlen in Hlt.
      destruct (lookup_lt_is_Some_2 (nodes g) i Hlt) as [nd Hn].
      destruct (Hcompl i nd c Hlt Hn Hi Hne) as [Hle _].
      destruct (Hcont i c Hi) as [->|[Hpos _]]; [done|lia].
    - intros Hc. destruct Hatt as [HM|(i & nd & _ & _ & Hi & HM)]; [lia|].
      destruct (Hcont i M Hi) as [?|[_ Hall]]; [done|].
      destruct (decide (c = M)) as [->|Hne]; [by exists i|].
      destruct (Hall c) as [j Hj]; [lia|]. exists j. split; [done|lia]. }
  rewrite size_list_to_set by apply NoDup_seqZ.
  rewrite length_seqZ. lia.
Qed.

End ChromaticWithoutConstraints.

(** ** The scenarios of the specification *)

Section Scenarios.

(** Scenario A: the triangle with four colors allowed. *)
Example scenario_triangle :
  ∃ r, GreedyAlgorithm.compute (_preprocessGraph triangle) no_options = Ok r ∧
       assignments r
         = list_to_map [("a", 0); ("b", 1); ("c", 2)]%string%Z ∧
       chromatic r = 3%Z ∧ valid r = true.
Proof. eexists. repeat split; reflexivity. Qed.

(** Scenario B: K4 with three colors allowed. *)
Example scenario_K4_three_colors :
  summary (GreedyAlgorithm.compute (_preprocessGraph K4) three_colors)
    = Some ([], 0%Z, false) ∧
  summary (WelshPowellAlgorithm.compute (_preprocessGraph K4) three_colors)
    = Some ([], 0%Z, false) ∧
  summary (DSATURAlgorithm.compute (_preprocessGraph K4) three_colors)
    = Some ([], 0%Z, false).
Proof. repeat split; reflexivity. Qed.

(** Scenario C: a single isolated node. *)
Example scenario_single_node :
  summary (GreedyAlgorithm.compute (_preprocessGraph single_node) no_options)
    = Some ([("a"%string, 0%Z)], 1%Z, true) ∧
  summary (WelshPowellAlgorithm.compute (_preprocessGraph single_node)
             no_options)
    = Some ([("a"%string, 0%Z)], 1%Z, true) ∧
  summary (DSATURAlgorithm.compute (_preprocessGraph single_node) no_options)
    = Some ([("a"%string, 0%Z)], 1%Z, true).
Proof. repeat split; reflexivity. Qed.

(** Scenario D: 25 pushes into a manager of capacity 20. *)
Example scenario_25_pushes :
  let h := foldl HistoryManager.push (HistoryManager.create (Some 20%Z))
             (seq 1 25) in
  HistoryManager.stack h = seq 6 20 ∧ HistoryManager.index h = 19%Z.
Proof. split; reflexivity. Qed.

(** The dispatch on the algorithm name. *)
Example _selectAlgorithm_dispatch
    (bc : Graph → Options → result ColorAssignment) :
  TheoremEngine._selectAlgorithm bc (Some "dsatur"%string)
    = DSATURAlgorithm.compute ∧
  TheoremEngine._selectAlgorithm bc (Some "welsh-powell"%string)
    = WelshPowellAlgorithm.compute ∧
  TheoremEngine._selectAlgorithm bc (Some "backtracking"%string) = bc ∧
  TheoremEngine._selectAlgorithm bc (Some "greedy"%string)
    = GreedyAlgorithm.compute ∧
  TheoremEngine._selectAlgorithm bc (Some "other"%string)
    = GreedyAlgorithm.compute ∧
  TheoremEngine._selectAlgorithm bc None = GreedyAlgorithm.compute.
Proof. repeat split; reflexivity. Qed.

End Scenarios.


(** * Further properties *)

(** ** HistoryManager: sequences of calls, round trips, capacity *)

Section HistoryCalls.

Context {A : Type}.
Implicit Types (h : HistoryManager.t A) (x : A) (xs : list A).

Import HistoryManager.


End HistoryCalls.


Section HistoryRoundTrips.

Context {A : Type}.
Implicit Types (h : HistoryManager.t A) (x : A) (xs : list A).

Import HistoryManager.

Lemma manager_eta h (i : Z) :
  i = index h → {| maxSteps := maxSteps h; stack := stack h; index := i |} = h.
Proof. intros ->. by destruct h. Qed.

(** X2. [undo] followed by [redo], and [redo] followed by [undo], give back
    the snapshot the cursor was on and leave the manager as it was,
    whenever the first call has somewhere to move to. *)
Theorem undo_redo_round_trip h :
  wf h →
  ((0 < index h)%Z →
   ∃ s prev,
     js_get (stack h) (index h) = Some s ∧
     undo h = (Some prev, (undo h).2) ∧
     js_get (stack h) (index h - 1) = Some prev ∧
     redo (undo h).2 = (Some s, h)) ∧
  ((0 ≤ index h < Z.of_nat (length (stack h)) - 1)%Z →
   ∃ s next,
     js_get (stack h) (index h) = Some s ∧
     redo h = (Some next, (redo h).2) ∧
     js_get (stack h) (index h + 1) = Some next ∧
     undo (redo h).2 = (Some s, h)).
Proof.
  intros [Hidx Hlen]. split; intros Hmove.
  - destruct (lookup_lt_is_Some_2 (stack h) (Z.to_nat (index h)))
      as [s Hs]; [lia|].
    destruct (lookup_lt_is_Some_2 (stack h) (Z.to_nat (index h - 1)))
      as [prev Hprev]; [lia|].
    exists s, prev. unfold undo, redo, js_get.
    destruct (Z.leb_spec (index h) 0) as [?|_]; [lia|].
    destruct (Z.ltb_spec (index h) 0) as [?|_]; [lia|].
    destruct (Z.ltb_spec (index h - 1) 0) as [?|_]; [lia|].
    cbn [fst snd maxSteps stack index]. rewrite Hprev.
    destruct (Z.geb_spec (index h - 1) (Z.of_nat (length (stack h)) - 1))
      as [?|_]; [lia|].
    destruct (Z.ltb_spec (index h - 1 + 1) 0) as [?|_]; [lia|].
    replace (index h - 1 + 1)%Z with (index h) by lia.
    rewrite Hs. repeat split; try done. f_equal. apply manager_eta. done.
  - destruct (lookup_lt_is_Some_2 (stack h) (Z.to_nat (index h)))
      as [s Hs]; [lia|].
    destruct (lookup_lt_is_Some_2 (stack h) (Z.to_nat (index h + 1)))
      as [next Hnext]; [lia|].
    exists s, next. unfold undo, redo, js_get.
    destruct (Z.geb_spec (index h) (Z.of_nat (length (stack h)) - 1))
      as [?|_]; [lia|].
    destruct (Z.ltb_spec (index h) 0) as [?|_]; [lia|].
    destruct (Z.ltb_spec (index h + 1) 0) as [?|_]; [lia|].
    cbn [fst snd maxSteps stack index]. rewrite Hnext.
    destruct (Z.leb_spec (index h + 1) 0) as [?|_]; [lia|].
    destruct (Z.ltb_spec (index h + 1 - 1) 0) as [?|_]; [lia|].
    replace (index h + 1 - 1)%Z with (index h) by lia.
    rewrite Hs. repeat split; try done. f_equal. apply manager_eta. done.
Qed.


(** X4. A manager whose capacity is zero or negative never holds a
    snapshot: a push leaves it empty, and [undo] and [redo] have nothing to
    return. *)
Theorem push_without_capacity h x :
  (maxSteps h ≤ 0)%Z → wf h →
  stack (push h x) = [] ∧ index (push h x) = (-1)%Z ∧
  (undo (push h x)).1 = None ∧ (redo (push h x)).1 = None.
Proof.
  intros Hc [Hidx Hlen].
  assert (stack h = []) as Hnil.
  { destruct (stack h); [done|]. simpl in Hlen. lia. }
  assert (index h = (-1)%Z) as Hi by (rewrite Hnil in Hidx; simpl in Hidx; lia).
  assert (push h x = {| maxSteps := maxSteps h; stack := []; index := -1 |})
    as ->.
  { unfold push, slice0. rewrite Hnil, Hi. simpl.
    destruct (Z.gtb_spec (Z.of_nat 1) (maxSteps h)) as [_|?]; [done|lia]. }
  done.
Qed.

(** X5. On a new manager of capacity [c ≥ 1] any number of pushes leaves
    the last [min k c] of them, in order, with the cursor on the last one; in
    particular nothing is dropped while the pushes fit the capacity. *)
Theorem pushes_on_new_manager (c : Z) xs :
  (1 ≤ c)%Z →
  let h := foldl push (create (Some c)) xs in
  stack h = last_n (Z.to_nat c) xs ∧
  index h = (Z.of_nat (length (stack h)) - 1)%Z ∧
  ((Z.of_nat (length xs) ≤ c)%Z → stack h = xs).
Proof.
  intros Hc.
  destruct (foldl_push_at_tail xs (create (Some c))) as (Hs & Hi & _);
    [done|done|simpl; lia|].
  cbv zeta. simpl in Hs. split; [done|]. split; [done|].
  intros Hfit. rewrite Hs. unfold last_n.
  replace (length xs - Z.to_nat c) with 0 by lia. apply drop_0.
Qed.

End HistoryRoundTrips.

(** A manager of capacity 5 holding three snapshots, cursor on the
    second. *)
Lemma undo_redo_round_trip_witness :
  let h := HistoryManager.Build 5 [10; 20; 30] 1 in
  ((0 < 1)%Z →
   ∃ s prev,
     js_get [10; 20; 30] 1 = Some s ∧
     HistoryManager.undo h = (Some prev, (HistoryManager.undo h).2) ∧
     js_get [10; 20; 30] (1 - 1) = Some prev ∧
     HistoryManager.redo (HistoryManager.undo h).2 = (Some s, h)) ∧
  ((0 ≤ 1 < Z.of_nat 3 - 1)%Z →
   ∃ s next,
     js_get [10; 20; 30] 1 = Some s ∧
     HistoryManager.redo h = (Some next, (HistoryManager.redo h).2) ∧
     js_get [10; 20; 30] (1 + 1) = Some next ∧
     HistoryManager.undo (HistoryManager.redo h).2 = (Some s, h)).
Proof.
  apply (undo_redo_round_trip (HistoryManager.Build 5 [10; 20; 30] 1)).
  unfold HistoryManager.wf. simpl. lia.
Defined.


(** A new manager of capacity 0. *)
Lemma push_without_capacity_witness :
  let h := HistoryManager.create (Some 0%Z) in
  HistoryManager.stack (HistoryManager.push h 7) = [] ∧
  HistoryManager.index (HistoryManager.push h 7) = (-1)%Z ∧
  (HistoryManager.undo (HistoryManager.push h 7)).1 = None ∧
  (HistoryManager.redo (HistoryManager.push h 7)).1 = None.
Proof.
  apply (push_without_capacity (HistoryManager.create (Some 0%Z)) 7).
  - simpl. lia.
  - unfold HistoryManager.wf. simpl. lia.
Defined.

(** Two pushes into a new manager of capacity 3. *)
Lemma pushes_on_new_manager_witness :
  let h := foldl HistoryManager.push (HistoryManager.create (Some 3%Z))
             [10; 20] in
  HistoryManager.stack h = last_n (Z.to_nat 3) [10; 20] ∧
  HistoryManager.index h
    = (Z.of_nat (length (HistoryManager.stack h)) - 1)%Z ∧
  ((Z.of_nat (length [10; 20]) ≤ 3)%Z → HistoryManager.stack h = [10; 20]).
Proof.
  apply (pushes_on_new_manager 3 [10; 20]). lia.
Defined.


(** ** The heuristics: what a successful run guarantees *)

Section ColoringLoops.

Lemma greedy_initial_initial_colors g o :
  greedy_initial g o = initial_colors g o.
Proof. unfold greedy_initial, initial_colors. by destruct (constraints o). Qed.

Lemma initial_colors_length g o :
  length (initial_colors g o) = length (nodes g).
Proof.
  unfold initial_colors.
  by rewrite apply_constraints_length, length_replicate.
Qed.

Lemma initial_colors_no_constraints g o :
  constraints o = None →
  initial_colors g o = replicate (length (nodes g)) (-1)%Z.
Proof. unfold initial_colors. by intros ->. Qed.

(** The first available color is a color index below [maxColors]. *)
Lemma _getAvailableColors_head_range v colors adj m c rest :
  _getAvailableColors v colors adj m = Ok (c :: rest) → (0 ≤ c < m)%Z.
Proof.
  unfold _getAvailableColors. destruct (row_of adj v) as [row|]; [|done].
  simpl. intros [= Hf].
  by destruct (proj2 (filter_color_range _ m) c rest Hf).
Qed.

Lemma proper_insert adj colors v c :
  symmetric adj → proper adj colors →
  ¬ used_by_neighbor adj colors v c →
  proper adj (<[v := c]> colors).
Proof.
  intros Hsym Hprop Hfree i j x Hne Hadj Hi Hj.
  destruct (decide (x = (-1)%Z)) as [|Hx]; [done|]. exfalso.
  destruct (decide (i = v)) as [->|Hiv].
  - rewrite list_lookup_insert_ne in Hj by done.
    pose proof (lookup_lt_Some _ _ _ Hi) as Hlt. rewrite length_insert in Hlt.
    rewrite list_lookup_insert_eq in Hi by done. injection Hi as <-.
    apply Hfree. by exists j.
  - rewrite list_lookup_insert_ne in Hi by done.
    destruct (decide (j = v)) as [->|Hjv].
    + pose proof (lookup_lt_Some _ _ _ Hj) as Hlt.
      rewrite length_insert in Hlt.
      rewrite list_lookup_insert_eq in Hj by done. injection Hj as <-.
      apply Hfree. exists i. split; [|done].
      unfold adjacent in *. by rewrite Hsym.
    + rewrite list_lookup_insert_ne in Hj by done.
      by apply Hx, (Hprop i j).
Qed.

Lemma within_insert m colors v c :
  within m colors → (0 ≤ c < m)%Z → within m (<[v := c]> colors).
Proof.
  intros Hw Hc i x Hi. destruct (decide (i = v)) as [->|Hne].
  - pose proof (lookup_lt_Some _ _ _ Hi) as Hlt. rewrite length_insert in Hlt.
    rewrite list_lookup_insert_eq in Hi by done. injection Hi as <-.
    by right.
  - rewrite list_lookup_insert_ne in Hi by done. by apply (Hw i).
Qed.

Lemma proper_replicate adj n : proper adj (replicate n (-1)%Z).
Proof. intros i j c _ _ Hi _. by apply lookup_replicate in Hi as [-> _]. Qed.

Lemma within_replicate m n : within m (replicate n (-1)%Z).
Proof. intros i c Hi. apply lookup_replicate in Hi as [-> _]. by left. Qed.

(** What a completed pass over [order] has done: positions that held a
    color keep it, every position of [order] holds a color, and a proper
    coloring within [m] colors stays so. *)
Lemma color_in_order_finished (g : Graph) (m : Z) (order : list nat)
    (colors colors' : list Z) :
  square g → symmetric (adjacency g) →
  (∀ i, i ∈ order → i < length (nodes g)) →
  length colors = length (nodes g) →
  color_in_order (adjacency g) m order colors = Ok (Finished colors') →
  length colors' = length (nodes g) ∧
  (∀ i c, colors !! i = Some c → c ≠ (-1)%Z → colors' !! i = Some c) ∧
  (∀ i, i ∈ order → colors' !! i ≠ Some (-1)%Z) ∧
  (proper (adjacency g) colors → proper (adjacency g) colors') ∧
  (within m colors → within m colors').
Proof.
  intros Hsq Hsym. revert colors.
  induction order as [|v rest IH]; intros colors Hord Hlen; simpl.
  - intros [= <-]. split; [done|]. split; [done|].
    split; [intros i Hi; by apply not_elem_of_nil in Hi|done].
  - assert (∀ i, i ∈ rest → i < length (nodes g)) as Hrest.
    { intros i Hi. apply Hord. by right. }
    assert (v < length (nodes g)) as Hv by (apply Hord; by left).
    case_bool_decide as Hunc.
    + destruct (square_row g v Hsq Hv) as (row & Hrow & Hrl).
      destruct (_getAvailableColors_spec (adjacency g) colors row v m Hrow Hrl)
        as (avail & Havail & _ & Hcons).
      rewrite Havail. simpl. destruct avail as [|c l]; [done|].
      destruct (Hcons c l eq_refl) as (Hc & Hfree & _).
      intros Hrun.
      destruct (IH (<[v := c]> colors) Hrest) as (Hl & Hkeep & Hcol & Hp & Hw);
        [by rewrite length_insert|done|].
      split; [done|]. split; [|split; [|split]].
      * intros i x Hi Hx. apply Hkeep; [|done].
        rewrite list_lookup_insert_ne; [done|]. intros ->. congruence.
      * intros i Hi. apply elem_of_cons in Hi as [->|Hi]; [|by apply Hcol].
        rewrite (Hkeep v c); [intros [= ?]; lia| |lia].
        apply list_lookup_insert_eq. lia.
      * intros Hprop. apply Hp. by apply proper_insert.
      * intros Hwithin. apply Hw. by apply within_insert.
    + intros Hrun.
      destruct (IH colors Hrest Hlen Hrun) as (Hl & Hkeep & Hcol & Hp & Hw).
      split; [done|]. split; [done|]. split; [|done].
      intros i Hi. apply elem_of_cons in Hi as [->|Hi]; [|by apply Hcol].
      destruct (lookup_lt_is_Some_2 colors v) as [x Hx]; [lia|].
      rewrite (Hkeep v x Hx); [|intros ->; by rewrite Hx in Hunc].
      intros [= ->]. by rewrite Hx in Hunc.
Qed.

End ColoringLoops.

Section RunsOfTheHeuristics.

Import DSATURAlgorithm.

(** With unique identifiers and a color array over the nodes, the mapping
    holds exactly the colored positions. *)
Lemma to_output_lookup (ns : list Node.t) (colors : list Z) i nd c :
  NoDup (Node.id <$> ns) → ns !! i = Some nd →
  (to_output ns colors).1 !! Node.id nd = Some c ↔
  colors !! i = Some c ∧ c ≠ (-1)%Z.
Proof.
  intros Hnd Hi. unfold to_output.
  destruct (to_output_prefix ns colors (length ns) Hnd)
    as (_ & Hsound & Hcompl & _).
  split.
  - intros Hx. destruct (Hsound _ c Hx) as (j & nd' & _ & Hj & Hid & Hc & Hne).
    assert (j = i) as ->; [|done].
    apply (NoDup_lookup (Node.id <$> ns) j i (Node.id nd) Hnd).
    + by rewrite list_lookup_fmap, Hj, <- Hid.
    + by rewrite list_lookup_fmap, Hi.
  - intros [Hc Hne]. apply (Hcompl i nd c); [by eapply lookup_lt_Some|done..].
Qed.

(** A proper coloring, turned into a mapping, is accepted by the
    validator. *)
Lemma proper_validates (g : Graph) (colors : list Z) (r : ColorAssignment) :
  length (adjacency g) = length (nodes g) →
  NoDup (Node.id <$> nodes g) →
  proper (adjacency g) colors →
  assignments r = (to_output (nodes g) colors).1 →
  validate g r = Ok true.
Proof.
  intros Hlen Hnd Hprop Hasg.
  destruct (validate_upper_triangle g r Hlen) as (b & -> & Hiff).
  f_equal. destruct b; [done|]. exfalso.
  destruct (proj1 Hiff eq_refl)
    as (i & j & Hij & Hadj & n1 & n2 & col & H1 & H2 & A1 & A2).
  rewrite Hasg in A1, A2.
  apply (to_output_lookup _ _ i n1 col Hnd H1) in A1 as [C1 Hne].
  apply (to_output_lookup _ _ j n2 col Hnd H2) in A2 as [C2 _].
  apply Hne, (Hprop i j col); [lia|done..].
Qed.

Lemma insert_desc_perm (x : nat * Z) l :
  WelshPowellAlgorithm.insert_desc x l ≡ₚ x :: l.
Proof.
  induction l as [|y l IH]; simpl; [done|].
  destruct (y.2 >? x.2)%Z; [|done]. rewrite IH. apply Permutation_swap.
Qed.

Lemma sort_desc_perm l : WelshPowellAlgorithm.sort_desc l ≡ₚ l.
Proof.
  unfold WelshPowellAlgorithm.sort_desc.
  induction l as [|x l IH]; simpl; [done|].
  by rewrite insert_desc_perm, IH.
Qed.

(** The order Welsh-Powell visits is a rearrangement of the positions. *)
Lemma welsh_powell_order_perm (n : nat) (ds : list Z) :
  length ds = n →
  (WelshPowellAlgorithm.sort_desc (zip (seq 0 n) ds)).*1 ≡ₚ seq 0 n.
Proof.
  intros Hlen. rewrite sort_desc_perm.
  rewrite fst_zip; [done|]. rewrite length_seq. lia.
Qed.

Lemma GreedyAlgorithm_compute_run (g : Graph) (o : Options) r :
  GreedyAlgorithm.compute g o = Ok r → valid r = true →
  ∃ colors,
    color_in_order (adjacency g) (or_default (maxColors o) 4)
      (seq 0 (length (nodes g))) (initial_colors g o) = Ok (Finished colors) ∧
    assignments r = (to_output (nodes g) colors).1 ∧
    chromatic r = ((to_output (nodes g) colors).2 + 1)%Z.
Proof.
  rewrite compute_greedy_after. unfold greedy_after.
  rewrite greedy_initial_initial_colors.
  destruct (color_in_order _ _ _ _) as [[|colors]|x]; simpl;
    [intros [= <-]; done| |done].
  intros [= <-] _. by exists colors.
Qed.

Lemma WelshPowellAlgorithm_compute_run (g : Graph) (o : Options) r :
  WelshPowellAlgorithm.compute g o = Ok r → valid r = true →
  ∃ ds colors,
    degrees_from (adjacency g) (seq 0 (length (nodes g))) = Ok ds ∧
    color_in_order (adjacency g) (or_default (maxColors o) 4)
      (WelshPowellAlgorithm.sort_desc (zip (seq 0 (length (nodes g))) ds)).*1
      (initial_colors g o) = Ok (Finished colors) ∧
    assignments r = (to_output (nodes g) colors).1 ∧
    chromatic r = ((to_output (nodes g) colors).2 + 1)%Z ∧
    metadata r = Some
      {| md_algorithm := "Welsh-Powell";
         vertexOrder :=
           omap (λ d, Node.id <$> nodes g !! d.1)
             (WelshPowellAlgorithm.sort_desc
                (zip (seq 0 (length (nodes g))) ds));
         degreeDistribution :=
           (WelshPowellAlgorithm.sort_desc
              (zip (seq 0 (length (nodes g))) ds)).*2 |}.
Proof.
  unfold WelshPowellAlgorithm.compute.
  destruct (degrees_from _ _) as [ds|x]; simpl; [|done].
  fold (greedy_initial g o). rewrite greedy_initial_initial_colors.
  destruct (color_in_order _ _ _ _) as [[|colors]|x] eqn:Hrun; simpl;
    [intros [= <-]; done| |done].
  destruct (to_output (nodes g) colors) as [a mx] eqn:Hout.
  intros [= <-] _. exists ds, colors. by rewrite Hout.
Qed.

Lemma DSATURAlgorithm_compute_run (g : Graph) (o : Options) r :
  compute g o = Ok r → valid r = true →
  ∃ degree colors,
    degrees_from (adjacency g) (seq 0 (length (nodes g))) = Ok degree ∧
    color_loop (adjacency g) (or_default (maxColors o) 4) degree
      (length (nodes g))
      (Z.to_nat (Z.of_nat (length (nodes g))
                 - initial_colored (default [] (constraints o))))
      (initial_colors g o) = Ok (Finished colors) ∧
    assignments r = (to_output (nodes g) colors).1 ∧
    chromatic r = ((to_output (nodes g) colors).2 + 1)%Z.
Proof.
  unfold compute.
  destruct (degrees_from _ _) as [ds|x]; simpl; [|done].
  fold (initial_colors g o).
  destruct (color_loop _ _ _ _ _ _) as [[|colors]|x] eqn:Hrun; simpl;
    [intros [= <-]; done| |done].
  destruct (to_output (nodes g) colors) as [a mx] eqn:Hout.
  intros [= <-] _. exists ds, colors. by rewrite Hout.
Qed.

(** What an iteration of DSATUR's loop that colors a node has done, and
    what a break means. *)
Lemma step_outcome_inv (g : Graph) (m : Z) (degree colors : list Z) out :
  square g →
  length degree = length (nodes g) → length colors = length (nodes g) →
  step (adjacency g) m degree (length (nodes g)) colors = Ok out →
  match out with
  | Break => ∀ i, i < length (nodes g) → colors !! i ≠ Some (-1)%Z
  | NoColor => True
  | Colored v c colors' =>
      v < length (nodes g) ∧ colors !! v = Some (-1)%Z ∧
      smallest_available (adjacency g) colors m v c ∧
      colors' = <[v := c]> colors
  end.
Proof.
  intros Hsq Hdeg Hcol.
  destruct (select_spec g colors degree Hsq Hcol Hdeg) as (best & Hsel & Hinv).
  unfold step. rewrite Hsel. simpl. case_bool_decide as Hchosen.
  - intros [= <-].
    destruct Hinv as [(_ & _ & Hnone)|(v & Hv & _)]; [done|lia].
  - destruct Hinv as [(Hv & _)|(v & Hv & Hvn & Hcv & _)]; [done|].
    rewrite Hv, Nat2Z.id.
    destruct (square_row g v Hsq Hvn) as (row & Hrow & Hlen).
    destruct (_getAvailableColors_spec (adjacency g) colors row v m Hrow Hlen)
      as (avail & -> & _ & Hcons).
    simpl. destruct avail as [|c rest]; intros [= <-]; [done|].
    split; [done|]. split; [done|]. split; [by eapply Hcons|done].
Qed.

Lemma uncolored_count_insert (colors : list Z) v c :
  colors !! v = Some (-1)%Z → c ≠ (-1)%Z →
  S (uncolored_count (<[v := c]> colors)) = uncolored_count colors.
Proof.
  intros Hv Hc. unfold uncolored_count.
  rewrite insert_take_drop by (by eapply lookup_lt_Some).
  rewrite <- (take_drop_middle colors v (-1)%Z Hv) at 3.
  rewrite !filter_app, !filter_cons, !length_app.
  rewrite decide_False by done. rewrite decide_True by done. simpl. lia.
Qed.

Lemma uncolored_count_zero (colors : list Z) :
  uncolored_count colors = 0 ↔ ∀ i, colors !! i ≠ Some (-1)%Z.
Proof.
  unfold uncolored_count. rewrite length_zero_iff_nil. split.
  - intros Hnil i Hi.
    assert ((-1)%Z ∈ filter (λ c, c = (-1)%Z) colors) as Hin.
    { apply list_elem_of_filter. split; [done|].
      by eapply list_elem_of_lookup_2. }
    rewrite Hnil in Hin. by apply not_elem_of_nil in Hin.
  - intros Hall.
    destruct (filter (λ c, c = (-1)%Z) colors) as [|c rest] eqn:Hf; [done|].
    assert (c ∈ filter (λ c, c = (-1)%Z) colors) as Hin
      by (rewrite Hf; left).
    apply list_elem_of_filter in Hin as [-> Hin].
    apply list_elem_of_lookup in Hin as [i Hi]. by destruct (Hall i).
Qed.

(** What a completed run of DSATUR's loop has done. *)
Lemma color_loop_finished (g : Graph) (m : Z) (degree : list Z)
    (remaining : nat) (colors colors' : list Z) :
  square g → symmetric (adjacency g) →
  length degree = length (nodes g) → length colors = length (nodes g) →
  color_loop (adjacency g) m degree (length (nodes g)) remaining colors
    = Ok (Finished colors') →
  length colors' = length (nodes g) ∧
  (∀ i c, colors !! i = Some c → c ≠ (-1)%Z → colors' !! i = Some c) ∧
  (uncolored_count colors ≤ remaining → uncolored_count colors' = 0) ∧
  (proper (adjacency g) colors → proper (adjacency g) colors') ∧
  (within m colors → within m colors').
Proof.
  intros Hsq Hsym Hdeg. revert colors.
  induction remaining as [|k IH]; intros colors Hlen; simpl.
  - intros [= <-]. split; [done|]. split; [done|]. split; [lia|done].
  - destruct (step (adjacency g) m degree (length (nodes g)) colors)
      as [out|x] eqn:Hstep; [|done].
    pose proof (step_outcome_inv g m degree colors out Hsq Hdeg Hlen Hstep)
      as Hout.
    simpl. destruct out as [| |v c colors1].
    + intros [= <-]. split; [done|]. split; [done|]. split; [|done].
      intros _. apply uncolored_count_zero. intros i Hi.
      apply (Hout i); [|done]. apply lookup_lt_Some in Hi. lia.
    + done.
    + destruct Hout as (Hv & Hcv & (Hc & Hfree & _) & ->).
      intros Hrun.
      destruct (IH (<[v := c]> colors)) as (Hl & Hkeep & Hcount & Hp & Hw);
        [by rewrite length_insert|done|].
      split; [done|]. split; [|split; [|split]].
      * intros i x Hi Hx. apply Hkeep; [|done].
        rewrite list_lookup_insert_ne; [done|]. intros ->. congruence.
      * intros Hle. apply Hcount.
        pose proof (uncolored_count_insert colors v c Hcv) as Hs. lia.
      * intros Hprop. apply Hp. by apply proper_insert.
      * intros Hwithin. apply Hw. by apply within_insert.
Qed.

End RunsOfTheHeuristics.

Section HeuristicGuarantees.

(** The color array behind a result reported valid, for any of the three
    heuristics. *)
Lemma heuristic_run (g : Graph) (o : Options) (r : ColorAssignment) :
  square g → symmetric (adjacency g) →
  heuristic_result g o r → valid r = true →
  ∃ colors,
    length colors = length (nodes g) ∧
    (∀ i c, initial_colors g o !! i = Some c → c ≠ (-1)%Z →
       colors !! i = Some c) ∧
    (proper (adjacency g) (initial_colors g o) →
       proper (adjacency g) colors) ∧
    (within (or_default (maxColors o) 4) (initial_colors g o) →
       within (or_default (maxColors o) 4) colors) ∧
    assignments r = (to_output (nodes g) colors).1 ∧
    chromatic r = ((to_output (nodes g) colors).2 + 1)%Z.
Proof.
  intros Hsq Hsym [Hr|[Hr|Hr]] Hvalid.
  - destruct (GreedyAlgorithm_compute_run g o r Hr Hvalid)
      as (colors & Hrun & Hasg & Hchr).
    assert (∀ i, i ∈ seq 0 (length (nodes g)) → i < length (nodes g))
      as Hord by (intros i Hi; apply elem_of_seq in Hi; lia).
    destruct (color_in_order_finished g _ _ _ colors Hsq Hsym Hord
                (initial_colors_length g o) Hrun)
      as (Hl & Hkeep & _ & Hp & Hw).
    by exists colors.
  - destruct (WelshPowellAlgorithm_compute_run g o r Hr Hvalid)
      as (ds & colors & Hds & Hrun & Hasg & Hchr & _).
    assert (∀ i,
      i ∈ (WelshPowellAlgorithm.sort_desc
             (zip (seq 0 (length (nodes g))) ds)).*1 →
      i < length (nodes g)) as Hord.
    { intros i Hi.
      rewrite welsh_powell_order_perm in Hi.
      - apply elem_of_seq in Hi. lia.
      - by rewrite (degrees_from_length _ _ _ Hds), length_seq. }
    destruct (color_in_order_finished g _ _ _ colors Hsq Hsym Hord
                (initial_colors_length g o) Hrun)
      as (Hl & Hkeep & _ & Hp & Hw).
    by exists colors.
  - destruct (DSATURAlgorithm_compute_run g o r Hr Hvalid)
      as (ds & colors & Hds & Hrun & Hasg & Hchr).
    assert (length ds = length (nodes g)) as Hdl
      by (by rewrite (degrees_from_length _ _ _ Hds), length_seq).
    destruct (color_loop_finished g _ ds _ _ colors Hsq Hsym Hdl
                (initial_colors_length g o) Hrun)
      as (Hl & Hkeep & _ & Hp & Hw).
    by exists colors.
Qed.

(** X6. On a graph that satisfies the adjacency invariant and has unique
    node identifiers, a result that Greedy, Welsh-Powell or DSATUR reports
    valid is accepted by the validator, provided the pinned colors
    themselves do not clash. *)
Theorem heuristic_valid_result_passes_validator (g : Graph) (o : Options)
    (r : ColorAssignment) :
  adjacency_model g → NoDup (Node.id <$> nodes g) →
  proper (adjacency g) (initial_colors g o) →
  heuristic_result g o r → valid r = true →
  validate g r = Ok true.
Proof.
  intros [Hsq Hsym] Hnd Hprop Hr Hvalid.
  destruct (heuristic_run g o r Hsq Hsym Hr Hvalid)
    as (colors & _ & _ & Hp & _ & Hasg & _).
  apply (proper_validates g colors r); [by destruct Hsq|done|by apply Hp|done].
Qed.


(** X8. When the pinned colors lie below [maxColors] (in particular when
    there are no constraints), every color of a result reported valid lies
    in [0, maxColors), and so does the reported count. *)
Theorem heuristic_colors_below_maxColors (g : Graph) (o : Options)
    (r : ColorAssignment) :
  adjacency_model g → NoDup (Node.id <$> nodes g) →
  within (or_default (maxColors o) 4) (initial_colors g o) →
  heuristic_result g o r → valid r = true →
  (∀ x c, assignments r !! x = Some c →
     (0 ≤ c < or_default (maxColors o) 4)%Z) ∧
  (0 ≤ chromatic r)%Z ∧
  (chromatic r ≤ Z.max 0 (or_default (maxColors o) 4))%Z.
Proof.
  intros [Hsq Hsym] Hnd Hwithin Hr Hvalid.
  destruct (heuristic_run g o r Hsq Hsym Hr Hvalid)
    as (colors & _ & _ & _ & Hw & Hasg & Hchr).
  specialize (Hw Hwithin).
  destruct (to_output_prefix (nodes g) colors (length (nodes g)) Hnd)
    as (Hlo & Hsound & _ & Hatt).
  fold (to_output (nodes g) colors) in Hlo, Hsound, Hatt.
  rewrite Hasg, Hchr. split; [|split; [lia|]].
  - intros x c Hx. destruct (Hsound x c Hx) as (j & _ & _ & _ & _ & Hc & Hne).
    by destruct (Hw j c Hc).
  - destruct Hatt as [->|(j & _ & _ & _ & Hc & Hne)]; [lia|].
    destruct (Hw j _ Hc); [done|lia].
Qed.

End HeuristicGuarantees.

Section EveryNodeColored.

(** When no position is left uncolored, the mapping's keys are the node
    identifiers. *)
Lemma to_output_keys (ns : list Node.t) (colors : list Z) :
  NoDup (Node.id <$> ns) → length colors = length ns →
  (∀ i, i < length ns → colors !! i ≠ Some (-1)%Z) →
  ∀ x, is_Some ((to_output ns colors).1 !! x) ↔ x ∈ Node.id <$> ns.
Proof.
  intros Hnd Hlen Hall x. unfold to_output.
  destruct (to_output_prefix ns colors (length ns) Hnd)
    as (_ & Hsound & Hcompl & _).
  split.
  - intros [c Hx]. destruct (Hsound x c Hx) as (i & nd & _ & Hi & <- & _).
    apply list_elem_of_fmap. exists nd. split; [done|].
    by eapply list_elem_of_lookup_2.
  - intros Hx. apply list_elem_of_fmap in Hx as (nd & -> & Hin).
    apply list_elem_of_lookup in Hin as [i Hi].
    pose proof (lookup_lt_Some _ _ _ Hi) as Hlt.
    destruct (lookup_lt_is_Some_2 colors i) as [c Hc]; [lia|].
    exists c. apply (Hcompl i nd c); [done..|].
    intros ->. by apply (Hall i).
Qed.



End EveryNodeColored.

Section DegreeBound.

Import DSATURAlgorithm.

Lemma filter_length_mono {A} (P Q : A → Prop) `{!∀ x, Decision (P x)}
    `{!∀ x, Decision (Q x)} (l : list A) :
  (∀ x, P x → Q x) → length (filter P l) ≤ length (filter Q l).
Proof.
  intros HPQ. induction l as [|x l IH]; [done|].
  rewrite !filter_cons. destruct (decide (P x)) as [HP|HP].
  - rewrite decide_True by auto. simpl. lia.
  - destruct (decide (Q x)); simpl; lia.
Qed.

(** A vertex with fewer neighbors than [m] has a color left among the
    first [m]. *)
Lemma available_color_exists (adj : list (list Z)) (colors row : list Z)
    (v : nat) (m : Z) :
  adj !! v = Some row →
  (Z.of_nat (neighbor_count adj v) < m)%Z →
  ∃ c rest, _getAvailableColors v colors adj m = Ok (c :: rest).
Proof.
  intros Hrow Hdeg. unfold _getAvailableColors, row_of. rewrite Hrow. simpl.
  destruct (filter _ (color_range m)) as [|c rest] eqn:Hf; [|by eauto].
  exfalso.
  set (L := filter (λ i, row !! i = Some 1%Z ∧ colors !! i ≠ Some (-1)%Z)
              (seq 0 (length adj))).
  assert (Some <$> color_range m ⊆+ (λ i, colors !! i) <$> L) as Hsub.
  { apply NoDup_submseteq.
    - unfold color_range. apply NoDup_fmap_2; [apply _|].
      apply NoDup_fmap_2; [apply _|]. apply NoDup_seq.
    - intros x Hx. apply list_elem_of_fmap in Hx as (c & -> & Hc).
      destruct (decide
        (Some c ∈ neighborColors row colors (length adj))) as [Hin|Hout].
      + unfold neighborColors in Hin. by apply elem_of_list_to_set in Hin.
      + exfalso. eapply (filter_nil_not_elem_of _ _ c Hf); [|done]. done. }
  apply submseteq_length in Hsub. rewrite !length_fmap in Hsub.
  unfold color_range in Hsub. rewrite length_fmap, length_seq in Hsub.
  assert (length L ≤ neighbor_count adj v) as HL.
  { unfold L, neighbor_count. apply filter_length_mono.
    intros i [Hi _]. unfold entry. by rewrite Hrow. }
  lia.
Qed.

Lemma color_in_order_degree_bound (g : Graph) (m : Z) (order : list nat)
    (colors : list Z) :
  square g →
  (∀ v, v < length (nodes g) →
     (Z.of_nat (neighbor_count (adjacency g) v) < m)%Z) →
  (∀ i, i ∈ order → i < length (nodes g)) →
  ∃ colors',
    color_in_order (adjacency g) m order colors = Ok (Finished colors').
Proof.
  intros Hsq Hdeg. revert colors.
  induction order as [|v rest IH]; intros colors Hord; simpl; [by eexists|].
  assert (∀ i, i ∈ rest → i < length (nodes g)) as Hrest.
  { intros i Hi. apply Hord. by right. }
  assert (v < length (nodes g)) as Hv by (apply Hord; by left).
  case_bool_decide; [|by apply IH].
  destruct (square_row g v Hsq Hv) as (row & Hrow & _).
  destruct (available_color_exists (adjacency g) colors row v m Hrow
              (Hdeg v Hv)) as (c & l & ->).
  simpl. by apply IH.
Qed.

Lemma color_loop_degree_bound (g : Graph) (m : Z) (degree : list Z)
    (remaining : nat) (colors : list Z) :
  square g →
  (∀ v, v < length (nodes g) →
     (Z.of_nat (neighbor_count (adjacency g) v) < m)%Z) →
  length degree = length (nodes g) → length colors = length (nodes g) →
  ∃ colors',
    color_loop (adjacency g) m degree (length (nodes g)) remaining colors
      = Ok (Finished colors').
Proof.
  intros Hsq Hdeg Hdl. revert colors.
  induction remaining as [|k IH]; intros colors Hlen; simpl; [by eexists|].
  destruct (select_spec g colors degree Hsq Hlen Hdl) as (best & Hsel & Hinv).
  unfold step. rewrite Hsel. simpl. case_bool_decide as Hchosen.
  - simpl. by eexists.
  - destruct Hinv as [(Hv & _)|(v & Hv & Hvn & _)]; [done|].
    rewrite Hv, Nat2Z.id.
    destruct (square_row g v Hsq Hvn) as (row & Hrow & _).
    destruct (available_color_exists (adjacency g) colors row v m Hrow
                (Hdeg v Hvn)) as (c & l & ->).
    simpl. apply IH. by rewrite length_insert.
Qed.

(** X11. On a square matrix where every node has fewer neighbors than
    [maxColors], none of the three heuristics gives up or throws: each
    returns a result with [valid = true], whatever the constraints. *)
Theorem heuristics_succeed_below_degree_bound (g : Graph) (o : Options) :
  square g →
  (∀ v, v < length (nodes g) →
     (Z.of_nat (neighbor_count (adjacency g) v)
      < or_default (maxColors o) 4)%Z) →
  (∃ r, GreedyAlgorithm.compute g o = Ok r ∧ valid r = true) ∧
  (∃ r, WelshPowellAlgorithm.compute g o = Ok r ∧ valid r = true) ∧
  (∃ r, DSATURAlgorithm.compute g o = Ok r ∧ valid r = true).
Proof.
  intros Hsq Hdeg.
  assert (∃ ds, degrees_from (adjacency g) (seq 0 (length (nodes g))) = Ok ds)
    as [ds Hds].
  { apply degrees_from_returns. intros i Hi. apply elem_of_seq in Hi.
    destruct Hsq as [-> _]. lia. }
  assert (length ds = length (nodes g)) as Hdl
    by (by rewrite (degrees_from_length _ _ _ Hds), length_seq).
  split; [|split].
  - rewrite compute_greedy_after. unfold greedy_after.
    destruct (color_in_order_degree_bound g _ (seq 0 (length (nodes g)))
                (greedy_initial g o) Hsq Hdeg) as [colors ->].
    { intros i Hi. apply elem_of_seq in Hi. lia. }
    simpl. by eexists.
  - unfold WelshPowellAlgorithm.compute. rewrite Hds. simpl.
    destruct (color_in_order_degree_bound g (or_default (maxColors o) 4)
                (WelshPowellAlgorithm.sort_desc
                   (zip (seq 0 (length (nodes g))) ds)).*1
                (greedy_initial g o) Hsq Hdeg) as [colors Hrun].
    { intros i Hi. rewrite welsh_powell_order_perm in Hi by done.
      apply elem_of_seq in Hi. lia. }
    unfold greedy_initial in Hrun. rewrite Hrun. simpl.
    destruct (to_output (nodes g) colors). by eexists.
  - unfold compute. rewrite Hds. simpl.
    destruct (color_loop_degree_bound g (or_default (maxColors o) 4) ds
                (Z.to_nat (Z.of_nat (length (nodes g))
                   - initial_colored (default [] (constraints o))))
                (initial_colors g o) Hsq Hdeg Hdl
                (initial_colors_length g o)) as [colors Hrun].
    unfold initial_colors in Hrun. rewrite Hrun. simpl.
    destruct (to_output (nodes g) colors). by eexists.
Qed.

End DegreeBound.

(** ** Welsh-Powell: the order of the visit *)

Section WelshPowellOrder.

Import WelshPowellAlgorithm.

Lemma StronglySorted_lookup {A} (R : relation A) (l : list A) i j x y :
  StronglySorted R l → i < j → l !! i = Some x → l !! j = Some y → R x y.
Proof.
  intros Hs. revert i j. induction Hs as [|a l Hs IH Hall]; intros i j Hij.
  - by intros ?.
  - destruct j as [|j]; [lia|]. destruct i as [|i]; simpl.
    + intros [= <-] Hj. rewrite Forall_forall in Hall.
      apply Hall. by eapply list_elem_of_lookup_2.
    + apply IH. lia.
Qed.

Lemma zip_seq_sorted (j n : nat) (ds : list Z) :
  StronglySorted (λ a b : nat * Z, a.1 < b.1) (zip (seq j n) ds).
Proof.
  revert j ds. induction n as [|n IH]; intros j ds; simpl; [constructor|].
  destruct ds as [|d ds]; [constructor|]. constructor; [apply IH|].
  apply Forall_forall. intros [p a] Hin. apply elem_of_zip_l in Hin.
  apply elem_of_seq in Hin. simpl. lia.
Qed.

Lemma insert_desc_sorted (x : nat * Z) (l : list (nat * Z)) :
  StronglySorted degree_order l → Forall (λ y, x.1 < y.1) l →
  StronglySorted degree_order (insert_desc x l).
Proof.
  intros Hs. induction Hs as [|y l Hs IH Hall]; intros Hx; simpl.
  - repeat constructor.
  - apply Forall_cons in Hx as [Hxy Hx].
    destruct (Z.gtb_spec y.2 x.2) as [Hgt|Hle].
    + constructor; [by apply IH|].
      apply Forall_forall. intros z Hz.
      rewrite insert_desc_perm in Hz. apply elem_of_cons in Hz as [->|Hz].
      * left. lia.
      * rewrite Forall_forall in Hall. by apply Hall.
    + constructor; [by constructor|].
      apply Forall_cons. split.
      * unfold degree_order. lia.
      * rewrite Forall_forall in Hall, Hx. apply Forall_forall. intros z Hz.
        specialize (Hall z Hz). specialize (Hx z Hz).
        unfold degree_order in *. lia.
Qed.

(** The sort puts higher degrees first and keeps the input order among
    equal degrees. *)
Lemma sort_desc_sorted (l : list (nat * Z)) :
  StronglySorted (λ a b : nat * Z, a.1 < b.1) l →
  StronglySorted degree_order (sort_desc l).
Proof.
  unfold sort_desc. induction 1 as [|x l Hs IH Hall]; simpl; [constructor|].
  apply insert_desc_sorted; [done|].
  fold (sort_desc l). by rewrite sort_desc_perm.
Qed.

Lemma omap_lookup_seq {A B} (f : A → B) (pre l : list A) :
  omap (λ i, f <$> (pre ++ l) !! i) (seq (length pre) (length l)) = f <$> l.
Proof.
  revert pre. induction l as [|x l IH]; intros pre; [done|].
  simpl. rewrite list_lookup_middle by done. simpl.
  f_equal. specialize (IH (pre ++ [x])).
  rewrite length_app, <- (assoc_L (++)) in IH. simpl in IH.
  by rewrite Nat.add_1_r in IH.
Qed.

(** X12. The metadata of a Welsh-Powell result: [vertexOrder] lists the
    node identifiers in the order of the visit, which is a rearrangement
    of all positions; [degreeDistribution] gives, position by position, the
    row sum of the node visited; the visit goes by higher row sum first
    and, among equal sums, by lower position first. *)
Theorem WelshPowell_metadata_order (g : Graph) (o : Options)
    (r : ColorAssignment) :
  compute g o = Ok r → valid r = true →
  ∃ md order,
    metadata r = Some md ∧
    order ≡ₚ seq 0 (length (nodes g)) ∧
    vertexOrder md = omap (λ i, Node.id <$> nodes g !! i) order ∧
    vertexOrder md ≡ₚ Node.id <$> nodes g ∧
    length (degreeDistribution md) = length (nodes g) ∧
    (∀ k p, order !! k = Some p →
       ∃ a, degreeDistribution md !! k = Some a ∧
            degree_of (adjacency g) p = Ok a) ∧
    (∀ k l p q a b, k < l →
       order !! k = Some p → order !! l = Some q →
       degreeDistribution md !! k = Some a →
       degreeDistribution md !! l = Some b →
       degree_order (p, a) (q, b)).
Proof.
  intros Hr Hvalid.
  destruct (WelshPowellAlgorithm_compute_run g o r Hr Hvalid)
    as (ds & colors & Hds & _ & _ & _ & Hmd).
  set (sorted := sort_desc (zip (seq 0 (length (nodes g))) ds)) in *.
  assert (length ds = length (nodes g)) as Hdl
    by (by rewrite (degrees_from_length _ _ _ Hds), length_seq).
  assert (sorted.*1 ≡ₚ seq 0 (length (nodes g))) as Hperm
    by (by apply welsh_powell_order_perm).
  assert (omap (λ d : nat * Z, Node.id <$> nodes g !! d.1) sorted
          = omap (λ i, Node.id <$> nodes g !! i) sorted.*1) as Hvo.
  { generalize sorted. intros l. induction l as [|d l IH]; [done|].
    rewrite fmap_cons. simpl.
    destruct (nodes g !! d.1); simpl; by f_equal. }
  eexists _, sorted.*1. split; [exact Hmd|]. simpl.
  split; [done|]. split; [done|]. split; [|split; [|split]].
  - rewrite Hvo, Hperm.
    apply (reflexive_eq (R := (≡ₚ))), (omap_lookup_seq Node.id [] (nodes g)).
  - rewrite length_fmap.
    by rewrite <- (length_fmap fst), Hperm, length_seq.
  - intros k p Hk. rewrite list_lookup_fmap in Hk.
    destruct (sorted !! k) as [[p' a]|] eqn:Hsk; [|done].
    simpl in Hk. injection Hk as ->.
    exists a. split; [by rewrite list_lookup_fmap, Hsk|].
    assert ((p, a) ∈ zip (seq 0 (length (nodes g))) ds) as Hin.
    { rewrite <- sort_desc_perm. by eapply list_elem_of_lookup_2. }
    apply elem_of_lookup_zip_with in Hin as (i & x & y & [= -> ->] & Hx & Hy).
    apply lookup_seq in Hx as [Hxi _]. simpl in Hxi, Hy. subst x.
    destruct (degrees_from_lookup _ _ _ i i Hds) as (row & Hrow & Hd).
    { apply lookup_seq. split; [done|]. apply lookup_lt_Some in Hy. lia. }
    unfold degree_of. rewrite Hrow. congruence.
  - intros k l p q a b Hkl Hk Hl Ha Hb.
    rewrite list_lookup_fmap in Hk. rewrite list_lookup_fmap in Hl.
    rewrite list_lookup_fmap in Ha. rewrite list_lookup_fmap in Hb.
    destruct (sorted !! k) as [[p' a']|] eqn:Hsk; [|done].
    destruct (sorted !! l) as [[q' b']|] eqn:Hsl; [|done].
    simpl in *. simplify_eq.
    apply (StronglySorted_lookup degree_order sorted k l); [|done..].
    apply sort_desc_sorted, zip_seq_sorted.
Qed.

End WelshPowellOrder.

(** ** The engine: the matrix built on load, and the neighbors read off it *)

Section MatrixEntries.

Lemma add_edge_entry n (idx : gmap string nat) (m : list (list Z)) e i j :
  (∀ x k, idx !! x = Some k → k < n) → dims n m →
  (entry m i j = Some 1%Z ∨ linked idx [e] i j →
     entry (add_edge idx m e) i j = Some 1%Z) ∧
  (¬ linked idx [e] i j → entry (add_edge idx m e) i j = entry m i j).
Proof.
  intros Hidx Hd. unfold add_edge.
  destruct (idx !! Edge.source e) as [a|] eqn:Ha;
    [destruct (idx !! Edge.target e) as [b|] eqn:Hb|].
  - pose proof (Hidx _ _ Ha). pose proof (Hidx _ _ Hb).
    rewrite !(entry_set_cell n) by auto using set_cell_dims.
    split.
    + intros [Hone|(e' & He' & Hl)].
      * by repeat case_decide.
      * apply list_elem_of_singleton in He' as ->.
        rewrite Ha, Hb in Hl.
        destruct Hl as [[[= ->] [= ->]]|[[= ->] [= ->]]].
        -- case_decide; [done|]. rewrite decide_True; done.
        -- rewrite decide_True; done.
    + intros Hno. rewrite decide_False.
      * rewrite decide_False; [done|]. intros [-> ->]. apply Hno.
        exists e. split; [by left|]. left. by rewrite Ha, Hb.
      * intros [-> ->]. apply Hno.
        exists e. split; [by left|]. right. by rewrite Ha, Hb.
  - split; [|done]. intros [Hone|(e' & He' & Hl)]; [done|].
    apply list_elem_of_singleton in He' as ->. rewrite Ha, Hb in Hl.
    by destruct Hl as [[_ ?]|[_ ?]].
  - split; [|done]. intros [Hone|(e' & He' & Hl)]; [done|].
    apply list_elem_of_singleton in He' as ->. rewrite Ha in Hl.
    by destruct Hl as [[? _]|[? _]].
Qed.

Lemma linked_cons idx e es i j :
  linked idx (e :: es) i j ↔ linked idx [e] i j ∨ linked idx es i j.
Proof.
  split.
  - intros (e' & He' & Hl). apply elem_of_cons in He' as [->|He'].
    + left. exists e. split; [by left|done].
    + right. by exists e'.
  - intros [(e' & He' & Hl)|(e' & He' & Hl)].
    + apply list_elem_of_singleton in He' as ->. exists e. split; [by left|done].
    + exists e'. split; [by right|done].
Qed.

Lemma foldl_add_edge_entry n (idx : gmap string nat) es (m : list (list Z))
    i j :
  (∀ x k, idx !! x = Some k → k < n) → dims n m →
  (entry m i j = Some 1%Z ∨ linked idx es i j →
     entry (foldl (add_edge idx) m es) i j = Some 1%Z) ∧
  (¬ linked idx es i j →
     entry (foldl (add_edge idx) m es) i j = entry m i j).
Proof.
  intros Hidx. revert m. induction es as [|e es IH]; intros m Hd; simpl.
  - split; [|done]. intros [Hone|(e & He & _)]; [done|].
    by apply not_elem_of_nil in He.
  - destruct (add_edge_entry n idx m e i j Hidx Hd) as [H1 H2].
    destruct (IH (add_edge idx m e) (add_edge_dims n idx m e Hd))
      as [IH1 IH2].
    split.
    + rewrite linked_cons. intros [Hone|[Hl|Hl]]; apply IH1; auto.
    + rewrite linked_cons. intros Hno.
      rewrite IH2 by tauto. apply H2. tauto.
Qed.

(** With unique identifiers, the index map sends an identifier to the
    position of the node that carries it. *)
Lemma nodeIndexMap_lookup (ns : list Node.t) i a x :
  NoDup (Node.id <$> ns) → ns !! i = Some a →
  nodeIndexMap ns !! x = Some i ↔ x = Node.id a.
Proof.
  intros Hnd Hi. split.
  - intros Hx. apply nodeIndexMap_Some in Hx as (nd & Hnd' & <-). congruence.
  - intros ->. destruct (nodeIndexMap ns !! Node.id a) as [k|] eqn:Hk.
    + apply nodeIndexMap_Some in Hk as (nd & Hk & Hid). f_equal.
      apply (NoDup_lookup (Node.id <$> ns) k i (Node.id a) Hnd).
      * by rewrite list_lookup_fmap, Hk, <- Hid.
      * by rewrite list_lookup_fmap, Hi.
    + exfalso. rewrite nodeIndexMap_None in Hk.
      eapply Hk; [|done]. by eapply list_elem_of_lookup_2.
Qed.

Lemma linked_joins (ns : list Node.t) es i j a b :
  NoDup (Node.id <$> ns) → ns !! i = Some a → ns !! j = Some b →
  linked (nodeIndexMap ns) es i j ↔ joins es (Node.id a) (Node.id b).
Proof.
  intros Hnd Hi Hj. unfold linked, joins.
  setoid_rewrite (nodeIndexMap_lookup ns i a _ Hnd Hi).
  setoid_rewrite (nodeIndexMap_lookup ns j b _ Hnd Hj).
  done.
Qed.

Lemma linked_dec idx es i j : linked idx es i j ∨ ¬ linked idx es i j.
Proof.
  induction es as [|e es IH].
  - right. intros (e & He & _). by apply not_elem_of_nil in He.
  - rewrite linked_cons.
    destruct (decide
      ((idx !! Edge.source e = Some i ∧ idx !! Edge.target e = Some j) ∨
       (idx !! Edge.source e = Some j ∧ idx !! Edge.target e = Some i)))
      as [Hl|Hno].
    + left. left. exists e. split; [by left|done].
    + destruct IH as [IH|IH]; [by left; right|]. right.
      intros [(e' & He' & Hl)|Hl]; [|done].
      apply list_elem_of_singleton in He' as ->. done.
Qed.

Lemma _buildAdjacencyMatrix_entry_cases (ns : list Node.t)
    (es : list Edge.t) (i j : nat) (a b : Node.t) :
  NoDup (Node.id <$> ns) → ns !! i = Some a → ns !! j = Some b →
  (joins es (Node.id a) (Node.id b) ∧
     entry (_buildAdjacencyMatrix ns es) i j = Some 1%Z) ∨
  (¬ joins es (Node.id a) (Node.id b) ∧
     entry (_buildAdjacencyMatrix ns es) i j = Some 0%Z).
Proof.
  intros Hnd Hi Hj. unfold _buildAdjacencyMatrix. cbv zeta.
  destruct (foldl_add_edge_entry (length ns) (nodeIndexMap ns) es
              (replicate (length ns) (replicate (length ns) 0%Z)) i j)
    as [H1 H2].
  { intros x k Hk. apply nodeIndexMap_Some in Hk as (nd & Hk & _).
    by eapply lookup_lt_Some. }
  { apply replicate_dims. }
  rewrite <- (linked_joins ns es i j a b Hnd Hi Hj).
  destruct (linked_dec (nodeIndexMap ns) es i j) as [Hl|Hno].
  - left. split; [done|]. apply H1. by right.
  - right. split; [done|]. rewrite (H2 Hno), entry_replicate.
    rewrite decide_True; [done|].
    split; by eapply lookup_lt_Some.
Qed.

(** X13. With unique node identifiers, the matrix built on load holds 1
    at the positions of two nodes exactly when some edge joins their
    identifiers, in either direction, and 0 otherwise. *)
Theorem _buildAdjacencyMatrix_entries (ns : list Node.t) (es : list Edge.t)
    (i j : nat) (a b : Node.t) :
  NoDup (Node.id <$> ns) → ns !! i = Some a → ns !! j = Some b →
  (entry (_buildAdjacencyMatrix ns es) i j = Some 1%Z ↔
     joins es (Node.id a) (Node.id b)) ∧
  (entry (_buildAdjacencyMatrix ns es) i j = Some 0%Z ↔
     ¬ joins es (Node.id a) (Node.id b)).
Proof.
  intros Hnd Hi Hj.
  destruct (_buildAdjacencyMatrix_entry_cases ns es i j a b Hnd Hi Hj)
    as [[Hjoin ->]|[Hno ->]].
  - split; [done|]. split; [done|]. by intros ?.
  - split; [|done]. split; [done|]. by intros ?.
Qed.

End MatrixEntries.

Section Neighbors.

Import TheoremEngine.

Lemma findIndex_from_found (ns : list Node.t) (x : string) (k : Z) i a :
  ns !! i = Some a → Node.id a = x →
  (∀ j nd, j < i → ns !! j = Some nd → Node.id nd ≠ x) →
  findIndex_from ns x k = (k + Z.of_nat i)%Z.
Proof.
  revert k i. induction ns as [|nd ns IH]; intros k i Hi Hid Hfirst; [done|].
  simpl. destruct i as [|i]; simpl in Hi.
  - injection Hi as ->. rewrite bool_decide_eq_true_2 by done. lia.
  - rewrite bool_decide_eq_false_2 by (apply (Hfirst 0 nd); [lia|done]).
    rewrite (IH (k + 1)%Z i Hi Hid); [lia|].
    intros j nd' Hj. apply (Hfirst (S j) nd'). lia.
Qed.

Lemma findIndex_NoDup (ns : list Node.t) i a :
  NoDup (Node.id <$> ns) → ns !! i = Some a →
  findIndex ns (Node.id a) = Z.of_nat i.
Proof.
  intros Hnd Hi. unfold findIndex.
  rewrite (findIndex_from_found ns (Node.id a) 0 i a Hi eq_refl); [lia|].
  intros j nd Hj Hjn Heq.
  assert (j = i); [|lia].
  apply (NoDup_lookup (Node.id <$> ns) j i (Node.id a) Hnd).
  - by rewrite list_lookup_fmap, Hjn, <- Heq.
  - by rewrite list_lookup_fmap, Hi.
Qed.

Lemma getNeighbors_unknown (e : Engine) (g : Graph) (x : string) :
  currentGraph e = Some g → x ∉ Node.id <$> nodes g →
  getNeighbors e x = Ok [].
Proof.
  intros Hg Hx. unfold getNeighbors. rewrite Hg. unfold findIndex.
  rewrite findIndex_from_unknown; [done|].
  intros nd Hin <-. apply Hx, list_elem_of_fmap. by exists nd.
Qed.

Lemma getNeighbors_found (e : Engine) (g : Graph) i a :
  currentGraph e = Some g → length (adjacency g) = length (nodes g) →
  NoDup (Node.id <$> nodes g) → nodes g !! i = Some a →
  ∃ l, getNeighbors e (Node.id a) = Ok l ∧
       ∀ y, y ∈ l ↔
         ∃ j b, nodes g !! j = Some b ∧ Node.id b = y ∧
                adjacent (adjacency g) i j.
Proof.
  intros Hg Hlen Hnd Hi. unfold getNeighbors. rewrite Hg.
  rewrite (findIndex_NoDup _ i a Hnd Hi).
  rewrite bool_decide_eq_false_2 by lia. rewrite Nat2Z.id.
  pose proof (lookup_lt_Some _ _ _ Hi) as Hlt.
  destruct (lookup_lt_is_Some_2 (adjacency g) i) as [row Hrow]; [lia|].
  rewrite Hrow. eexists. split; [done|]. intros y.
  rewrite list_elem_of_omap. unfold adjacent, entry. rewrite Hrow. split.
  - intros (j & Hj & Hf). case_bool_decide as Hone; [|done].
    destruct (nodes g !! j) as [b|] eqn:Hb; [|done].
    injection Hf as <-. by exists j, b.
  - intros (j & b & Hb & <- & Hone). exists j. split.
    + apply elem_of_seq. apply lookup_lt_Some in Hb. lia.
    + rewrite bool_decide_eq_true_2 by done. by rewrite Hb.
Qed.

(** X14. On a loaded graph with one matrix row per node and unique
    identifiers, [getNeighbors] of a node's identifier returns the
    identifiers of the nodes whose entry in that node's row is 1, and the
    empty list for an identifier that no node carries. *)
Theorem getNeighbors_reads_the_row (e : Engine) (g : Graph) :
  currentGraph e = Some g → length (adjacency g) = length (nodes g) →
  NoDup (Node.id <$> nodes g) →
  (∀ x, x ∉ Node.id <$> nodes g → getNeighbors e x = Ok []) ∧
  (∀ i a, nodes g !! i = Some a →
     ∃ l, getNeighbors e (Node.id a) = Ok l ∧
          ∀ y, y ∈ l ↔
            ∃ j b, nodes g !! j = Some b ∧ Node.id b = y ∧
                   adjacent (adjacency g) i j).
Proof.
  intros Hg Hlen Hnd. split.
  - intros x. by apply getNeighbors_unknown.
  - intros i a. by apply getNeighbors_found.
Qed.

(** X15. After [loadGraph] of a graph without a matrix and with unique
    node identifiers, [getNeighbors(x)] returns exactly the node
    identifiers that an edge joins to [x], in either direction; it is
    empty when [x] is not a node. *)
Theorem getNeighbors_after_loadGraph (e : Engine) (gi : GraphInput)
    (x : string) :
  in_adjacency gi = None → NoDup (Node.id <$> in_nodes gi) →
  ∃ l, getNeighbors (loadGraph e gi) x = Ok l ∧
       ∀ y, y ∈ l ↔
         x ∈ Node.id <$> in_nodes gi ∧ y ∈ Node.id <$> in_nodes gi ∧
         joins (in_edges gi) x y.
Proof.
  intros Hnone Hnd.
  set (g := _preprocessGraph gi).
  assert (currentGraph (loadGraph e gi) = Some g) as Hg by done.
  assert (nodes g = in_nodes gi) as Hns by done.
  assert (adjacency g = _buildAdjacencyMatrix (in_nodes gi) (in_edges gi))
    as Hadj by (unfold g, _preprocessGraph; simpl; by rewrite Hnone).
  destruct (decide (x ∈ Node.id <$> in_nodes gi)) as [Hx|Hx].
  - apply list_elem_of_fmap in Hx as (a & -> & Hin).
    apply list_elem_of_lookup in Hin as [i Hi].
    destruct (getNeighbors_found (loadGraph e gi) g i a Hg) as (l & -> & Hl).
    { rewrite Hadj, Hns.
      by destruct (_buildAdjacencyMatrix_square_symmetric
                     (in_nodes gi) (in_edges gi)) as [[? _] _]. }
    { by rewrite Hns. }
    { by rewrite Hns. }
    exists l. split; [done|]. intros y. rewrite Hl, Hns, Hadj. split.
    + intros (j & b & Hb & <- & Hone).
      split; [apply list_elem_of_fmap; exists a; split; [done|];
              by eapply list_elem_of_lookup_2|].
      split; [apply list_elem_of_fmap; exists b; split; [done|];
              by eapply list_elem_of_lookup_2|].
      destruct (_buildAdjacencyMatrix_entry_cases (in_nodes gi) (in_edges gi)
                  i j a b Hnd Hi Hb) as [[Hj _]|[_ Hzero]]; [done|].
      unfold adjacent in Hone. congruence.
    + intros (_ & Hy & Hj).
      apply list_elem_of_fmap in Hy as (b & -> & Hin).
      apply list_elem_of_lookup in Hin as [j Hb].
      exists j, b. split; [done|]. split; [done|].
      destruct (_buildAdjacencyMatrix_entry_cases (in_nodes gi) (in_edges gi)
                  i j a b Hnd Hi Hb) as [[_ Hone]|[Hno _]]; [done|].
      by destruct Hno.
  - exists []. split; [by apply (getNeighbors_unknown _ g)|].
    intros y. split; [by intros ?%not_elem_of_nil|]. by intros [? _].
Qed.

End Neighbors.

Section ValidatorReads.

Lemma conflict_ext (ns : list Node.t) (row : list Z) (a a' : gmap string Z)
    (i j : nat) :
  (∀ nd, nd ∈ ns → a !! Node.id nd = a' !! Node.id nd) →
  conflict ns row a i j = conflict ns row a' i j.
Proof.
  intros Hagree. unfold conflict.
  destruct (ns !! i) as [n1|] eqn:H1; [|done].
  destruct (ns !! j) as [n2|] eqn:H2; [|done].
  rewrite (Hagree n1) by (by eapply list_elem_of_lookup_2).
  by rewrite (Hagree n2) by (by eapply list_elem_of_lookup_2).
Qed.

Lemma validate_from_ext (ns : list Node.t) (adj : list (list Z))
    (a a' : gmap string Z) (i fuel : nat) :
  (∀ nd, nd ∈ ns → a !! Node.id nd = a' !! Node.id nd) →
  validate_from ns adj a i fuel = validate_from ns adj a' i fuel.
Proof.
  intros Hagree. revert i. induction fuel as [|fuel IH]; intros i; [done|].
  cbn [validate_from]. rewrite IH.
  destruct (seq (S i) (length ns - S i)) as [|j js]; [done|].
  destruct (adj !! i) as [row|]; [|done].
  assert (∀ l, existsb (conflict ns row a i) l
               = existsb (conflict ns row a' i) l) as ->; [|done].
  intros l. induction l as [|k l IHl]; [done|].
  simpl. by rewrite IHl, (conflict_ext ns row a a' i k Hagree).
Qed.

(** X16. The validator reads a coloring only through the colors it gives
    to the node identifiers: two colorings that agree there get the same
    verdict, whatever else their mappings hold and whatever their palette,
    count and validity flag say. *)
Theorem validateColoring_reads_node_colors_only (e : Engine) (g : Graph)
    (c c' : ColorAssignment) :
  currentGraph e = Some g →
  (∀ nd, nd ∈ nodes g →
     assignments c !! Node.id nd = assignments c' !! Node.id nd) →
  TheoremEngine.validateColoring e (Some c)
    = TheoremEngine.validateColoring e (Some c').
Proof.
  intros Hg Hagree. unfold TheoremEngine.validateColoring. rewrite Hg.
  unfold validate. by apply validate_from_ext.
Qed.

End ValidatorReads.

Section ComputeThenValidate.

Variable backtracking_compute : Graph → Options → result ColorAssignment.

Lemma _selectAlgorithm_heuristic (name : option string) :
  name ≠ Some "backtracking"%string →
  TheoremEngine._selectAlgorithm backtracking_compute name
    = GreedyAlgorithm.compute ∨
  TheoremEngine._selectAlgorithm backtracking_compute name
    = WelshPowellAlgorithm.compute ∨
  TheoremEngine._selectAlgorithm backtracking_compute name
    = DSATURAlgorithm.compute.
Proof.
  intros Hne. unfold TheoremEngine._selectAlgorithm.
  repeat case_match; subst; try (by destruct Hne); auto.
Qed.

(** X17. On a loaded graph that satisfies the adjacency invariant and has
    unique node identifiers, a coloring that [computeColoring] returns with
    [valid = true] from Greedy, Welsh-Powell or DSATUR becomes the current
    coloring, and [validateColoring()] then answers true, provided the
    pinned colors themselves do not clash. *)
Theorem computeColoring_then_validateColoring (e e' : Engine) (g : Graph)
    (o : Options) (now : Z) (c : ColorAssignment) :
  currentGraph e = Some g → adjacency_model g →
  NoDup (Node.id <$> nodes g) →
  algorithm o ≠ Some "backtracking"%string →
  proper (adjacency g) (initial_colors g o) →
  TheoremEngine.computeColoring backtracking_compute e o now = (Ok c, e') →
  valid c = true →
  currentColoring e' = Some c ∧
  TheoremEngine.validateColoring e' None = Ok true.
Proof.
  intros Hg [Hsq Hsym] Hnd Halg Hprop Hrun Hvalid.
  unfold TheoremEngine.computeColoring in Hrun. rewrite Hg in Hrun.
  destruct (TheoremEngine._selectAlgorithm backtracking_compute
              (algorithm o) g o) as [c0|x] eqn:Hsel; [|done].
  injection Hrun as -> <-.
  split; [done|].
  unfold TheoremEngine.validateColoring. simpl. rewrite Hg.
  assert (heuristic_result g o c) as Hres.
  { unfold heuristic_result.
    destruct (_selectAlgorithm_heuristic (algorithm o) Halg) as [H|[H|H]];
      rewrite H in Hsel; auto. }
  destruct (heuristic_run g o c Hsq Hsym Hres Hvalid)
    as (colors & _ & _ & Hp & _ & Hasg & _).
  apply (proper_validates g colors c); [by destruct Hsq|done|by apply Hp|done].
Qed.

(** X18. [getChromaticNumber] answers 0 exactly when no graph is loaded;
    otherwise it answers the first [k] among 1, 2, 3 for which the
    backtracking search reports a valid coloring with [maxColors = k], and
    4 when there is none, whether or not four colors were found to
    suffice. *)
Theorem getChromaticNumber_first_valid (e : Engine) (k : Z) :
  TheoremEngine.getChromaticNumber backtracking_compute e = Ok k →
  (0 ≤ k ≤ 4)%Z ∧
  (k = 0%Z ↔ currentGraph e = None) ∧
  (∀ g, currentGraph e = Some g →
     (∀ j, (1 ≤ j < k)%Z →
        ∃ r, backtracking_compute g
               {| algorithm := None; maxColors := Some j;
                  constraints := None |} = Ok r ∧ valid r = false) ∧
     ((k < 4)%Z →
        ∃ r, backtracking_compute g
               {| algorithm := None; maxColors := Some k;
                  constraints := None |} = Ok r ∧ valid r = true)).
Proof.
  unfold TheoremEngine.getChromaticNumber.
  destruct (currentGraph e) as [g|].
  - cbn [TheoremEngine.chromatic_search]. intros Hk.
    destruct (backtracking_compute g
                {| algorithm := None; maxColors := Some 1%Z;
                   constraints := None |}) as [r1|] eqn:H1; [|done].
    simpl in Hk. destruct (valid r1) eqn:V1.
    { injection Hk as <-. split; [lia|]. split; [done|].
      intros g' [= <-]. split; [intros; lia|]. intros _. by exists r1. }
    destruct (backtracking_compute g
                {| algorithm := None; maxColors := Some 2%Z;
                   constraints := None |}) as [r2|] eqn:H2; [|done].
    simpl in Hk. destruct (valid r2) eqn:V2.
    { injection Hk as <-. split; [lia|]. split; [done|].
      intros g' [= <-]. split; [|intros _; by exists r2].
      intros j Hj. assert (j = 1%Z) as -> by lia. by exists r1. }
    destruct (backtracking_compute g
                {| algorithm := None; maxColors := Some 3%Z;
                   constraints := None |}) as [r3|] eqn:H3; [|done].
    simpl in Hk. destruct (valid r3) eqn:V3.
    { injection Hk as <-. split; [lia|]. split; [done|].
      intros g' [= <-]. split; [|intros _; by exists r3].
      intros j Hj.
      assert (j = 1%Z ∨ j = 2%Z) as [->| ->] by lia; eauto. }
    destruct (backtracking_compute g
                {| algorithm := None; maxColors := Some 4%Z;
                   constraints := None |}) as [r4|] eqn:H4; [|done].
    simpl in Hk.
    assert (k = 4%Z) as -> by (by destruct (valid r4); injection Hk).
    split; [lia|]. split; [done|].
    intros g' [= <-]. split; [|lia].
    intros j Hj.
    assert (j = 1%Z ∨ j = 2%Z ∨ j = 3%Z) as [->|[->| ->]] by lia; eauto.
  - intros [= <-]. split; [lia|]. split; [done|]. by intros g ?.
Qed.

End ComputeThenValidate.

(** ** colorGraphGreedyBacktrack: prefill, search and fallback *)

Section GreedyBacktrack.

Import Coloring.

Variable adj : list (list Z).
Variable k : nat.

Lemma vertexOrderByDegree_perm :
  vertexOrderByDegree adj ≡ₚ seq 0 (length adj).
Proof.
  unfold vertexOrderByDegree. apply welsh_powell_order_perm.
  by rewrite length_fmap, length_seq.
Qed.

Lemma isSafe_spec (colors : list Z) (v : nat) (c : Z) :
  isSafe adj colors v c = true ↔
  ∀ u, u < length adj → truthy adj v u = true → colors !! u ≠ Some c.
Proof.
  unfold isSafe. rewrite forallb_forall. split.
  - intros H u Hu Ht Hc. specialize (H u).
    rewrite Ht, (bool_decide_eq_true_2 _ Hc) in H.
    assert (false = true); [|done]. apply H.
    apply list_elem_of_In, elem_of_seq. lia.
  - intros H u Hin. apply list_elem_of_In, elem_of_seq in Hin.
    destruct (truthy adj v u) eqn:Ht; [|done].
    rewrite bool_decide_eq_false_2; [done|]. apply H; [lia|done].
Qed.

Lemma used_colors_false (colors : list Z) (v c : nat) :
  used_colors adj k colors v !! c = Some false →
  ∀ u, u < length adj → truthy adj v u = true →
       colors !! u ≠ Some (Z.of_nat c).
Proof.
  unfold used_colors.
  assert (∀ (l : list nat) (used0 : list bool),
    foldl
      (λ used u,
         if truthy adj v u && bool_decide (colors !! u ≠ Some (-1)%Z)
         then match colors !! u with
              | Some cu => if (0 <=? cu)%Z then <[Z.to_nat cu := true]> used
                           else used
              | None => used
              end
         else used) used0 l !! c = Some false →
    used0 !! c = Some false ∧
    ∀ u, u ∈ l → truthy adj v u = true → colors !! u ≠ Some (Z.of_nat c))
    as Hgen.
  { induction l as [|u l IH]; intros used0 Hc; simpl in Hc.
    - split; [done|]. by intros u ?%not_elem_of_nil.
    - apply IH in Hc as [Hc Hl].
      assert (used0 !! c = Some false ∧
              (truthy adj v u = true → colors !! u ≠ Some (Z.of_nat c)))
        as [H0 Hu].
      { destruct (truthy adj v u); simpl in Hc; [|done].
        case_bool_decide as Hne; [|split; [done|]; intros _ Heq;
          rewrite Heq in Hne; injection Hne; lia].
        destruct (colors !! u) as [cu|]; [|done].
        destruct (Z.leb_spec 0 cu) as [Hpos|Hneg].
        - destruct (decide (Z.to_nat cu = c)) as [<-|Hcu].
          + apply list_lookup_insert_Some in Hc.
            by destruct Hc as [(_ & ? & _)|[? _]].
          + rewrite list_lookup_insert_ne in Hc by done.
            split; [done|]. intros _ [=]. lia.
        - split; [done|]. intros _ [=]. lia. }
      split; [done|]. intros u' Hin.
      apply elem_of_cons in Hin as [->|Hin]; [done|]. by apply Hl. }
  intros Hc u Hu. apply (proj2 (Hgen _ _ Hc)). apply elem_of_seq. lia.
Qed.

Lemma used_colors_length (colors : list Z) (v : nat) :
  length (used_colors adj k colors v) = k.
Proof.
  unfold used_colors.
  rewrite <- (length_replicate k false) at 2.
  generalize (replicate k false). generalize (seq 0 (length adj)).
  intros l. induction l as [|u l IH]; intros used0; simpl; [done|].
  rewrite IH. repeat case_match; by rewrite ?length_insert.
Qed.

Lemma indexOf_false_spec (used : list bool) :
  indexOf_false used = (-1)%Z ∨
  ∃ c, indexOf_false used = Z.of_nat c ∧ used !! c = Some false.
Proof.
  unfold indexOf_false.
  destruct (list_find (λ b, b = false) used) as [[i b]|] eqn:Hf; [|by left].
  right. exists i. split; [done|].
  apply list_find_Some in Hf as (Hi & -> & _). done.
Qed.

Lemma clash_free_insert (colors : list Z) (v : nat) (c : Z) :
  truthy_symmetric adj → length colors = length adj →
  clash_free adj colors →
  (c = (-1)%Z ∨
   ∀ u, u < length adj → truthy adj v u = true → colors !! u ≠ Some c) →
  clash_free adj (<[v := c]> colors).
Proof.
  intros Hsym Hlen Hfree Hc i j x Hne Hadj Hi Hj.
  destruct (decide (x = (-1)%Z)) as [|Hx]; [done|]. exfalso.
  destruct (decide (i = v)) as [->|Hiv].
  - rewrite list_lookup_insert_ne in Hj by done.
    pose proof (lookup_lt_Some _ _ _ Hi) as Hlt. rewrite length_insert in Hlt.
    rewrite list_lookup_insert_eq in Hi by done. injection Hi as <-.
    destruct Hc as [|Hc]; [done|].
    apply (Hc j); [|done..]. apply lookup_lt_Some in Hj. lia.
  - rewrite list_lookup_insert_ne in Hi by done.
    destruct (decide (j = v)) as [->|Hjv].
    + pose proof (lookup_lt_Some _ _ _ Hj) as Hlt.
      rewrite length_insert in Hlt.
      rewrite list_lookup_insert_eq in Hj by done. injection Hj as <-.
      destruct Hc as [|Hc]; [done|].
      apply (Hc i); [|by rewrite Hsym|done]. apply lookup_lt_Some in Hi. lia.
    + rewrite list_lookup_insert_ne in Hj by done.
      by apply Hx, (Hfree i j).
Qed.

Lemma prefill_step_inv (colors : list Z) (v : nat) :
  array_inv adj k colors →
  array_inv adj k (prefill_step adj k colors v) ∧
  (truthy_symmetric adj → clash_free adj colors →
   clash_free adj (prefill_step adj k colors v)).
Proof.
  intros [Hlen Hw]. unfold prefill_step.
  destruct (indexOf_false_spec (used_colors adj k colors v))
    as [->|(c & -> & Hc)].
  - simpl. split; [split|].
    + by rewrite length_insert.
    + intros i x Hi. destruct (decide (i = v)) as [->|Hne].
      * pose proof (lookup_lt_Some _ _ _ Hi) as Hlt.
        rewrite length_insert in Hlt.
        rewrite list_lookup_insert_eq in Hi by done. left. congruence.
      * rewrite list_lookup_insert_ne in Hi by done. by apply (Hw i).
    + intros Hsym Hfree. apply clash_free_insert; auto.
  - assert (c < k) as Hck.
    { apply lookup_lt_Some in Hc. by rewrite used_colors_length in Hc. }
    destruct (Z.eqb_spec (Z.of_nat c) (-1)) as [|_]; [lia|].
    split; [split|].
    + by rewrite length_insert.
    + apply within_insert; [done|lia].
    + intros Hsym Hfree. apply clash_free_insert; auto.
      right. by apply used_colors_false.
Qed.

Lemma greedyPrefill_inv (order : list nat) (colors : list Z) :
  array_inv adj k colors →
  array_inv adj k (greedyPrefill adj k order colors) ∧
  (truthy_symmetric adj → clash_free adj colors →
   clash_free adj (greedyPrefill adj k order colors)).
Proof.
  unfold greedyPrefill. revert colors.
  induction order as [|v order IH]; intros colors Hinv; simpl; [done|].
  destruct (prefill_step_inv colors v Hinv) as [Hinv' Hfree'].
  destruct (IH _ Hinv') as [Hinv'' Hfree'']. split; [done|]. auto.
Qed.

Lemma extends_refl (colors : list Z) : extends colors colors.
Proof. by intros i c. Qed.

Lemma extends_trans (a b c : list Z) :
  (∀ i x, b !! i = Some x → x ≠ (-1)%Z → True) →
  extends a b → extends b c → extends a c.
Proof. intros _ Hab Hbc i x Hi Hx. apply Hbc; [|done]. by apply Hab. Qed.

Lemma extends_insert (colors : list Z) (v : nat) (c : Z) :
  colors !! v = Some (-1)%Z → extends colors (<[v := c]> colors).
Proof.
  intros Hv i x Hi Hx. rewrite list_lookup_insert_ne; [done|].
  intros ->. congruence.
Qed.

Lemma try_colors_post (next : list Z → bool * list Z) (rest : list nat)
    (v : nat) :
  (∀ colors, array_inv adj k colors →
     backtrack_post adj k rest colors (next colors)) →
  ∀ cs colors,
    (∀ c, c ∈ cs → (0 ≤ c < Z.of_nat k)%Z) →
    array_inv adj k colors → colors !! v = Some (-1)%Z →
    backtrack_post adj k (v :: rest) colors (try_colors next adj v cs colors).
Proof.
  intros Hnext. induction cs as [|c cs IH]; intros colors Hcs Hinv Hv.
  - simpl. split; [done|]. split; [apply extends_refl|].
    split; [done|]. split; [done|]. split; [done|]. done.
  - assert (∀ c', c' ∈ cs → (0 ≤ c' < Z.of_nat k)%Z) as Hcs'
      by (intros c' Hc'; apply Hcs; by right).
    cbn [try_colors]. destruct (isSafe adj colors v c) eqn:Hsafe;
      [|by apply IH].
    assert (array_inv adj k (<[v := c]> colors)) as Hinv1.
    { destruct Hinv as [Hlen Hw]. split; [by rewrite length_insert|].
      apply within_insert; [done|]. apply Hcs. by left. }
    pose proof (Hnext _ Hinv1) as Hpost.
    destruct (next (<[v := c]> colors)) as [ok colors1].
    destruct Hpost as (Hinv2 & Hext & Hout & Hrestore & Hcolored & Hfree).
    simpl in *. destruct ok.
    + unfold backtrack_post. simpl.
      split; [done|]. split; [|split; [|split; [done|split]]].
      * intros i x Hi Hx. apply Hext; [|done].
        by apply extends_insert.
      * intros i Hi. apply not_elem_of_cons in Hi as [Hiv Hi].
        rewrite (Hout i Hi). by rewrite list_lookup_insert_ne.
      * intros _ v' Hv'. apply elem_of_cons in Hv' as [->|Hv'];
          [|by apply Hcolored].
        rewrite (Hext v c); [intros [=]; specialize (Hcs c); 
                             assert (c ∈ c :: cs) as Hin by (by left);
                             apply Hcs in Hin; lia| |].
        -- destruct Hinv as [Hlen _].
           apply list_lookup_insert_eq. apply lookup_lt_Some in Hv. lia.
        -- assert (c ∈ c :: cs) as Hin by (by left).
           apply Hcs in Hin. lia.
      * intros Hsym Hcf. apply Hfree; [done|].
        apply clash_free_insert; [done|by destruct Hinv|done|].
        right. by apply isSafe_spec.
    + rewrite (Hrestore eq_refl).
      rewrite list_insert_insert_eq, list_insert_id by done.
      by apply IH.
Qed.

Lemma backtrack_post_holds (rest : list nat) (colors : list Z) :
  array_inv adj k colors →
  backtrack_post adj k rest colors (backtrack adj k rest colors).
Proof.
  revert colors. induction rest as [|v rest IH]; intros colors Hinv.
  - simpl. split; [done|]. split; [apply extends_refl|].
    split; [done|]. split; [done|]. split; [|done].
    by intros _ v ?%not_elem_of_nil.
  - cbn [backtrack]. case_bool_decide as Hv.
    + destruct (IH colors Hinv)
        as (Hinv2 & Hext & Hout & Hrestore & Hcolored & Hfree).
      split; [done|]. split; [done|]. split; [|split; [done|split; [|done]]].
      * intros i Hi. apply not_elem_of_cons in Hi as [_ Hi]. by apply Hout.
      * intros Hok v' Hv'. apply elem_of_cons in Hv' as [->|Hv'];
          [|by apply Hcolored].
        destruct (decide (v ∈ rest)) as [Hin|Hnin]; [by apply Hcolored|].
        by rewrite (Hout v Hnin).
    + apply try_colors_post; [exact IH| |done|].
      * intros c Hc. unfold color_range in Hc.
        apply list_elem_of_fmap in Hc as (i & -> & Hi).
        apply elem_of_seq in Hi. lia.
      * by destruct (decide (colors !! v = Some (-1)%Z)).
Qed.

Lemma backtrack_from_first_uncolored_inv (rest : list nat)
    (colors : list Z) :
  array_inv adj k colors →
  array_inv adj k (backtrack_from_first_uncolored adj k rest colors) ∧
  extends colors (backtrack_from_first_uncolored adj k rest colors) ∧
  (truthy_symmetric adj → clash_free adj colors →
   clash_free adj (backtrack_from_first_uncolored adj k rest colors)).
Proof.
  intros Hinv. induction rest as [|v rest IH].
  - simpl. split; [done|]. split; [apply extends_refl|done].
  - cbn [backtrack_from_first_uncolored]. case_bool_decide; [|done].
    destruct (backtrack_post_holds (v :: rest) colors Hinv)
      as (Hinv2 & Hext & _ & _ & _ & Hfree). done.
Qed.

Lemma replicate_array_inv : array_inv adj k (replicate (length adj) (-1)%Z).
Proof. split; [by rewrite length_replicate|apply within_replicate]. Qed.

Lemma clash_free_replicate n : clash_free adj (replicate n (-1)%Z).
Proof. intros i j c _ _ Hi _. by apply lookup_replicate in Hi as [-> _]. Qed.

Lemma prefilled_inv :
  array_inv adj k (prefilled adj k) ∧
  (truthy_symmetric adj → clash_free adj (prefilled adj k)).
Proof.
  unfold prefilled.
  destruct (greedyPrefill_inv (vertexOrderByDegree adj)
              (replicate (length adj) (-1)%Z) replicate_array_inv)
    as [Hinv Hfree].
  split; [done|]. intros Hsym. apply Hfree; [done|].
  apply clash_free_replicate.
Qed.

Lemma fallback_lookup (colors : list Z) i c :
  fallback colors !! i = Some c ↔
  (colors !! i = Some (-1)%Z ∧ c = 0%Z) ∨
  (colors !! i = Some c ∧ c ≠ (-1)%Z).
Proof.
  unfold fallback. rewrite list_lookup_fmap.
  destruct (colors !! i) as [x|]; simpl.
  - destruct (Z.eqb_spec x (-1)) as [->|Hx]; split.
    + intros [= <-]. by left.
    + by intros [[_ ->]|[[= <-] Hne]].
    + intros [= <-]. by right.
    + intros [[[= ->] _]|[[= ->] _]]; done.
  - split; [done|]. by intros [[? _]|[? _]].
Qed.

(** What the result holds, in one statement. *)
Lemma colorGraphGreedyBacktrack_result :
  length (colorGraphGreedyBacktrack adj k) = length adj ∧
  (∀ i c, colorGraphGreedyBacktrack adj k !! i = Some c →
     (0 ≤ c)%Z ∧ ((c < Z.of_nat k)%Z ∨ c = 0%Z)) ∧
  (truthy_symmetric adj →
   ∀ i j c, i ≠ j → truthy adj i j = true →
     colorGraphGreedyBacktrack adj k !! i = Some c →
     colorGraphGreedyBacktrack adj k !! j = Some c → c = 0%Z) ∧
  extends (prefilled adj k) (colorGraphGreedyBacktrack adj k).
Proof.
  unfold colorGraphGreedyBacktrack. cbv zeta. fold (prefilled adj k).
  destruct prefilled_inv as [Hinv Hfree0].
  destruct (backtrack_from_first_uncolored_inv (vertexOrderByDegree adj)
              _ Hinv) as ([Hlen Hw] & Hext & Hfree).
  split; [unfold fallback; by rewrite length_fmap|]. split; [|split].
  - intros i c Hc. apply fallback_lookup in Hc as [[_ ->]|[Hc Hne]]; [lia|].
    destruct (Hw i c Hc); [done|lia].
  - intros Hsym i j c Hne Hadj Hi Hj.
    specialize (Hfree Hsym (Hfree0 Hsym)).
    apply fallback_lookup in Hi as [[_ ->]|[Hi Hci]]; [done|].
    apply fallback_lookup in Hj as [[_ ->]|[Hj _]]; [done|].
    by destruct (Hci (Hfree i j c Hne Hadj Hi Hj)).
  - intros i c Hi Hc. apply fallback_lookup. right. split; [|done].
    by apply Hext.
Qed.

(** X19. The result of [colorGraphGreedyBacktrack] has one entry per
    row of the matrix; no entry is [-1]: each is one of the [k] colors, or
    the fallback color 0. *)
Theorem colorGraphGreedyBacktrack_range :
  length (colorGraphGreedyBacktrack adj k) = length adj ∧
  ∀ i c, colorGraphGreedyBacktrack adj k !! i = Some c →
    (0 ≤ c)%Z ∧ ((c < Z.of_nat k)%Z ∨ c = 0%Z).
Proof.
  destruct colorGraphGreedyBacktrack_result as (Hlen & Hrange & _).
  by split.
Qed.

(** X20. On a matrix whose truthiness is symmetric, two distinct
    positions joined by a truthy entry get the same color only if that
    color is 0, the fallback; and a color given by the greedy prefill is
    never changed afterwards. *)
Theorem colorGraphGreedyBacktrack_clashes_only_on_fallback :
  truthy_symmetric adj →
  (∀ i j c, i ≠ j → truthy adj i j = true →
     colorGraphGreedyBacktrack adj k !! i = Some c →
     colorGraphGreedyBacktrack adj k !! j = Some c → c = 0%Z) ∧
  extends (prefilled adj k) (colorGraphGreedyBacktrack adj k).
Proof.
  intros Hsym.
  destruct colorGraphGreedyBacktrack_result as (_ & _ & Hclash & Hext).
  split; [by apply Hclash|done].
Qed.

Lemma extends_insert_target (colors f : list Z) (v : nat) (c : Z) :
  extends colors f → f !! v = Some c → extends (<[v := c]> colors) f.
Proof.
  intros Hext Hv i x Hi Hx. destruct (decide (i = v)) as [->|Hne].
  - pose proof (lookup_lt_Some _ _ _ Hi) as Hlt. rewrite length_insert in Hlt.
    rewrite list_lookup_insert_eq in Hi by done. congruence.
  - rewrite list_lookup_insert_ne in Hi by done. by apply Hext.
Qed.

Lemma try_colors_complete (next : list Z → bool * list Z) (rest : list nat)
    (v : nat) (f : list Z) :
  (∀ colors, array_inv adj k colors →
     backtrack_post adj k rest colors (next colors)) →
  (∀ colors, array_inv adj k colors → extends colors f →
     (next colors).1 = true) →
  k_coloring adj k f →
  ∀ cs colors,
    array_inv adj k colors → colors !! v = Some (-1)%Z → extends colors f →
    (∀ c, c ∈ cs → (0 ≤ c < Z.of_nat k)%Z) →
    (∃ c0, f !! v = Some c0 ∧ c0 ∈ cs) →
    (try_colors next adj v cs colors).1 = true.
Proof.
  intros Hpost Hnext (Hflen & Hfrange & Hffree).
  induction cs as [|c cs IH]; intros colors Hinv Hv Hext Hcs (c0 & Hf & Hin).
  { by apply not_elem_of_nil in Hin. }
  assert (isSafe adj colors v c0 = true) as Hsafe0.
  { apply isSafe_spec. intros u Hu Ht Hc.
    pose proof (Hfrange v c0 Hf) as Hr.
    assert (f !! u = Some c0) as Hfu by (apply Hext; [done|lia]).
    assert (v ≠ u) as Hne
      by (intros ->; rewrite Hv in Hc; injection Hc; lia).
    pose proof (Hffree v u c0 Hne Ht Hf Hfu). lia. }
  assert (∀ c', c' ∈ cs → (0 ≤ c' < Z.of_nat k)%Z) as Hcs'
    by (intros c' Hc'; apply Hcs; by right).
  assert (array_inv adj k (<[v := c]> colors)) as Hinv1.
  { destruct Hinv as [Hlen Hw]. split; [by rewrite length_insert|].
    apply within_insert; [done|]. apply Hcs. by left. }
  cbn [try_colors]. destruct (isSafe adj colors v c) eqn:Hsafe.
  - pose proof (Hpost _ Hinv1) as (_ & _ & _ & Hrestore & _).
    pose proof (Hnext (<[v := c]> colors) Hinv1) as Hgo.
    destruct (next (<[v := c]> colors)) as [ok colors1].
    simpl in *. destruct ok; [done|].
    rewrite (Hrestore eq_refl).
    rewrite list_insert_insert_eq, list_insert_id by done.
    apply IH; [done..|]. exists c0. split; [done|].
    apply elem_of_cons in Hin as [->|Hin]; [|done].
    by specialize (Hgo (extends_insert_target _ _ _ _ Hext Hf)).
  - apply IH; [done..|]. exists c0. split; [done|].
    apply elem_of_cons in Hin as [->|Hin]; [congruence|done].
Qed.

(** The search finds a completion whenever one exists. *)
Lemma backtrack_complete (rest : list nat) (f : list Z) :
  k_coloring adj k f → (∀ v, v ∈ rest → v < length adj) →
  ∀ colors, array_inv adj k colors → extends colors f →
    (backtrack adj k rest colors).1 = true.
Proof.
  intros Hf. induction rest as [|v rest IH]; intros Hrest colors Hinv Hext;
    [done|].
  assert (∀ v', v' ∈ rest → v' < length adj) as Hrest'
    by (intros v' Hv'; apply Hrest; by right).
  cbn [backtrack]. case_bool_decide as Hv; [by apply IH|].
  assert (colors !! v = Some (-1)%Z) as Hv'
    by (by destruct (decide (colors !! v = Some (-1)%Z))).
  apply (try_colors_complete _ rest v f);
    [intros colors'; apply backtrack_post_holds
    |intros colors'; by apply IH
    |done|done|done|done| |].
  - intros c Hc. unfold color_range in Hc.
    apply list_elem_of_fmap in Hc as (i & -> & Hi).
    apply elem_of_seq in Hi. lia.
  - destruct Hf as (Hflen & Hfrange & _).
    destruct (lookup_lt_is_Some_2 f v) as [c0 Hc0].
    { rewrite Hflen. apply Hrest. by left. }
    exists c0. split; [done|]. pose proof (Hfrange v c0 Hc0) as Hr.
    unfold color_range. apply list_elem_of_fmap. exists (Z.to_nat c0).
    split; [lia|]. apply elem_of_seq. lia.
Qed.

Lemma backtrack_from_first_uncolored_complete (rest : list nat)
    (f colors : list Z) :
  k_coloring adj k f → (∀ v, v ∈ rest → v < length adj) →
  array_inv adj k colors → extends colors f →
  ∀ v, v ∈ rest →
    backtrack_from_first_uncolored adj k rest colors !! v ≠ Some (-1)%Z.
Proof.
  intros Hf Hrest Hinv Hext. induction rest as [|v rest IH]; intros v' Hv'.
  { by apply not_elem_of_nil in Hv'. }
  cbn [backtrack_from_first_uncolored]. case_bool_decide as Hv.
  - pose proof (backtrack_complete (v :: rest) f Hf Hrest colors Hinv Hext)
      as Hok.
    destruct (backtrack_post_holds (v :: rest) colors Hinv)
      as (_ & _ & _ & _ & Hcolored & _).
    by apply Hcolored.
  - apply elem_of_cons in Hv' as [->|Hv'].
    + destruct (backtrack_from_first_uncolored_inv rest colors Hinv)
        as (_ & Hext' & _).
      destruct (lookup_lt_is_Some_2 colors v) as [c Hc].
      { destruct Hinv as [-> _]. apply Hrest. by left. }
      rewrite (Hext' v c Hc); [|congruence]. congruence.
    + apply IH; [|done]. intros v'' Hv''. apply Hrest. by right.
Qed.


End GreedyBacktrack.

(** ** The canvases and the auto-color buttons *)

Section Canvases.

Lemma nodeIndexMap_known (ns : list Node.t) (x : string) :
  is_Some (nodeIndexMap ns !! x) ↔ x ∈ Node.id <$> ns.
Proof.
  rewrite <- not_eq_None_Some, nodeIndexMap_None. split.
  - intros Hno. destruct (decide (x ∈ Node.id <$> ns)) as [|Hnin]; [done|].
    exfalso. apply Hno. intros nd Hin <-. apply Hnin.
    apply list_elem_of_fmap. by exists nd.
  - intros Hin Hall. apply list_elem_of_fmap in Hin as (nd & -> & Hin).
    by apply (Hall nd).
Qed.

Lemma GraphCanvas_add_edges_known (idx : gmap string nat)
    (es : list Edge.t) (m : list (list Z)) :
  (∀ e, e ∈ es →
     is_Some (idx !! Edge.source e) ∧ is_Some (idx !! Edge.target e)) →
  GraphCanvas.add_edges idx m es = Ok (foldl (add_edge idx) m es).
Proof.
  revert m. induction es as [|e es IH]; intros m Hknown; [done|].
  destruct (Hknown e) as [[u Hu] [v Hv]]; [by left|].
  cbn [GraphCanvas.add_edges foldl].
  unfold GraphCanvas.add_edge at 1, add_edge at 2. rewrite Hu, Hv. simpl.
  apply IH. intros e' He'. apply Hknown. by right.
Qed.

Lemma GraphCanvas_add_edges_unknown (idx : gmap string nat)
    (es : list Edge.t) (m : list (list Z)) :
  (∃ e, e ∈ es ∧
     (idx !! Edge.source e = None ∨ idx !! Edge.target e = None)) →
  GraphCanvas.add_edges idx m es = Throw TypeError.
Proof.
  revert m. induction es as [|e es IH]; intros m (e' & He' & Hunk).
  { by apply not_elem_of_nil in He'. }
  cbn [GraphCanvas.add_edges]. unfold GraphCanvas.add_edge at 1.
  destruct (idx !! Edge.source e) as [u|] eqn:Hu; [|done].
  destruct (idx !! Edge.target e) as [v|] eqn:Hv; [|done].
  simpl. apply IH. exists e'. split; [|done].
  apply elem_of_cons in He' as [->|He']; [|done].
  rewrite Hu, Hv in Hunk. by destruct Hunk.
Qed.

(** X22. [GraphCanvas.getAdjacency] returns the matrix that the engine's
    [_buildAdjacencyMatrix] builds from the same nodes and edges when every
    edge endpoint is a node, and throws a [TypeError] when some endpoint
    is not. *)
Theorem GraphCanvas_getAdjacency_agrees_with_engine (ns : list Node.t)
    (es : list Edge.t) :
  ((∀ e, e ∈ es → Edge.source e ∈ Node.id <$> ns ∧
                  Edge.target e ∈ Node.id <$> ns) →
   GraphCanvas.getAdjacency ns es
     = Ok (_buildAdjacencyMatrix ns es, Node.id <$> ns)) ∧
  ((∃ e, e ∈ es ∧ (Edge.source e ∉ Node.id <$> ns ∨
                   Edge.target e ∉ Node.id <$> ns)) →
   GraphCanvas.getAdjacency ns es = Throw TypeError).
Proof.
  unfold GraphCanvas.getAdjacency. cbv zeta. split.
  - intros Hknown. rewrite GraphCanvas_add_edges_known; [done|].
    intros e He. rewrite !nodeIndexMap_known. by apply Hknown.
  - intros (e & He & Hunk). rewrite GraphCanvas_add_edges_unknown; [done|].
    exists e. split; [done|].
    rewrite !eq_None_not_Some, !nodeIndexMap_known. done.
Qed.

End Canvases.

Section RegionsAdjacency.

Import RegionsCanvas.

Lemma link_inv n (idx : gmap string nat) (i : option nat)
    (m m' : list (list Z)) (nId : string) :
  (∀ x p, idx !! x = Some p → p < n) → (∀ p, i = Some p → p < n) →
  dims n m → symmetric m → zero_diagonal m →
  link idx i m nId = Ok m' →
  dims n m' ∧ symmetric m' ∧ zero_diagonal m'.
Proof.
  intros Hidx Hi Hd Hs Hz. unfold link.
  case_bool_decide as Hne; [|by intros [= <-]].
  destruct i as [a|]; [|done].
  destruct (idx !! nId) as [b|] eqn:Hb; [|done].
  intros [= <-]. pose proof (Hi a eq_refl). pose proof (Hidx _ _ Hb).
  assert (a ≠ b) by congruence.
  split; [auto using set_cell_dims|]. split.
  - intros x y. rewrite !(entry_set_cell n) by auto using set_cell_dims.
    repeat case_decide; try done; try lia; apply Hs.
  - intros x Hx. rewrite !(entry_set_cell n) by auto using set_cell_dims.
    rewrite !decide_False by lia. apply Hz.
    destruct Hd as [Hlen _]. unfold set_cell in Hx.
    by rewrite !length_alter in Hx.
Qed.

Lemma link_all_inv n (idx : gmap string nat) (i : option nat)
    (nIds : list string) (m m' : list (list Z)) :
  (∀ x p, idx !! x = Some p → p < n) → (∀ p, i = Some p → p < n) →
  dims n m → symmetric m → zero_diagonal m →
  link_all idx i m nIds = Ok m' →
  dims n m' ∧ symmetric m' ∧ zero_diagonal m'.
Proof.
  intros Hidx Hi. revert m.
  induction nIds as [|x nIds IH]; intros m Hd Hs Hz; simpl.
  - by intros [= <-].
  - destruct (link idx i m x) as [m1|] eqn:Hl; [|done]. simpl.
    destruct (link_inv n idx i m m1 x Hidx Hi Hd Hs Hz Hl) as (? & ? & ?).
    by apply IH.
Qed.

Lemma link_features_inv n (idx : gmap string nat) (fs : list Feature)
    (m m' : list (list Z)) :
  (∀ x p, idx !! x = Some p → p < n) →
  dims n m → symmetric m → zero_diagonal m →
  link_features idx m fs = Ok m' →
  dims n m' ∧ symmetric m' ∧ zero_diagonal m'.
Proof.
  intros Hidx. revert m.
  induction fs as [|f fs IH]; intros m Hd Hs Hz; simpl.
  - by intros [= <-].
  - destruct (link_all idx (idx !! id f) m (neighbors f)) as [m1|] eqn:Hl;
      [|done].
    simpl.
    destruct (link_all_inv n idx _ _ m m1 Hidx (λ p, Hidx (id f) p) Hd Hs Hz
                Hl) as (? & ? & ?).
    by apply IH.
Qed.

Lemma link_all_returns (idx : gmap string nat) (i : nat)
    (nIds : list string) (m : list (list Z)) :
  (∀ x, x ∈ nIds → is_Some (idx !! x)) →
  ∃ m', link_all idx (Some i) m nIds = Ok m'.
Proof.
  revert m. induction nIds as [|x nIds IH]; intros m Hknown; simpl;
    [by eexists|].
  destruct (Hknown x) as [j Hj]; [by left|].
  unfold link at 1. rewrite Hj.
  case_bool_decide; simpl; apply IH; intros y Hy; apply Hknown; by right.
Qed.

Lemma link_features_returns (idx : gmap string nat) (fs : list Feature)
    (m : list (list Z)) :
  (∀ f, f ∈ fs → is_Some (idx !! id f)) →
  (∀ f x, f ∈ fs → x ∈ neighbors f → is_Some (idx !! x)) →
  ∃ m', link_features idx m fs = Ok m'.
Proof.
  revert m. induction fs as [|f fs IH]; intros m Hown Hknown; simpl;
    [by eexists|].
  destruct (Hown f) as [i Hi]; [by left|]. rewrite Hi.
  destruct (link_all_returns idx i (neighbors f) m) as [m1 ->].
  { intros x Hx. apply (Hknown f); [by left|done]. }
  simpl. apply IH.
  - intros f' Hf'. apply Hown. by right.
  - intros f' x Hf'. apply Hknown. by right.
Qed.

Lemma Node_id_Build (l : list string) : Node.id <$> (Node.Build <$> l) = l.
Proof. induction l as [|x l IH]; [done|]. rewrite !fmap_cons. by f_equal. Qed.

Lemma zero_diagonal_replicate n :
  zero_diagonal (replicate n (replicate n 0%Z)).
Proof.
  intros i Hi. rewrite length_replicate in Hi.
  rewrite entry_replicate. by rewrite decide_True.
Qed.

(** X23. The matrix of [RegionsCanvas.getAdjacency], when the call
    returns, is square over the features, symmetric, and zero on the
    diagonal: a feature listed among its own neighbors is skipped. The call
    returns whenever every listed neighbor is the identifier of a
    feature. *)
Theorem RegionsCanvas_getAdjacency_matrix (fs : list Feature) :
  (∀ adj ids, getAdjacency fs = Ok (adj, ids) →
     ids = id <$> fs ∧ dims (length fs) adj ∧ symmetric adj ∧
     zero_diagonal adj) ∧
  ((∀ f x, f ∈ fs → x ∈ neighbors f → x ∈ id <$> fs) →
   ∃ adj, getAdjacency fs = Ok (adj, id <$> fs)).
Proof.
  unfold getAdjacency. cbv zeta. rewrite length_fmap.
  set (idx := nodeIndexMap (Node.Build <$> (id <$> fs))).
  assert (∀ x p, idx !! x = Some p → p < length fs) as Hidx.
  { intros x p Hp. apply nodeIndexMap_Some in Hp as (nd & Hp & _).
    apply lookup_lt_Some in Hp. by rewrite !length_fmap in Hp. }
  assert (∀ x, is_Some (idx !! x) ↔ x ∈ id <$> fs) as Hknown.
  { intros x. unfold idx. by rewrite nodeIndexMap_known, Node_id_Build. }
  split.
  - intros adj ids.
    destruct (link_features idx _ fs) as [m|] eqn:Hl; [|done].
    simpl. intros [= <- <-]. split; [done|].
    apply (link_features_inv (length fs) idx fs
             (replicate (length fs) (replicate (length fs) 0%Z)) m Hidx);
      [apply replicate_dims|apply replicate_symmetric
      |apply zero_diagonal_replicate|done].
  - intros Hnb.
    destruct (link_features_returns idx fs
                (replicate (length fs) (replicate (length fs) 0%Z)))
      as [m ->].
    + intros f Hf. apply Hknown, list_elem_of_fmap. by exists f.
    + intros f x Hf Hx. apply Hknown. by apply (Hnb f).
    + simpl. by eexists.
Qed.

End RegionsAdjacency.

Section AutoColor.

Lemma symmetric_truthy_symmetric (adj : list (list Z)) :
  symmetric adj → truthy_symmetric adj.
Proof.
  intros Hs i j. specialize (Hs i j). unfold entry in Hs.
  unfold Coloring.truthy.
  destruct (adj !! i) as [ri|], (adj !! j) as [rj|]; simpl in *;
    first [by rewrite Hs|by rewrite <- Hs|done].
Qed.

Lemma truthy_adjacent (adj : list (list Z)) i j :
  adjacent adj i j → Coloring.truthy adj i j = true.
Proof.
  unfold adjacent, entry, Coloring.truthy.
  destruct (adj !! i) as [row|]; [|done]. by intros ->.
Qed.

Lemma applied_color_in_range (assignment : list Z) (palette : list string)
    (i : nat) (a : Z) :
  assignment !! i = Some a → (0 ≤ a < Z.of_nat (length palette))%Z →
  applied_color assignment palette i = palette !! Z.to_nat a ∧
  is_Some (palette !! Z.to_nat a).
Proof.
  intros Ha Hr. unfold applied_color. rewrite Ha.
  rewrite bool_decide_eq_false_2 by lia.
  rewrite Z.rem_small by done. unfold js_get.
  destruct (Z.ltb_spec a 0); [lia|]. split; [done|].
  apply lookup_lt_is_Some_2. lia.
Qed.

(** The colors applied from the result of [colorGraphGreedyBacktrack] on a
    symmetric matrix, for a non-empty palette of distinct colors. *)
Lemma applied_colors (M : list (list Z)) (palette : list string) :
  symmetric M → NoDup palette → palette ≠ [] →
  let assignment :=
    Coloring.colorGraphGreedyBacktrack M (length palette) in
  let colors := applyColorAssignment (length M) assignment palette in
  length colors = length M ∧
  (∀ i, i < length M → ∃ c, colors !! i = Some (Some c) ∧ c ∈ palette) ∧
  (∀ i j, i ≠ j → i < length M → j < length M → adjacent M i j →
     colors !! i = colors !! j → colors !! i = Some (palette !! 0)).
Proof.
  intros Hsym Hpal Hne. cbv zeta.
  set (k := length palette).
  assert (0 < k) as Hk by (unfold k; destruct palette; [done|simpl; lia]).
  destruct (colorGraphGreedyBacktrack_result M k)
    as (Hlen & Hrange & Hclash & _).
  specialize (Hclash (symmetric_truthy_symmetric M Hsym)).
  set (assignment := Coloring.colorGraphGreedyBacktrack M k) in *.
  assert (∀ i, i < length M →
    ∃ a, assignment !! i = Some a ∧ (0 ≤ a < Z.of_nat k)%Z ∧
         applyColorAssignment (length M) assignment palette !! i
           = Some (palette !! Z.to_nat a) ∧
         is_Some (palette !! Z.to_nat a)) as Hcol.
  { intros i Hi.
    destruct (lookup_lt_is_Some_2 assignment i) as [a Ha]; [lia|].
    exists a. split; [done|].
    assert (0 ≤ a < Z.of_nat k)%Z as Hr
      by (destruct (Hrange i a Ha) as [? [?| ->]]; lia).
    split; [done|].
    destruct (applied_color_in_range assignment palette i a Ha Hr)
      as [Heq Hsome].
    split; [|done]. unfold applyColorAssignment.
    rewrite list_lookup_fmap, lookup_seq_lt by done. simpl. by rewrite Heq. }
  split; [|split].
  - unfold applyColorAssignment. by rewrite length_fmap, length_seq.
  - intros i Hi. destruct (Hcol i Hi) as (a & _ & _ & -> & [c Hc]).
    exists c. rewrite Hc. split; [done|]. by eapply list_elem_of_lookup_2.
  - intros i j Hij Hi Hj Hone.
    destruct (Hcol i Hi) as (ai & Hai & Hri & -> & [ci Hci]).
    destruct (Hcol j Hj) as (aj & Haj & Hrj & -> & [cj Hcj]).
    rewrite Hci, Hcj. intros [= <-].
    assert (Z.to_nat ai = Z.to_nat aj) as Heq
      by (by apply (NoDup_lookup palette _ _ ci Hpal)).
    assert (ai = aj) as <- by lia.
    rewrite (Hclash i j ai Hij (truthy_adjacent M i j Hone) Hai Haj) in Hci.
    by rewrite <- Hci.
Qed.

(** X24. [autoColorGraph] with a non-empty palette of distinct colors, on
    nodes with unique identifiers and edges between nodes: every node gets
    a color of the palette, and two distinct nodes joined by an edge get
    the same color only if it is the first color of the palette, the
    fallback. *)
Theorem autoColorGraph_colors (ns : list Node.t) (es : list Edge.t)
    (palette : list string) :
  NoDup (Node.id <$> ns) → NoDup palette → palette ≠ [] →
  (∀ e, e ∈ es → Edge.source e ∈ Node.id <$> ns ∧
                 Edge.target e ∈ Node.id <$> ns) →
  ∃ colors,
    Main.autoColorGraph ns es palette = Ok colors ∧
    length colors = length ns ∧
    (∀ i, i < length ns → ∃ c, colors !! i = Some (Some c) ∧ c ∈ palette) ∧
    (∀ i j a b, i ≠ j → ns !! i = Some a → ns !! j = Some b →
       joins es (Node.id a) (Node.id b) →
       colors !! i = colors !! j → colors !! i = Some (palette !! 0)).
Proof.
  intros Hnd Hpal Hne Hknown.
  unfold Main.autoColorGraph, GraphCanvas.getAdjacency. cbv zeta.
  rewrite GraphCanvas_add_edges_known
    by (intros e He; rewrite !nodeIndexMap_known; by apply Hknown).
  fold (_buildAdjacencyMatrix ns es). simpl.
  destruct (_buildAdjacencyMatrix_square_symmetric ns es) as [[HMlen _] Hsym].
  destruct (applied_colors (_buildAdjacencyMatrix ns es) palette Hsym Hpal
              Hne) as (Hlen & Hin & Hclash).
  rewrite HMlen in Hlen, Hin, Hclash.
  eexists. split; [done|]. split; [done|]. split; [done|].
  intros i j a b Hij Hi Hj Hjoin.
  apply Hclash; [done|by eapply lookup_lt_Some..|].
  destruct (_buildAdjacencyMatrix_entry_cases ns es i j a b Hnd Hi Hj)
    as [[_ Hone]|[Hno _]]; done.
Qed.

End AutoColor.

Section AutoColorRegions.

Import RegionsCanvas.

Variable n : nat.
Variable idx : gmap string nat.
Hypothesis idx_bound : ∀ x p, idx !! x = Some p → p < n.

Lemma link_dims (i : option nat) (m m' : list (list Z)) (nId : string) :
  (∀ p, i = Some p → p < n) → dims n m →
  link idx i m nId = Ok m' → dims n m'.
Proof.
  intros Hi Hd. unfold link. case_bool_decide; [|by intros [= <-]].
  destruct i as [a|]; [|done]. destruct (idx !! nId) as [b|]; [|done].
  intros [= <-]. auto using set_cell_dims.
Qed.

Lemma link_keeps_one (i : option nat) (m m' : list (list Z)) (nId : string)
    (a b : nat) :
  (∀ p, i = Some p → p < n) → dims n m →
  entry m a b = Some 1%Z → link idx i m nId = Ok m' →
  entry m' a b = Some 1%Z.
Proof.
  intros Hi Hd Hone. unfold link. case_bool_decide; [|by intros [= <-]].
  destruct i as [p|]; [|done].
  destruct (idx !! nId) as [q|] eqn:Hq; [|done].
  intros [= <-]. pose proof (Hi p eq_refl). pose proof (idx_bound _ _ Hq).
  rewrite !(entry_set_cell n) by auto using set_cell_dims.
  by repeat case_decide.
Qed.

Lemma link_sets (p q : nat) (m m' : list (list Z)) (nId : string) :
  p < n → dims n m → idx !! nId = Some q → p ≠ q →
  link idx (Some p) m nId = Ok m' → entry m' p q = Some 1%Z.
Proof.
  intros Hp Hd Hq Hne. unfold link. rewrite Hq.
  rewrite bool_decide_eq_true_2 by congruence.
  intros [= <-]. pose proof (idx_bound _ _ Hq).
  rewrite !(entry_set_cell n) by auto using set_cell_dims.
  case_decide; [done|]. by rewrite decide_True.
Qed.

Lemma link_all_dims (i : option nat) (nIds : list string)
    (m m' : list (list Z)) :
  (∀ p, i = Some p → p < n) → dims n m →
  link_all idx i m nIds = Ok m' → dims n m'.
Proof.
  intros Hi. revert m. induction nIds as [|x nIds IH]; intros m Hd; simpl.
  - by intros [= <-].
  - destruct (link idx i m x) as [m1|] eqn:Hl; [|done]. simpl.
    apply IH. by eapply link_dims.
Qed.

Lemma link_all_keeps_one (i : option nat) (nIds : list string)
    (m m' : list (list Z)) (a b : nat) :
  (∀ p, i = Some p → p < n) → dims n m →
  entry m a b = Some 1%Z → link_all idx i m nIds = Ok m' →
  entry m' a b = Some 1%Z.
Proof.
  intros Hi. revert m.
  induction nIds as [|x nIds IH]; intros m Hd Hone; simpl.
  - by intros [= <-].
  - destruct (link idx i m x) as [m1|] eqn:Hl; [|done]. simpl.
    apply IH; [by eapply link_dims|by eapply link_keeps_one].
Qed.

Lemma link_all_sets (p q : nat) (nIds : list string) (m m' : list (list Z))
    (x : string) :
  p < n → dims n m → x ∈ nIds → idx !! x = Some q → p ≠ q →
  link_all idx (Some p) m nIds = Ok m' → entry m' p q = Some 1%Z.
Proof.
  intros Hp. assert (∀ p', Some p = Some p' → p' < n) as Hi
    by (by intros p' [= <-]).
  revert m. induction nIds as [|y nIds IH]; intros m Hd Hx Hq Hne; simpl.
  - by apply not_elem_of_nil in Hx.
  - destruct (link idx (Some p) m y) as [m1|] eqn:Hl; [|done]. simpl.
    pose proof (link_dims _ _ _ _ Hi Hd Hl) as Hd1.
    apply elem_of_cons in Hx as [Heq|Hx].
    + intros Hrest. rewrite <- Heq in Hl.
      apply (link_all_keeps_one (Some p) nIds m1 m' p q Hi Hd1); [|done].
      exact (link_sets p q m m1 x Hp Hd Hq Hne Hl).
    + by apply IH.
Qed.

Lemma link_features_dims (fs : list Feature) (m m' : list (list Z)) :
  dims n m → link_features idx m fs = Ok m' → dims n m'.
Proof.
  revert m. induction fs as [|f fs IH]; intros m Hd; simpl.
  - by intros [= <-].
  - destruct (link_all idx (idx !! id f) m (neighbors f)) as [m1|] eqn:Hl;
      [|done].
    simpl. apply IH. eapply link_all_dims; [|done..]. apply idx_bound.
Qed.

Lemma link_features_keeps_one (fs : list Feature) (m m' : list (list Z))
    (a b : nat) :
  dims n m → entry m a b = Some 1%Z →
  link_features idx m fs = Ok m' → entry m' a b = Some 1%Z.
Proof.
  revert m. induction fs as [|f fs IH]; intros m Hd Hone; simpl.
  - by intros [= <-].
  - destruct (link_all idx (idx !! id f) m (neighbors f)) as [m1|] eqn:Hl;
      [|done].
    simpl. apply IH.
    + eapply link_all_dims; [|done..]. apply idx_bound.
    + eapply link_all_keeps_one; [|done..]. apply idx_bound.
Qed.

Lemma link_features_sets (fs : list Feature) (m m' : list (list Z))
    (f : Feature) (x : string) (p q : nat) :
  dims n m → f ∈ fs → x ∈ neighbors f →
  idx !! id f = Some p → idx !! x = Some q → p ≠ q →
  link_features idx m fs = Ok m' → entry m' p q = Some 1%Z.
Proof.
  intros Hd Hf Hx Hp Hq Hne. revert m Hd.
  induction fs as [|g fs IH]; intros m Hd; simpl.
  - by apply not_elem_of_nil in Hf.
  - destruct (link_all idx (idx !! id g) m (neighbors g)) as [m1|] eqn:Hl;
      [|done].
    simpl.
    assert (dims n m1) as Hd1
      by (eapply link_all_dims; [|done..]; apply idx_bound).
    apply elem_of_cons in Hf as [<-|Hf].
    + intros Hrest. apply (link_features_keeps_one fs m1 m' p q Hd1); [|done].
      rewrite Hp in Hl.
      by apply (link_all_sets p q (neighbors f) m m1 x (idx_bound _ _ Hp)).
    + by apply IH.
Qed.

End AutoColorRegions.

Section AutoColorRegionsResult.

Import RegionsCanvas.

(** The matrix that [getAdjacency] returns for features with unique
    identifiers whose listed neighbors are features. *)
Lemma regions_matrix (fs : list Feature) :
  NoDup (id <$> fs) →
  (∀ f x, f ∈ fs → x ∈ neighbors f → x ∈ id <$> fs) →
  ∃ M,
    getAdjacency fs = Ok (M, id <$> fs) ∧
    length M = length fs ∧ symmetric M ∧
    ∀ i j a b, i ≠ j → fs !! i = Some a → fs !! j = Some b →
      id b ∈ neighbors a ∨ id a ∈ neighbors b → adjacent M i j.
Proof.
  intros Hnd Hnb. unfold getAdjacency. cbv zeta. rewrite length_fmap.
  set (idx := nodeIndexMap (Node.Build <$> (id <$> fs))).
  assert (∀ x p, idx !! x = Some p → p < length fs) as Hidx.
  { intros x p Hp. apply nodeIndexMap_Some in Hp as (nd & Hp & _).
    apply lookup_lt_Some in Hp. by rewrite !length_fmap in Hp. }
  assert (∀ x, is_Some (idx !! x) ↔ x ∈ id <$> fs) as Hknown.
  { intros x. unfold idx. by rewrite nodeIndexMap_known, Node_id_Build. }
  assert (∀ i a, fs !! i = Some a → idx !! id a = Some i) as Hpos.
  { intros i a Hi. unfold idx.
    apply (nodeIndexMap_lookup _ i (Node.Build (id a))); [|by
      rewrite !list_lookup_fmap, Hi|done].
    by rewrite Node_id_Build. }
  destruct (link_features_returns idx fs
              (replicate (length fs) (replicate (length fs) 0%Z)))
    as [M HM].
  { intros f Hf. apply Hknown, list_elem_of_fmap. by exists f. }
  { intros f x Hf Hx. apply Hknown. by apply (Hnb f). }
  rewrite HM. simpl.
  destruct (link_features_inv (length fs) idx fs _ M Hidx
              (replicate_dims (length fs)) (replicate_symmetric (length fs))
              (zero_diagonal_replicate (length fs)) HM)
    as ([HMlen _] & Hsym & _).
  exists M. split; [done|]. split; [done|]. split; [done|].
  intros i j a b Hij Hi Hj Hlist.
  unfold adjacent. destruct Hlist as [Hab|Hba].
  - apply (link_features_sets (length fs) idx Hidx fs
             (replicate (length fs) (replicate (length fs) 0%Z)) M a (id b)
             i j);
      [apply replicate_dims|by eapply list_elem_of_lookup_2|done
      |by apply Hpos|by apply Hpos|done|done].
  - rewrite Hsym.
    apply (link_features_sets (length fs) idx Hidx fs
             (replicate (length fs) (replicate (length fs) 0%Z)) M b (id a)
             j i);
      [apply replicate_dims|by eapply list_elem_of_lookup_2|done
      |by apply Hpos|by apply Hpos|done|done].
Qed.

(** X25. [autoColorRegions] with a non-empty palette of distinct colors,
    on features with unique identifiers whose listed neighbors are
    features: every feature gets a color of the palette, and two distinct
    features, one of which lists the other as a neighbor, get the same
    color only if it is the first color of the palette, the fallback. *)
Theorem autoColorRegions_colors (fs : list Feature) (palette : list string) :
  NoDup (id <$> fs) → NoDup palette → palette ≠ [] →
  (∀ f x, f ∈ fs → x ∈ neighbors f → x ∈ id <$> fs) →
  ∃ colors,
    Main.autoColorRegions fs palette = Ok colors ∧
    length colors = length fs ∧
    (∀ i, i < length fs → ∃ c, colors !! i = Some (Some c) ∧ c ∈ palette) ∧
    (∀ i j a b, i ≠ j → fs !! i = Some a → fs !! j = Some b →
       id b ∈ neighbors a ∨ id a ∈ neighbors b →
       colors !! i = colors !! j → colors !! i = Some (palette !! 0)).
Proof.
  intros Hnd Hpal Hne Hnb.
  destruct (regions_matrix fs Hnd Hnb) as (M & HM & HMlen & Hsym & Hadj).
  unfold Main.autoColorRegions. rewrite HM. simpl.
  destruct (applied_colors M palette Hsym Hpal Hne)
    as (Hlen & Hin & Hclash).
  rewrite HMlen in Hlen, Hin, Hclash.
  eexists. split; [done|]. split; [done|]. split; [done|].
  intros i j a b Hij Hi Hj Hlist.
  apply Hclash; [done|by eapply lookup_lt_Some..|].
  by apply (Hadj i j a b).
Qed.

End AutoColorRegionsResult.

(** ** FourColorApp: the application's own matrix and greedy coloring *)

Section AppGreedy.

Lemma set_flag_ones (i j : nat) (m : list (list Z)) :
  FourColorApp.set_flag i j (ones m) = ones (set_cell i j m).
Proof.
  unfold FourColorApp.set_flag, set_cell, ones. symmetry.
  apply list_fmap_alter, Forall_forall. intros row _.
  by rewrite list_fmap_insert.
Qed.

Lemma add_edge_ones (idx : gmap string nat) (m : list (list Z))
    (e : Edge.t) :
  FourColorApp.add_edge idx (ones m) e = ones (add_edge idx m e).
Proof.
  unfold FourColorApp.add_edge, add_edge.
  destruct (idx !! Edge.source e), (idx !! Edge.target e); try done.
  by rewrite !set_flag_ones.
Qed.

Lemma buildAdjacencyMatrix_ones (ns : list Node.t) (es : list Edge.t) :
  FourColorApp.buildAdjacencyMatrix ns es
    = ones (_buildAdjacencyMatrix ns es).
Proof.
  unfold FourColorApp.buildAdjacencyMatrix, _buildAdjacencyMatrix.
  cbv zeta.
  assert (replicate (length ns) (replicate (length ns) false)
          = ones (replicate (length ns) (replicate (length ns) 0%Z)))
    as -> by (unfold ones; by rewrite !fmap_replicate).
  generalize (replicate (length ns) (replicate (length ns) 0%Z)).
  induction es as [|e es IH]; intros m; [done|].
  cbn [foldl]. by rewrite add_edge_ones, IH.
Qed.

Lemma flag_adjacent (ns : list Node.t) (es : list Edge.t) (i j : nat) :
  FourColorApp.flag (FourColorApp.buildAdjacencyMatrix ns es) i j = true ↔
  adjacent (_buildAdjacencyMatrix ns es) i j.
Proof.
  rewrite buildAdjacencyMatrix_ones.
  unfold FourColorApp.flag, ones, adjacent, entry.
  rewrite list_lookup_fmap.
  destruct (_buildAdjacencyMatrix ns es !! i) as [row|]; simpl; [|done].
  rewrite list_lookup_fmap. destruct (row !! j) as [x|]; simpl; [|done].
  rewrite bool_decide_eq_true. split; [by intros ->|by intros [= ->]].
Qed.

(** X26. The matrix of booleans that the application builds is the
    engine's matrix read as "holds 1": the two agree on every graph,
    down to the handling of unknown endpoints, self-loops and repeated
    identifiers. *)
Theorem buildAdjacencyMatrix_agrees_with_engine (ns : list Node.t)
    (es : list Edge.t) :
  FourColorApp.buildAdjacencyMatrix ns es
    = ones (_buildAdjacencyMatrix ns es) ∧
  (∀ i j,
     FourColorApp.flag (FourColorApp.buildAdjacencyMatrix ns es) i j = true ↔
     adjacent (_buildAdjacencyMatrix ns es) i j).
Proof.
  split; [apply buildAdjacencyMatrix_ones|]. intros i j.
  apply flag_adjacent.
Qed.

Lemma range_in_set_size (used : gset Z) (k : Z) :
  (0 ≤ k)%Z → (∀ c, (0 ≤ c < k)%Z → c ∈ used) → Z.to_nat k ≤ size used.
Proof.
  intros Hk Hall.
  assert (list_to_set (seqZ 0 k) ⊆ used) as Hsub.
  { intros c Hc. apply elem_of_list_to_set, elem_of_seqZ in Hc.
    apply Hall. lia. }
  apply subseteq_size in Hsub.
  rewrite size_list_to_set in Hsub by apply NoDup_seqZ.
  by rewrite length_seqZ in Hsub.
Qed.

(** The loop stops on the smallest number that the Set does not hold. *)
Lemma first_free_spec (used : gset Z) (fuel : nat) (k : Z) :
  (0 ≤ k)%Z → (∀ c, (0 ≤ c < k)%Z → c ∈ used) →
  Z.to_nat k + fuel = size used →
  (FourColorApp.first_free used fuel k ∉ used) ∧
  (k ≤ FourColorApp.first_free used fuel k ≤ Z.of_nat (size used))%Z ∧
  (∀ c, (0 ≤ c < FourColorApp.first_free used fuel k)%Z → c ∈ used).
Proof.
  revert k. induction fuel as [|fuel IH]; intros k Hk Hall Hsize; simpl.
  - split; [|split; [lia|done]]. intros Hin.
    assert (Z.to_nat (k + 1) ≤ size used); [|lia].
    apply range_in_set_size; [lia|]. intros c Hc.
    destruct (decide (c = k)) as [->|]; [done|]. apply Hall. lia.
  - case_bool_decide as Hin.
    + destruct (IH (k + 1)%Z) as (H1 & H2 & H3); [lia| |lia|].
      * intros c Hc. destruct (decide (c = k)) as [->|]; [done|].
        apply Hall. lia.
      * split; [done|]. split; [lia|done].
    + split; [done|]. split; [|done]. lia.
Qed.

Lemma omap_length_filter {A B} (f : A → option B) (P : A → Prop)
    `{!∀ x, Decision (P x)} (l : list A) :
  (∀ x y, f x = Some y → P x) → length (omap f l) ≤ length (filter P l).
Proof.
  intros HfP. induction l as [|x l IH]; [done|].
  rewrite filter_cons. simpl. destruct (f x) as [y|] eqn:Hfx.
  - rewrite decide_True by eauto. simpl. apply le_n_S, IH.
  - destruct (decide (P x)); simpl; [apply le_S, IH|apply IH].
Qed.

Lemma size_list_to_set_le (l : list Z) :
  size (list_to_set (C := gset Z) l) ≤ length l.
Proof.
  unfold size, set_size. simpl.
  apply submseteq_length, NoDup_submseteq; [apply NoDup_elements|].
  intros x Hx. by apply elem_of_elements, elem_of_list_to_set in Hx.
Qed.

(** What the loop over [i] has established once the positions below [k]
    have been colored. *)
Lemma greedyColoring_prefix (ns : list Node.t) (es : list Edge.t) (k : nat) :
  k ≤ length ns →
  let M := _buildAdjacencyMatrix ns es in
  let colors :=
    foldl (FourColorApp.color_step (FourColorApp.buildAdjacencyMatrix ns es)
             (length ns))
      (replicate (length ns) (-1)%Z) (seq 0 k) in
  length colors = length ns ∧
  (∀ j c, j < k → colors !! j = Some c →
     (0 ≤ c ≤ Z.of_nat (neighbor_count M j))%Z) ∧
  proper M colors.
Proof.
  cbv zeta. induction k as [|k IH]; intros Hk.
  - simpl. split; [by rewrite length_replicate|].
    split; [intros; lia|apply proper_replicate].
  - rewrite seq_S, foldl_app. cbn [foldl]. change (0 + k) with k.
    destruct IH as (Hlen & Hrange & Hprop); [lia|].
    set (colors := foldl _ _ (seq 0 k)) in *.
    set (used := FourColorApp.used_by_neighbors
                   (FourColorApp.buildAdjacencyMatrix ns es) (length ns)
                   colors k).
    destruct (first_free_spec used (size used) 0) as (Hfree & Hbound & _);
      [lia|intros; lia|lia|].
    set (c := FourColorApp.first_free used (size used) 0) in *.
    change (FourColorApp.color_step _ _ colors k) with (<[k := c]> colors).
    destruct (_buildAdjacencyMatrix_square_symmetric ns es) as [Hd Hsym].
    split; [by rewrite length_insert|]. split.
    + intros j x Hj Hx. destruct (decide (j = k)) as [->|Hne].
      * rewrite list_lookup_insert_eq in Hx by lia. injection Hx as <-.
        split; [lia|].
        assert (size used ≤ neighbor_count (_buildAdjacencyMatrix ns es) k);
          [|lia].
        unfold used, FourColorApp.used_by_neighbors.
        etrans; [apply size_list_to_set_le|].
        unfold neighbor_count. destruct Hd as [-> _].
        apply omap_length_filter. intros i y Hy.
        destruct (FourColorApp.flag _ k i) eqn:Hflag; [|done].
        by apply flag_adjacent in Hflag.
      * rewrite list_lookup_insert_ne in Hx by done.
        apply (Hrange j x); [lia|done].
    + apply proper_insert; [done|done|].
      intros (j & Hadj & Hj & Hcne). apply Hfree.
      unfold used, FourColorApp.used_by_neighbors.
      apply elem_of_list_to_set, list_elem_of_omap. exists j. split.
      * apply elem_of_seq. apply lookup_lt_Some in Hj. lia.
      * rewrite (proj2 (flag_adjacent ns es k j) Hadj), Hj.
        by rewrite bool_decide_eq_true_2.
Qed.

(** X27. The application's greedy coloring, with no bound on the number
    of colors, always gives a proper coloring: with unique node
    identifiers, two distinct nodes joined by an edge get different
    colors, and the color of a node is at most the number of nodes joined
    to it, so it is never [-1]. *)
Theorem FourColorApp_greedyColoring_proper (ns : list Node.t)
    (es : list Edge.t) :
  NoDup (Node.id <$> ns) →
  length (FourColorApp.greedyColoring ns es) = length ns ∧
  (∀ i c, FourColorApp.greedyColoring ns es !! i = Some c →
     (0 ≤ c ≤ Z.of_nat (neighbor_count (_buildAdjacencyMatrix ns es) i))%Z) ∧
  (∀ i j a b, i ≠ j → ns !! i = Some a → ns !! j = Some b →
     joins es (Node.id a) (Node.id b) →
     FourColorApp.greedyColoring ns es !! i
       ≠ FourColorApp.greedyColoring ns es !! j).
Proof.
  intros Hnd. unfold FourColorApp.greedyColoring. cbv zeta.
  destruct (greedyColoring_prefix ns es (length ns)) as (Hlen & Hrange & Hp);
    [done|].
  set (colors := foldl _ _ _) in *.
  split; [done|]. split.
  - intros i c Hc. apply (Hrange i c); [|done].
    apply lookup_lt_Some in Hc. lia.
  - intros i j a b Hij Hi Hj Hjoin Heq.
    destruct (lookup_lt_is_Some_2 colors i) as [c Hc].
    { apply lookup_lt_Some in Hi. lia. }
    assert (i < length ns) as Hilt by (by eapply lookup_lt_Some).
    pose proof (Hrange i c Hilt Hc) as Hr.
    destruct (_buildAdjacencyMatrix_entry_cases ns es i j a b Hnd Hi Hj)
      as [[_ Hone]|[Hno _]]; [|done].
    rewrite Hc in Heq. symmetry in Heq.
    pose proof (Hp i j c Hij Hone Hc Heq). lia.
Qed.

End AppGreedy.

(** ** RegionsCanvas: the neighbor sets computed from the bounding boxes *)

Section RegionNeighbors.

Variable num : Type.
Variable add : num → num → num.
Variable le : num → num → bool.

Lemma overlap_sym (a b : num * num * num * num) :
  RegionsCanvas.overlap num add le a b = RegionsCanvas.overlap num add le b a.
Proof.
  destruct a as [[[ax ay] aw] ah], b as [[[bx b_y] bw] bh]. simpl.
  f_equal.
  destruct (le (add ax aw) bx), (le (add bx bw) ax), (le (add ay ah) b_y),
    (le (add b_y bh) ay); done.
Qed.

Lemma elem_of_set_add (x y : string) (s : list string) :
  x ∈ RegionsCanvas.set_add y s ↔ x = y ∨ x ∈ s.
Proof.
  unfold RegionsCanvas.set_add. case_bool_decide as Hin.
  - split; [by right|]. by intros [->|?].
  - rewrite elem_of_app, list_elem_of_singleton. tauto.
Qed.

Lemma add_neighbor_lookup (fs : list RegionsCanvas.Feature) (i k : nat)
    (x : string) (f' : RegionsCanvas.Feature) :
  RegionsCanvas.add_neighbor fs i x !! k = Some f' ↔
  ∃ f, fs !! k = Some f ∧ RegionsCanvas.id f' = RegionsCanvas.id f ∧
       ((k = i ∧
         RegionsCanvas.neighbors f'
           = RegionsCanvas.set_add x (RegionsCanvas.neighbors f)) ∨
        (k ≠ i ∧ f' = f)).
Proof.
  unfold RegionsCanvas.add_neighbor.
  destruct (decide (k = i)) as [->|Hne].
  - rewrite list_lookup_alter_eq. destruct (fs !! i) as [f|]; simpl.
    + split.
      * intros [= <-]. exists f. simpl. split; [done|]. split; [done|].
        by left.
      * intros (f0 & [= <-] & Hid & [[_ Hn]|[? _]]); [|done].
        destruct f' as [i' n']. simpl in *. by subst.
    + split; [done|]. by intros (f0 & ? & _).
  - rewrite list_lookup_alter_ne by done. split.
    + intros Hk. exists f'. split; [done|]. split; [done|]. by right.
    + by intros (f0 & Hk & _ & [[? _]|[_ ->]]).
Qed.

Lemma add_neighbor_ids (fs : list RegionsCanvas.Feature) (i : nat)
    (x : string) :
  RegionsCanvas.id <$> RegionsCanvas.add_neighbor fs i x
    = RegionsCanvas.id <$> fs.
Proof.
  apply list_eq. intros k. rewrite !list_lookup_fmap.
  unfold RegionsCanvas.add_neighbor.
  destruct (decide (k = i)) as [->|Hne].
  - rewrite list_lookup_alter_eq. by destruct (fs !! i).
  - by rewrite list_lookup_alter_ne.
Qed.

Lemma list_find_NoDup_id (fs : list RegionsCanvas.Feature) (i : nat)
    (f : RegionsCanvas.Feature) :
  NoDup (RegionsCanvas.id <$> fs) → fs !! i = Some f →
  list_find (λ g, RegionsCanvas.id g = RegionsCanvas.id f) fs = Some (i, f).
Proof.
  intros Hnd Hi. apply list_find_Some. split; [done|]. split; [done|].
  intros j g Hj Hlt Heq.
  assert (j = i); [|lia].
  apply (NoDup_lookup (RegionsCanvas.id <$> fs) j i (RegionsCanvas.id f) Hnd).
  - by rewrite list_lookup_fmap, Hj, <- Heq.
  - by rewrite list_lookup_fmap, Hi.
Qed.

Lemma elem_of_pairs (n p q : nat) :
  (p, q) ∈ RegionsCanvas.pairs n ↔ p < q < n.
Proof.
  unfold RegionsCanvas.pairs. rewrite list_elem_of_bind. split.
  - intros (i & Hin & Hi). apply list_elem_of_fmap in Hin as (j & [= -> ->] & Hj).
    apply elem_of_seq in Hj. lia.
  - intros Hpq. exists p. split.
    + apply list_elem_of_fmap. exists q. split; [done|].
      apply elem_of_seq. lia.
    + apply elem_of_seq. lia.
Qed.

Lemma feature_ids_inj (fs : list RegionsCanvas.Feature) (i j : nat)
    (a b : RegionsCanvas.Feature) :
  NoDup (RegionsCanvas.id <$> fs) → fs !! i = Some a → fs !! j = Some b →
  RegionsCanvas.id a = RegionsCanvas.id b → i = j.
Proof.
  intros Hnd Hi Hj Heq.
  apply (NoDup_lookup (RegionsCanvas.id <$> fs) i j (RegionsCanvas.id a) Hnd).
  - by rewrite list_lookup_fmap, Hi.
  - by rewrite list_lookup_fmap, Hj, Heq.
Qed.

(** What the body of the inner loop does for overlapping boxes [p] and
    [q] of features with unique identifiers. *)
Lemma link_pair_spec (fs : list RegionsCanvas.Feature) (p q : nat)
    (fp fq : RegionsCanvas.Feature) :
  NoDup (RegionsCanvas.id <$> fs) → p ≠ q →
  fs !! p = Some fp → fs !! q = Some fq →
  ∃ fs',
    RegionsCanvas.link_pair fs p q = Ok fs' ∧
    RegionsCanvas.id <$> fs' = RegionsCanvas.id <$> fs ∧
    ∀ i a', fs' !! i = Some a' →
      ∃ a, fs !! i = Some a ∧ RegionsCanvas.id a' = RegionsCanvas.id a ∧
        ∀ x, x ∈ RegionsCanvas.neighbors a' ↔
             x ∈ RegionsCanvas.neighbors a ∨
             (i = p ∧ x = RegionsCanvas.id fq) ∨
             (i = q ∧ x = RegionsCanvas.id fp).
Proof.
  intros Hnd Hpq Hp Hq. unfold RegionsCanvas.link_pair. rewrite Hp, Hq.
  rewrite (list_find_NoDup_id fs p fp Hnd Hp).
  rewrite (list_find_NoDup_id fs q fq Hnd Hq).
  eexists. split; [done|]. split; [by rewrite !add_neighbor_ids|].
  intros i a' Ha'.
  apply add_neighbor_lookup in Ha' as (f1 & Hf1 & Hid1 & Hcase1).
  apply add_neighbor_lookup in Hf1 as (a & Ha & Hid0 & Hcase0).
  exists a. split; [done|]. split; [congruence|]. intros x.
  destruct Hcase1 as [[-> Hn1]|[Hiq ->]].
  - destruct Hcase0 as [[? _]|[_ ->]]; [done|].
    rewrite Hn1, elem_of_set_add. split.
    + intros [->|Hx]; [right; right; done|by left].
    + intros [Hx|[[? _]|[_ ->]]]; [by right|done|by left].
  - destruct Hcase0 as [[-> Hn0]|[Hip ->]].
    + rewrite Hn0, elem_of_set_add. split.
      * intros [->|Hx]; [right; left; done|by left].
      * intros [Hx|[[_ ->]|[? _]]]; [by right|by left|done].
    + split; [by left|]. by intros [Hx|[[? _]|[? _]]].
Qed.

(** The two loops over the pairs still to visit, from a state in which
    the neighbor sets record the overlapping pairs already visited. *)
Lemma pairs_fold_inv (fs0 : list RegionsCanvas.Feature)
    (boxes : list (num * num * num * num)) :
  NoDup (RegionsCanvas.id <$> fs0) → length boxes = length fs0 →
  ∀ (todo visited : list (nat * nat)) (fs : list RegionsCanvas.Feature),
    RegionsCanvas.id <$> fs = RegionsCanvas.id <$> fs0 →
    (∀ p q, (p, q) ∈ todo → p < q < length fs0) →
    (∀ a x, a ∈ fs → x ∈ RegionsCanvas.neighbors a →
       x ∈ RegionsCanvas.id <$> fs0) →
    (∀ i j a b, fs !! i = Some a → fs !! j = Some b →
       (RegionsCanvas.id b ∈ RegionsCanvas.neighbors a ↔
        ∃ p q bp bq, (p, q) ∈ visited ∧
          boxes !! p = Some bp ∧ boxes !! q = Some bq ∧
          RegionsCanvas.overlap num add le bp bq = true ∧
          ((i = p ∧ j = q) ∨ (i = q ∧ j = p)))) →
    ∃ fs',
      foldl (RegionsCanvas.pair_step num add le boxes) (Ok fs) todo
        = Ok fs' ∧
      RegionsCanvas.id <$> fs' = RegionsCanvas.id <$> fs0 ∧
      (∀ a x, a ∈ fs' → x ∈ RegionsCanvas.neighbors a →
         x ∈ RegionsCanvas.id <$> fs0) ∧
      (∀ i j a b, fs' !! i = Some a → fs' !! j = Some b →
         (RegionsCanvas.id b ∈ RegionsCanvas.neighbors a ↔
          ∃ p q bp bq, (p, q) ∈ (visited ++ todo)%list ∧
            boxes !! p = Some bp ∧ boxes !! q = Some bq ∧
            RegionsCanvas.overlap num add le bp bq = true ∧
            ((i = p ∧ j = q) ∨ (i = q ∧ j = p)))).
Proof.
  intros Hnd Hlen. induction todo as [|[p q] todo IH];
    intros visited fs Hids Htodo Hknown Hinv.
  { exists fs. split; [done|]. split; [done|]. split; [done|].
    by rewrite app_nil_r. }
  destruct (Htodo p q) as [Hpq Hqn]; [by left|].
  assert (∀ p' q', (p', q') ∈ todo → p' < q' < length fs0) as Htodo'
    by (intros p' q' Hin; apply Htodo; by right).
  assert (length fs = length fs0) as Hfl
    by (by rewrite <- (length_fmap RegionsCanvas.id fs), Hids, length_fmap).
  destruct (lookup_lt_is_Some_2 boxes p) as [bp Hbp]; [lia|].
  destruct (lookup_lt_is_Some_2 boxes q) as [bq Hbq]; [lia|].
  cbn [foldl]. unfold RegionsCanvas.pair_step at 2. simpl.
  rewrite Hbp, Hbq.
  replace (visited ++ (p, q) :: todo)%list
    with ((visited ++ [(p, q)]) ++ todo)%list
    by (by rewrite <- app_assoc).
  destruct (RegionsCanvas.overlap num add le bp bq) eqn:Hov.
  - destruct (lookup_lt_is_Some_2 fs p) as [fp Hfp]; [lia|].
    destruct (lookup_lt_is_Some_2 fs q) as [fq Hfq]; [lia|].
    assert (NoDup (RegionsCanvas.id <$> fs)) as Hnd' by (by rewrite Hids).
    destruct (link_pair_spec fs p q fp fq Hnd') as (fs1 & -> & Hids1 & Hl);
      [lia|done|done|].
    apply IH; [congruence|done| |].
    { intros a' x Ha' Hx. apply list_elem_of_lookup in Ha' as [i Ha'].
      destruct (Hl i a' Ha') as (a & Ha & _ & Hna).
      destruct (proj1 (Hna x) Hx) as [Hx'|[[_ Heq]|[_ Heq]]].
      - apply (Hknown a); [|done]. by eapply list_elem_of_lookup_2.
      - rewrite <- Hids, Heq. apply list_elem_of_fmap. exists fq.
        split; [done|]. by eapply list_elem_of_lookup_2.
      - rewrite <- Hids, Heq. apply list_elem_of_fmap. exists fp.
        split; [done|]. by eapply list_elem_of_lookup_2. }
    intros i j a' b' Ha' Hb'.
    destruct (Hl i a' Ha') as (a & Ha & Hida & Hna).
    destruct (Hl j b' Hb') as (b & Hb & Hidb & _).
    rewrite Hna, Hidb, (Hinv i j a b Ha Hb). split.
    + intros [(p' & q' & bp' & bq' & Hin & ?)|Hnew].
      * exists p', q', bp', bq'. split; [|done].
        apply elem_of_app. by left.
      * exists p, q, bp, bq. split; [apply elem_of_app; right; by left|].
        split; [done|]. split; [done|]. split; [done|].
        destruct Hnew as [[-> Heq]|[-> Heq]].
        -- left. split; [done|].
           by apply (feature_ids_inj fs j q b fq Hnd').
        -- right. split; [done|].
           by apply (feature_ids_inj fs j p b fp Hnd').
    + intros (p' & q' & bp' & bq' & Hin & Hbp' & Hbq' & Hov' & Hcase).
      apply elem_of_app in Hin as [Hin|Hin].
      * left. by exists p', q', bp', bq'.
      * apply list_elem_of_singleton in Hin as [= -> ->]. right.
        destruct Hcase as [[-> ->]|[-> ->]].
        -- left. split; [done|]. congruence.
        -- right. split; [done|]. congruence.
  - apply IH; [done|done|done|].
    intros i j a b Ha Hb. rewrite (Hinv i j a b Ha Hb). split.
    + intros (p' & q' & bp' & bq' & Hin & ?).
      exists p', q', bp', bq'. split; [|done]. apply elem_of_app. by left.
    + intros (p' & q' & bp' & bq' & Hin & Hbp' & Hbq' & Hov' & Hcase).
      apply elem_of_app in Hin as [Hin|Hin].
      * by exists p', q', bp', bq'.
      * apply list_elem_of_singleton in Hin as [= -> ->]. congruence.
Qed.

(** The run of [computeAdjacencyApprox] from empty neighbor sets. *)
Lemma computeAdjacencyApprox_run (fs : list RegionsCanvas.Feature)
    (boxes : list (num * num * num * num)) :
  NoDup (RegionsCanvas.id <$> fs) → length boxes = length fs →
  (∀ f, f ∈ fs → RegionsCanvas.neighbors f = []) →
  ∃ fs',
    RegionsCanvas.computeAdjacencyApprox num add le fs boxes = Ok fs' ∧
    RegionsCanvas.id <$> fs' = RegionsCanvas.id <$> fs ∧
    (∀ a x, a ∈ fs' → x ∈ RegionsCanvas.neighbors a →
       x ∈ RegionsCanvas.id <$> fs) ∧
    (∀ i j a b, fs' !! i = Some a → fs' !! j = Some b →
       (RegionsCanvas.id b ∈ RegionsCanvas.neighbors a ↔
        ∃ p q bp bq, (p, q) ∈ RegionsCanvas.pairs (length boxes) ∧
          boxes !! p = Some bp ∧ boxes !! q = Some bq ∧
          RegionsCanvas.overlap num add le bp bq = true ∧
          ((i = p ∧ j = q) ∨ (i = q ∧ j = p)))).
Proof.
  intros Hnd Hlen Hempty. unfold RegionsCanvas.computeAdjacencyApprox.
  apply (pairs_fold_inv fs boxes Hnd Hlen
           (RegionsCanvas.pairs (length boxes)) [] fs).
  - done.
  - intros p q Hin. apply elem_of_pairs in Hin. lia.
  - intros a x Ha. rewrite (Hempty a Ha). by intros ?%not_elem_of_nil.
  - intros i j a b Ha Hb.
    rewrite (Hempty a) by (by eapply list_elem_of_lookup_2).
    split; [by intros ?%not_elem_of_nil|].
    by intros (p & q & bp & bq & ?%not_elem_of_nil & _).
Qed.

Lemma overlapping_pair_visited (boxes : list (num * num * num * num))
    (i j : nat) (bi bj : num * num * num * num) :
  boxes !! i = Some bi → boxes !! j = Some bj →
  (i ≠ j ∧ RegionsCanvas.overlap num add le bi bj = true) ↔
  ∃ p q bp bq, (p, q) ∈ RegionsCanvas.pairs (length boxes) ∧
    boxes !! p = Some bp ∧ boxes !! q = Some bq ∧
    RegionsCanvas.overlap num add le bp bq = true ∧
    ((i = p ∧ j = q) ∨ (i = q ∧ j = p)).
Proof.
  intros Hbi Hbj. split.
  - intros [Hne Hov]. pose proof (lookup_lt_Some _ _ _ Hbi).
    pose proof (lookup_lt_Some _ _ _ Hbj).
    destruct (decide (i < j)) as [Hlt|Hge].
    + exists i, j, bi, bj. split; [apply elem_of_pairs; lia|].
      split; [done|]. split; [done|]. split; [done|]. by left.
    + exists j, i, bj, bi. split; [apply elem_of_pairs; lia|].
      rewrite overlap_sym.
      split; [done|]. split; [done|]. split; [done|]. by right.
  - intros (p & q & bp & bq & Hin & Hbp & Hbq & Hov & Hcase).
    apply elem_of_pairs in Hin.
    destruct Hcase as [[-> ->]|[-> ->]].
    + split; [lia|]. congruence.
    + split; [lia|]. rewrite overlap_sym. congruence.
Qed.

(** X28. From features with unique identifiers and empty neighbor sets,
    and one bounding box per feature, [computeAdjacencyApprox] returns;
    it leaves the identifiers as they were, every listed neighbor is the
    identifier of a feature, and a feature lists another one exactly when
    the two are distinct and their boxes overlap; in particular the
    listing is symmetric and no feature lists itself. *)
Theorem computeAdjacencyApprox_neighbors
    (fs : list RegionsCanvas.Feature)
    (boxes : list (num * num * num * num)) :
  NoDup (RegionsCanvas.id <$> fs) → length boxes = length fs →
  (∀ f, f ∈ fs → RegionsCanvas.neighbors f = []) →
  ∃ fs',
    RegionsCanvas.computeAdjacencyApprox num add le fs boxes = Ok fs' ∧
    RegionsCanvas.id <$> fs' = RegionsCanvas.id <$> fs ∧
    (∀ a x, a ∈ fs' → x ∈ RegionsCanvas.neighbors a →
       x ∈ RegionsCanvas.id <$> fs) ∧
    (∀ i j a b bi bj,
       fs' !! i = Some a → fs' !! j = Some b →
       boxes !! i = Some bi → boxes !! j = Some bj →
       (RegionsCanvas.id b ∈ RegionsCanvas.neighbors a ↔
        i ≠ j ∧ RegionsCanvas.overlap num add le bi bj = true)).
Proof.
  intros Hnd Hlen Hempty.
  destruct (computeAdjacencyApprox_run fs boxes Hnd Hlen Hempty)
    as (fs' & Hrun & Hids & Hknown & Hinv).
  exists fs'. split; [done|]. split; [done|]. split; [done|].
  intros i j a b bi bj Ha Hb Hbi Hbj.
  rewrite (Hinv i j a b Ha Hb).
  symmetry. by apply overlapping_pair_visited.
Qed.

(** X29. The regions mode end to end: from features with unique
    identifiers and empty neighbor sets and one bounding box per feature,
    [computeAdjacencyApprox] followed by [autoColorRegions] with a
    non-empty palette of distinct colors throws nowhere, gives every
    feature a color of the palette, and gives two distinct features whose
    boxes overlap the same color only if it is the first color of the
    palette, the fallback. *)
Theorem autoColorRegions_after_computeAdjacencyApprox
    (fs : list RegionsCanvas.Feature)
    (boxes : list (num * num * num * num)) (palette : list string) :
  NoDup (RegionsCanvas.id <$> fs) → length boxes = length fs →
  (∀ f, f ∈ fs → RegionsCanvas.neighbors f = []) →
  NoDup palette → palette ≠ [] →
  ∃ fs' colors,
    RegionsCanvas.computeAdjacencyApprox num add le fs boxes = Ok fs' ∧
    Main.autoColorRegions fs' palette = Ok colors ∧
    length colors = length fs ∧
    (∀ i, i < length fs → ∃ c, colors !! i = Some (Some c) ∧ c ∈ palette) ∧
    (∀ i j bi bj, i ≠ j →
       boxes !! i = Some bi → boxes !! j = Some bj →
       RegionsCanvas.overlap num add le bi bj = true →
       colors !! i = colors !! j → colors !! i = Some (palette !! 0)).
Proof.
  intros Hnd Hlen Hempty Hpal Hne.
  destruct (computeAdjacencyApprox_run fs boxes Hnd Hlen Hempty)
    as (fs' & Hrun & Hids & Hknown & Hinv).
  assert (length fs' = length fs) as Hfl
    by (by rewrite <- (length_fmap RegionsCanvas.id fs'), Hids, length_fmap).
  assert (NoDup (RegionsCanvas.id <$> fs')) as Hnd' by (by rewrite Hids).
  destruct (regions_matrix fs' Hnd') as (M & HM & HMlen & Hsym & Hadj).
  { intros f x Hf Hx. rewrite Hids. by apply (Hknown f). }
  exists fs'. unfold Main.autoColorRegions. rewrite HM. simpl.
  destruct (applied_colors M palette Hsym Hpal Hne)
    as (Hcl & Hin & Hclash).
  rewrite HMlen in Hcl, Hin, Hclash. rewrite <- Hfl.
  eexists. split; [done|]. split; [done|]. split; [done|]. split; [done|].
  intros i j bi bj Hij Hbi Hbj Hov.
  pose proof (lookup_lt_Some _ _ _ Hbi). pose proof (lookup_lt_Some _ _ _ Hbj).
  apply Hclash; [done|lia|lia|].
  destruct (lookup_lt_is_Some_2 fs' i) as [a Ha]; [lia|].
  destruct (lookup_lt_is_Some_2 fs' j) as [b Hb]; [lia|].
  apply (Hadj i j a b Hij Ha Hb). left.
  apply (Hinv i j a b Ha Hb).
  by apply (overlapping_pair_visited boxes i j bi bj).
Qed.

End RegionNeighbors.

(** ** Sample runs *)

Section SampleRuns.

Lemma triangle_adjacency_model : adjacency_model (_preprocessGraph triangle).
Proof. by apply _preprocessGraph_adjacency_model. Qed.

Lemma triangle_ids_NoDup :
  NoDup (Node.id <$> nodes (_preprocessGraph triangle)).
Proof. apply (bool_decide_unpack _). by vm_compute. Qed.

Lemma triangle_unpinned_proper (o : Options) :
  constraints o = None →
  proper (adjacency (_preprocessGraph triangle))
    (initial_colors (_preprocessGraph triangle) o).
Proof.
  intros Hc. rewrite (initial_colors_no_constraints _ _ Hc).
  apply proper_replicate.
Qed.

(** Greedy on the triangle with default options. *)
Lemma heuristic_valid_result_passes_validator_witness :
  ∃ r, GreedyAlgorithm.compute (_preprocessGraph triangle) no_options = Ok r ∧
       validate (_preprocessGraph triangle) r = Ok true.
Proof.
  eexists. split; [vm_compute; reflexivity|].
  apply (heuristic_valid_result_passes_validator (_preprocessGraph triangle)
           no_options).
  - exact triangle_adjacency_model.
  - exact triangle_ids_NoDup.
  - by apply triangle_unpinned_proper.
  - left. vm_compute. reflexivity.
  - reflexivity.
Defined.

Lemma triangle_unpinned_within (o : Options) (m : Z) :
  constraints o = None →
  within m (initial_colors (_preprocessGraph triangle) o).
Proof.
  intros Hc. rewrite (initial_colors_no_constraints _ _ Hc).
  apply within_replicate.
Qed.


(** Greedy on the triangle with default options. *)
Lemma heuristic_colors_below_maxColors_witness :
  ∃ r, GreedyAlgorithm.compute (_preprocessGraph triangle) no_options = Ok r ∧
       (∀ x c, assignments r !! x = Some c →
          (0 ≤ c < or_default (maxColors no_options) 4)%Z) ∧
       (0 ≤ chromatic r)%Z ∧
       (chromatic r ≤ Z.max 0 (or_default (maxColors no_options) 4))%Z.
Proof.
  eexists. split; [vm_compute; reflexivity|].
  apply (heuristic_colors_below_maxColors (_preprocessGraph triangle)
           no_options).
  - exact triangle_adjacency_model.
  - exact triangle_ids_NoDup.
  - by apply triangle_unpinned_within.
  - left. vm_compute. reflexivity.
  - reflexivity.
Defined.



(** The triangle: two neighbors per node, four colors. *)
Lemma heuristics_succeed_below_degree_bound_witness :
  (∃ r, GreedyAlgorithm.compute (_preprocessGraph triangle) no_options
          = Ok r ∧ valid r = true) ∧
  (∃ r, WelshPowellAlgorithm.compute (_preprocessGraph triangle) no_options
          = Ok r ∧ valid r = true) ∧
  (∃ r, DSATURAlgorithm.compute (_preprocessGraph triangle) no_options
          = Ok r ∧ valid r = true).
Proof.
  apply (heuristics_succeed_below_degree_bound (_preprocessGraph triangle)
           no_options).
  - exact (proj1 triangle_adjacency_model).
  - intros v Hv. destruct v as [|[|[|v]]]; [by vm_compute..|].
    simpl in Hv. lia.
Defined.

(** Welsh-Powell on the triangle with default options. *)
Lemma WelshPowell_metadata_order_witness :
  ∃ r, WelshPowellAlgorithm.compute (_preprocessGraph triangle) no_options
         = Ok r ∧
  ∃ md order,
    metadata r = Some md ∧
    order ≡ₚ seq 0 (length (nodes (_preprocessGraph triangle))) ∧
    vertexOrder md
      = omap (λ i, Node.id <$> nodes (_preprocessGraph triangle) !! i)
          order ∧
    vertexOrder md ≡ₚ Node.id <$> nodes (_preprocessGraph triangle) ∧
    length (degreeDistribution md)
      = length (nodes (_preprocessGraph triangle)) ∧
    (∀ k p, order !! k = Some p →
       ∃ a, degreeDistribution md !! k = Some a ∧
            degree_of (adjacency (_preprocessGraph triangle)) p = Ok a) ∧
    (∀ k l p q a b, k < l →
       order !! k = Some p → order !! l = Some q →
       degreeDistribution md !! k = Some a →
       degreeDistribution md !! l = Some b →
       degree_order (p, a) (q, b)).
Proof.
  eexists. split; [vm_compute; reflexivity|].
  apply (WelshPowell_metadata_order (_preprocessGraph triangle) no_options).
  - vm_compute. reflexivity.
  - reflexivity.
Defined.

(** The entry for "a" and "b" in the matrix of the triangle. *)
Lemma _buildAdjacencyMatrix_entries_witness :
  (entry (_buildAdjacencyMatrix (in_nodes triangle) (in_edges triangle)) 0 1
     = Some 1%Z ↔
   joins (in_edges triangle) "a"%string "b"%string) ∧
  (entry (_buildAdjacencyMatrix (in_nodes triangle) (in_edges triangle)) 0 1
     = Some 0%Z ↔
   ¬ joins (in_edges triangle) "a"%string "b"%string).
Proof.
  apply (_buildAdjacencyMatrix_entries (in_nodes triangle)
           (in_edges triangle) 0 1 (Node.Build "a") (Node.Build "b")).
  - exact triangle_ids_NoDup.
  - reflexivity.
  - reflexivity.
Defined.

(** The neighbors read off the loaded triangle. *)
Lemma getNeighbors_reads_the_row_witness :
  (∀ x, x ∉ Node.id <$> nodes (_preprocessGraph triangle) →
     TheoremEngine.getNeighbors engine_with_triangle x = Ok []) ∧
  (∀ i a, nodes (_preprocessGraph triangle) !! i = Some a →
     ∃ l, TheoremEngine.getNeighbors engine_with_triangle (Node.id a)
            = Ok l ∧
          ∀ y, y ∈ l ↔
            ∃ j b, nodes (_preprocessGraph triangle) !! j = Some b ∧
                   Node.id b = y ∧
                   adjacent (adjacency (_preprocessGraph triangle)) i j).
Proof.
  apply (getNeighbors_reads_the_row engine_with_triangle
           (_preprocessGraph triangle)).
  - reflexivity.
  - reflexivity.
  - exact triangle_ids_NoDup.
Defined.

(** The neighbors of "a" after loading the triangle. *)
Lemma getNeighbors_after_loadGraph_witness :
  ∃ l, TheoremEngine.getNeighbors
         (TheoremEngine.loadGraph (TheoremEngine.create None) triangle)
         "a"%string = Ok l ∧
       ∀ y, y ∈ l ↔
         "a"%string ∈ Node.id <$> in_nodes triangle ∧
         y ∈ Node.id <$> in_nodes triangle ∧
         joins (in_edges triangle) "a"%string y.
Proof.
  apply (getNeighbors_after_loadGraph (TheoremEngine.create None) triangle
           "a"%string).
  - reflexivity.
  - exact triangle_ids_NoDup.
Defined.

(** Two colorings of the triangle that differ on the identifier "zz". *)
Lemma validateColoring_reads_node_colors_only_witness :
  TheoremEngine.validateColoring engine_with_triangle
    (Some (coloring_of [("a", 0); ("b", 1)]%string%Z))
  = TheoremEngine.validateColoring engine_with_triangle
      (Some (coloring_of [("a", 0); ("b", 1); ("zz", 0)]%string%Z)).
Proof.
  apply (validateColoring_reads_node_colors_only engine_with_triangle
           (_preprocessGraph triangle)).
  - reflexivity.
  - intros nd Hin.
    repeat (apply elem_of_cons in Hin as [->|Hin]; [by vm_compute|]).
    by apply not_elem_of_nil in Hin.
Defined.

(** Greedy through the engine, on the triangle. *)
Lemma computeColoring_then_validateColoring_witness :
  ∃ c e',
    TheoremEngine.computeColoring no_backtracking engine_with_triangle
      no_options 0 = (Ok c, e') ∧
    currentColoring e' = Some c ∧
    TheoremEngine.validateColoring e' None = Ok true.
Proof.
  eexists _, _. split; [vm_compute; reflexivity|].
  apply (computeColoring_then_validateColoring no_backtracking
           engine_with_triangle _ (_preprocessGraph triangle) no_options 0).
  - reflexivity.
  - exact triangle_adjacency_model.
  - exact triangle_ids_NoDup.
  - discriminate.
  - by apply triangle_unpinned_proper.
  - vm_compute. reflexivity.
  - reflexivity.
Defined.

(** Greedy standing in for the search, on the triangle: three colors. *)
Lemma getChromaticNumber_first_valid_witness :
  (0 ≤ 3 ≤ 4)%Z ∧
  (3%Z = 0%Z ↔ currentGraph engine_with_triangle = None) ∧
  (∀ g, currentGraph engine_with_triangle = Some g →
     (∀ j, (1 ≤ j < 3)%Z →
        ∃ r, GreedyAlgorithm.compute g
               {| algorithm := None; maxColors := Some j;
                  constraints := None |} = Ok r ∧ valid r = false) ∧
     ((3 < 4)%Z →
        ∃ r, GreedyAlgorithm.compute g
               {| algorithm := None; maxColors := Some 3%Z;
                  constraints := None |} = Ok r ∧ valid r = true)).
Proof.
  apply (getChromaticNumber_first_valid GreedyAlgorithm.compute
           engine_with_triangle 3).
  vm_compute. reflexivity.
Defined.

(** The matrix of the triangle, three colors. *)
Lemma colorGraphGreedyBacktrack_clashes_only_on_fallback_witness :
  (∀ i j c, i ≠ j →
     Coloring.truthy (adjacency (_preprocessGraph triangle)) i j = true →
     Coloring.colorGraphGreedyBacktrack
       (adjacency (_preprocessGraph triangle)) 3 !! i = Some c →
     Coloring.colorGraphGreedyBacktrack
       (adjacency (_preprocessGraph triangle)) 3 !! j = Some c → c = 0%Z) ∧
  extends (prefilled (adjacency (_preprocessGraph triangle)) 3)
    (Coloring.colorGraphGreedyBacktrack
       (adjacency (_preprocessGraph triangle)) 3).
Proof.
  apply (colorGraphGreedyBacktrack_clashes_only_on_fallback
           (adjacency (_preprocessGraph triangle)) 3).
  apply symmetric_truthy_symmetric, triangle_adjacency_model.
Defined.


(** The triangle and the palette 'CB-Safe 4'. *)
Lemma autoColorGraph_colors_witness :
  ∃ colors,
    Main.autoColorGraph (in_nodes triangle) (in_edges triangle) cb_safe_4
      = Ok colors ∧
    length colors = length (in_nodes triangle) ∧
    (∀ i, i < length (in_nodes triangle) →
       ∃ c, colors !! i = Some (Some c) ∧ c ∈ cb_safe_4) ∧
    (∀ i j a b, i ≠ j →
       in_nodes triangle !! i = Some a → in_nodes triangle !! j = Some b →
       joins (in_edges triangle) (Node.id a) (Node.id b) →
       colors !! i = colors !! j → colors !! i = Some (cb_safe_4 !! 0)).
Proof.
  apply (autoColorGraph_colors (in_nodes triangle) (in_edges triangle)
           cb_safe_4).
  - exact triangle_ids_NoDup.
  - apply (bool_decide_unpack _). by vm_compute.
  - discriminate.
  - apply Forall_forall. apply (bool_decide_unpack _). by vm_compute.
Defined.

(** Two neighboring regions and the palette 'CB-Safe 4'. *)
Lemma autoColorRegions_colors_witness :
  ∃ colors,
    Main.autoColorRegions two_regions cb_safe_4 = Ok colors ∧
    length colors = length two_regions ∧
    (∀ i, i < length two_regions →
       ∃ c, colors !! i = Some (Some c) ∧ c ∈ cb_safe_4) ∧
    (∀ i j a b, i ≠ j →
       two_regions !! i = Some a → two_regions !! j = Some b →
       RegionsCanvas.id b ∈ RegionsCanvas.neighbors a ∨
         RegionsCanvas.id a ∈ RegionsCanvas.neighbors b →
       colors !! i = colors !! j → colors !! i = Some (cb_safe_4 !! 0)).
Proof.
  apply (autoColorRegions_colors two_regions cb_safe_4).
  - apply (bool_decide_unpack _). by vm_compute.
  - apply (bool_decide_unpack _). by vm_compute.
  - discriminate.
  - intros f x Hf Hx.
    repeat (apply elem_of_cons in Hf as [->|Hf];
            [apply list_elem_of_singleton in Hx as ->;
             apply (bool_decide_unpack _); by vm_compute|]).
    by apply not_elem_of_nil in Hf.
Defined.

(** The application's greedy coloring on the triangle. *)
Lemma FourColorApp_greedyColoring_proper_witness :
  length (FourColorApp.greedyColoring (in_nodes triangle) (in_edges triangle))
    = length (in_nodes triangle) ∧
  (∀ i c,
     FourColorApp.greedyColoring (in_nodes triangle) (in_edges triangle) !! i
       = Some c →
     (0 ≤ c ≤ Z.of_nat
                (neighbor_count
                   (_buildAdjacencyMatrix (in_nodes triangle)
                      (in_edges triangle)) i))%Z) ∧
  (∀ i j a b, i ≠ j →
     in_nodes triangle !! i = Some a → in_nodes triangle !! j = Some b →
     joins (in_edges triangle) (Node.id a) (Node.id b) →
     FourColorApp.greedyColoring (in_nodes triangle) (in_edges triangle) !! i
       ≠ FourColorApp.greedyColoring (in_nodes triangle) (in_edges triangle)
           !! j).
Proof.
  apply (FourColorApp_greedyColoring_proper (in_nodes triangle)
           (in_edges triangle)).
  exact triangle_ids_NoDup.
Defined.

(** Two new regions with overlapping boxes, over the integers. *)
Lemma computeAdjacencyApprox_neighbors_witness :
  ∃ fs',
    RegionsCanvas.computeAdjacencyApprox Z Z.add Z.leb two_new_regions
      two_boxes = Ok fs' ∧
    RegionsCanvas.id <$> fs' = RegionsCanvas.id <$> two_new_regions ∧
    (∀ a x, a ∈ fs' → x ∈ RegionsCanvas.neighbors a →
       x ∈ RegionsCanvas.id <$> two_new_regions) ∧
    (∀ i j a b bi bj,
       fs' !! i = Some a → fs' !! j = Some b →
       two_boxes !! i = Some bi → two_boxes !! j = Some bj →
       (RegionsCanvas.id b ∈ RegionsCanvas.neighbors a ↔
        i ≠ j ∧ RegionsCanvas.overlap Z Z.add Z.leb bi bj = true)).
Proof.
  apply (computeAdjacencyApprox_neighbors Z Z.add Z.leb two_new_regions
           two_boxes).
  - apply (bool_decide_unpack _). by vm_compute.
  - reflexivity.
  - intros f Hf.
    repeat (apply elem_of_cons in Hf as [->|Hf]; [reflexivity|]).
    by apply not_elem_of_nil in Hf.
Defined.

(** The same regions, colored with the palette 'CB-Safe 4'. *)
Lemma autoColorRegions_after_computeAdjacencyApprox_witness :
  ∃ fs' colors,
    RegionsCanvas.computeAdjacencyApprox Z Z.add Z.leb two_new_regions
      two_boxes = Ok fs' ∧
    Main.autoColorRegions fs' cb_safe_4 = Ok colors ∧
    length colors = length two_new_regions ∧
    (∀ i, i < length two_new_regions →
       ∃ c, colors !! i = Some (Some c) ∧ c ∈ cb_safe_4) ∧
    (∀ i j bi bj, i ≠ j →
       two_boxes !! i = Some bi → two_boxes !! j = Some bj →
       RegionsCanvas.overlap Z Z.add Z.leb bi bj = true →
       colors !! i = colors !! j → colors !! i = Some (cb_safe_4 !! 0)).
Proof.
  apply (autoColorRegions_after_computeAdjacencyApprox Z Z.add Z.leb
           two_new_regions two_boxes cb_safe_4).
  - apply (bool_decide_unpack _). by vm_compute.
  - reflexivity.
  - intros f Hf.
    repeat (apply elem_of_cons in Hf as [->|Hf]; [reflexivity|]).
    by apply not_elem_of_nil in Hf.
  - apply (bool_decide_unpack _). by vm_compute.
  - discriminate.
Defined.

End SampleRuns.
